(** * css-to-vars: a shallow embedding of [src/index.ts]

    The tool scans stylesheet text line by line, recognises literal colours,
    spacing lengths and font families with regular expressions, aggregates
    them over all files, keeps those that occur often enough, gives each a
    custom-property name and rewrites the files.

    Strings are sequences of code units; the development works on the
    code units U+0000..U+00FF, represented by [ascii].  JavaScript [Map]s
    iterate in insertion order, so they are association lists here.  The
    parsing of the command line, the discovery of the files and what is
    printed are left out: a run starts from the options and the list of
    files found, and ends in an outcome that holds what is reported. *)

From Stdlib Require Import Ascii String DecimalString.
From Stdlib Require Import List Arith ZArith Lia Bool Sorted.
Import ListNotations.

Local Open Scope list_scope.
Local Open Scope bool_scope.

(* ===================================================================== *)
(** ** Strings *)
(* ===================================================================== *)

Definition jstring := list ascii.

(** A string literal of the source. *)
Definition str (s : string) : jstring := list_ascii_of_string s.
Arguments str s%_string.

Definition code (c : ascii) : nat := nat_of_ascii c.

Definition between (lo hi : nat) (c : ascii) : bool :=
  (lo <=? code c) && (code c <=? hi).

(** [\d] *)
Definition is_digit (c : ascii) : bool := between 48 57 c.

(** [[0-9a-fA-F]] *)
Definition is_hex (c : ascii) : bool :=
  is_digit c || between 97 102 c || between 65 70 c.

(** [[a-zA-Z0-9]] *)
Definition is_alnum (c : ascii) : bool :=
  between 97 122 c || between 65 90 c || is_digit c.

(** [\w] *)
Definition is_word (c : ascii) : bool := is_alnum c || (code c =? 95).

(** [\s], which is also what [trim] strips: TAB, LF, VT, FF, CR, SP, NBSP. *)
Definition is_space (c : ascii) : bool :=
  between 9 13 c || (code c =? 32) || (code c =? 160).

(** [[\d.]] *)
Definition is_digit_or_dot (c : ascii) : bool := is_digit c || (code c =? 46).

(** [[\w-]] *)
Definition is_word_or_hyphen (c : ascii) : bool := is_word c || (code c =? 45).

(** [[^;]] *)
Definition not_semicolon (c : ascii) : bool := negb (code c =? 59).

(** [toLowerCase] on one code unit: A-Z and the Latin-1 capitals. *)
Definition lower_char (c : ascii) : ascii :=
  if between 65 90 c then ascii_of_nat (code c + 32)
  else if between 192 222 c && negb (code c =? 215) then ascii_of_nat (code c + 32)
  else c.

(** Canonicalisation used by the [i] flag: the upper-case code unit. *)
Definition canon_char (c : ascii) : ascii :=
  if between 97 122 c then ascii_of_nat (code c - 32)
  else if between 224 254 c && negb (code c =? 247) then ascii_of_nat (code c - 32)
  else c.

Definition toLowerCase (s : jstring) : jstring := map lower_char s.

Definition jeqb (a b : jstring) : bool :=
  if list_eq_dec ascii_dec a b then true else false.

Fixpoint startsWith (s p : jstring) {struct p} : bool :=
  match p, s with
  | [], _ => true
  | x :: p', y :: s' => Ascii.eqb x y && startsWith s' p'
  | _ :: _, [] => false
  end.

Fixpoint includes (s p : jstring) : bool :=
  startsWith s p ||
  match s with
  | [] => false
  | _ :: s' => includes s' p
  end.

Fixpoint trimStart (s : jstring) : jstring :=
  match s with
  | c :: s' => if is_space c then trimStart s' else s
  | [] => []
  end.

Definition trimEnd (s : jstring) : jstring := rev (trimStart (rev s)).

Definition trim (s : jstring) : jstring := trimEnd (trimStart s).

(** [s.split(sep)] for a one-character separator: never the empty list. *)
Fixpoint split (sep : ascii) (s : jstring) : list jstring :=
  match s with
  | [] => [[]]
  | c :: s' =>
      if Ascii.eqb c sep then [] :: split sep s'
      else match split sep s' with
           | l :: ls => (c :: l) :: ls
           | [] => [[c]]
           end
  end.

(** [lines.join(sep)] *)
Fixpoint join (sep : jstring) (l : list jstring) : jstring :=
  match l with
  | [] => []
  | [x] => x
  | x :: l' => x ++ sep ++ join sep l'
  end.

Definition LF : ascii := ascii_of_nat 10.

(** The template [`${n}`] of a non-negative integer. *)
Definition decimal (n : nat) : jstring :=
  str (NilZero.string_of_uint (Nat.to_uint n)).

(* ===================================================================== *)
(** ** Regular expressions

    A backtracking matcher in continuation-passing style for the fragment
    of the pattern language the source uses.  Quantifiers are greedy and
    only ever applied to a character class or (for [?]) to a group, as in
    the source. *)
(* ===================================================================== *)

Inductive regex : Type :=
| Eps
| Chr (c : ascii)                                   (* a pattern character *)
| ChrI (c : ascii)                                  (* the same under /i *)
| Cls (p : ascii -> bool)                           (* [...] , \d, \s, \w *)
| Seq (r1 r2 : regex)
| Alt (r1 r2 : regex)                               (* r1|r2, r1 first *)
| Rep (lo : nat) (hi : option nat) (p : ascii -> bool)  (* p{lo,hi}, p*, p+ *)
| Opt (r : regex)                                   (* (?:r)? *)
| Grp (n : nat) (r : regex)                         (* capture group n *)
| Bol                                               (* ^ *)
| WordB                                             (* \b *)
| NotAfterWord.                                     (* (?<!\w) *)

Arguments Chr c%_char.
Arguments ChrI c%_char.

(** Matcher state: the text before the current position (reversed), the
    text from it on, and the captures made so far. *)
Record mstate := MState {
  ms_before : jstring;
  ms_rest : jstring;
  ms_caps : list (nat * jstring)
}.

Definition head_is (p : ascii -> bool) (s : jstring) : bool :=
  match s with
  | c :: _ => p c
  | [] => false
  end.

Definition hi_allows (hi : option nat) : bool :=
  match hi with
  | Some 0 => false
  | _ => true
  end.

Fixpoint rep (p : ascii -> bool) (lo : nat) (hi : option nat)
    (bef rest : jstring) (caps : list (nat * jstring))
    (k : mstate -> option mstate) : option mstate :=
  let stop := match lo with
              | 0 => k (MState bef rest caps)
              | S _ => None
              end in
  match rest with
  | c :: rest' =>
      if p c && hi_allows hi then
        match rep p (pred lo) (option_map pred hi) (c :: bef) rest' caps k with
        | Some r => Some r
        | None => stop
        end
      else stop
  | [] => stop
  end.

Definition step (ok : ascii -> bool) (st : mstate)
    (k : mstate -> option mstate) : option mstate :=
  match ms_rest st with
  | c :: rest' =>
      if ok c then k (MState (c :: ms_before st) rest' (ms_caps st)) else None
  | [] => None
  end.

(** The text consumed between two states of one run. *)
Definition consumed (st st' : mstate) : jstring :=
  firstn (length (ms_rest st) - length (ms_rest st')) (ms_rest st).

Fixpoint matcher (r : regex) (st : mstate) (k : mstate -> option mstate)
    : option mstate :=
  match r with
  | Eps => k st
  | Chr c => step (Ascii.eqb c) st k
  | ChrI c => step (fun x => Ascii.eqb (canon_char x) (canon_char c)) st k
  | Cls p => step p st k
  | Seq r1 r2 => matcher r1 st (fun st' => matcher r2 st' k)
  | Alt r1 r2 =>
      match matcher r1 st k with
      | Some r => Some r
      | None => matcher r2 st k
      end
  | Rep lo hi p => rep p lo hi (ms_before st) (ms_rest st) (ms_caps st) k
  | Opt r1 =>
      match matcher r1 st k with
      | Some r => Some r
      | None => k st
      end
  | Grp n r1 =>
      matcher r1 st (fun st' =>
        k (MState (ms_before st') (ms_rest st')
                  ((n, consumed st st') :: ms_caps st')))
  | Bol =>
      match ms_before st with
      | [] => k st
      | _ :: _ => None
      end
  | WordB =>
      if xorb (head_is is_word (ms_before st)) (head_is is_word (ms_rest st))
      then k st else None
  | NotAfterWord =>
      if head_is is_word (ms_before st) then None else k st
  end.

(** A successful match: [match[0]] and the captures. *)
Record rmatch := RMatch {
  m_text : jstring;
  m_caps : list (nat * jstring)
}.

Fixpoint assoc_nat (n : nat) (l : list (nat * jstring)) : option jstring :=
  match l with
  | [] => None
  | (i, v) :: l' => if Nat.eqb i n then Some v else assoc_nat n l'
  end.

(** [match[n]] for a group that took part in the match. *)
Definition group (n : nat) (mr : rmatch) : jstring :=
  match assoc_nat n (m_caps mr) with
  | Some v => v
  | None => []
  end.

(** One attempt at the current position. *)
Definition exec_at (r : regex) (bef s : jstring) : option rmatch :=
  let st := MState bef s [] in
  match matcher r st Some with
  | Some st' => Some (RMatch (consumed st st') (ms_caps st'))
  | None => None
  end.

(** The first match at or after the current position ([regex.exec] and
    [s.match(regex)] without the [g] flag, from index 0). *)
Fixpoint search (r : regex) (bef s : jstring) : option rmatch :=
  match exec_at r bef s with
  | Some mr => Some mr
  | None =>
      match s with
      | c :: s' => search r (c :: bef) s'
      | [] => None
      end
  end.

(** [regex.test(s)] *)
Definition test (r : regex) (s : jstring) : bool :=
  match search r [] s with
  | Some _ => true
  | None => false
  end.

(** All matches of a [g] regex, left to right: after a match the search
    resumes at its end (one further on after an empty match).  [skip] is
    the number of characters still covered by the previous match. *)
Fixpoint scan (r : regex) (skip : nat) (bef s : jstring) : list rmatch :=
  match skip with
  | S n =>
      match s with
      | c :: s' => scan r n (c :: bef) s'
      | [] => []
      end
  | 0 =>
      match exec_at r bef s with
      | Some mr =>
          mr :: match s with
                | c :: s' => scan r (pred (length (m_text mr))) (c :: bef) s'
                | [] => []
                end
      | None =>
          match s with
          | c :: s' => scan r 0 (c :: bef) s'
          | [] => []
          end
      end
  end.

(** The loop [while ((match = re.exec(line)) !== null)] and
    [s.match(re)] for a [g] regex. *)
Definition matchAll (r : regex) (s : jstring) : list rmatch := scan r 0 [] s.

Fixpoint seqs (l : list regex) : regex :=
  match l with
  | [] => Eps
  | [r] => r
  | r :: l' => Seq r (seqs l')
  end.

Fixpoint alts (l : list regex) : regex :=
  match l with
  | [] => Eps
  | [r] => r
  | r :: l' => Alt r (alts l')
  end.

(** A run of pattern characters. *)
Fixpoint lit (s : jstring) : regex :=
  match s with
  | [] => Eps
  | c :: s' => Seq (Chr c) (lit s')
  end.

Fixpoint liti (s : jstring) : regex :=
  match s with
  | [] => Eps
  | c :: s' => Seq (ChrI c) (liti s')
  end.

(* ===================================================================== *)
(** ** The patterns of the source *)
(* ===================================================================== *)

Definition ws : regex := Rep 0 None is_space.            (* \s* *)
Definition digits : regex := Rep 1 None is_digit.        (* \d+ *)
Definition digdots : regex := Rep 1 None is_digit_or_dot. (* [\d.]+ *)

(** [/#(?:[0-9a-fA-F]{3,8})\b/g] *)
Definition COLOR_HEX : regex :=
  seqs [Chr "#"; Rep 3 (Some 8) is_hex; WordB].

(** The optional alpha channel of COLOR_RGB and COLOR_HSL: a non-capturing
    group under [?] holding a comma, [\s*], [[\d.]+] and [\s*]. *)
Definition alpha : regex := Opt (seqs [Chr ","; ws; digdots; ws]).

(** COLOR_RGB (index.ts:26): [rgba?], an opening parenthesis, three [\d+]
    channels separated by commas with [\s*] around them, the optional
    alpha channel and a closing parenthesis. *)
Definition COLOR_RGB : regex :=
  seqs [lit (str "rgb"); Opt (Chr "a"); Chr "("; ws; digits; ws; Chr ",";
        ws; digits; ws; Chr ","; ws; digits; ws; alpha; Chr ")"].

(** COLOR_HSL (index.ts:27): [hsla?], an opening parenthesis, a [\d+]
    channel and two [[\d.]+%] channels separated by commas with [\s*]
    around them, the optional alpha channel and a closing parenthesis. *)
Definition COLOR_HSL : regex :=
  seqs [lit (str "hsl"); Opt (Chr "a"); Chr "("; ws; digits; ws; Chr ",";
        ws; digdots; Chr "%"; ws; Chr ","; ws; digdots; Chr "%"; ws; alpha;
        Chr ")"].

Definition named_colors : list jstring :=
  map str ["red"; "blue"; "green"; "orange"; "purple"; "pink"; "brown";
           "gray"; "grey"; "black"; "white"; "yellow"; "cyan"; "magenta";
           "navy"; "teal"; "olive"; "maroon"; "aqua"; "lime"; "silver";
           "fuchsia"]%string.

(** [/\b(red|blue|...|fuchsia)\b/gi] *)
Definition COLOR_NAMED : regex :=
  seqs [WordB; Grp 1 (alts (map liti named_colors)); WordB].

Definition units : list jstring :=
  map str ["px"; "rem"; "em"; "vh"; "vw"; "%"]%string.

(** [/(?<!\w)(\d+(?:\.\d+)?)(px|rem|em|vh|vw|%)\b/g] *)
Definition SPACING : regex :=
  seqs [NotAfterWord;
        Grp 1 (seqs [digits; Opt (seqs [Chr "."; digits])]);
        Grp 2 (alts (map lit units));
        WordB].

(** [/font-family\s*:\s*([^;]+)/g] *)
Definition FONT_FAMILY : regex :=
  seqs [lit (str "font-family"); ws; Chr ":"; ws;
        Grp 1 (Rep 1 None not_semicolon)].

(** [/^\s*([\w-]+)\s*:/] *)
Definition PROPERTY : regex :=
  seqs [Bol; ws; Grp 1 (Rep 1 None is_word_or_hyphen); ws; Chr ":"].

(** [/var\(/] *)
Definition VAR_REF : regex := lit (str "var(").

(** [/color|background|border|shadow|outline/i] *)
Definition COLOR_PROPERTY : regex :=
  alts (map liti (map str
    ["color"; "background"; "border"; "shadow"; "outline"]%string)).

(** [/margin|padding|gap|width|height|top|left|right|bottom|border-radius|font-size/i] *)
Definition LAYOUT_PROPERTY : regex :=
  alts (map liti (map str
    ["margin"; "padding"; "gap"; "width"; "height"; "top"; "left"; "right";
     "bottom"; "border-radius"; "font-size"]%string)).

(** [/\s+/g] *)
Definition SPACES : regex := Rep 1 None is_space.

(* ===================================================================== *)
(** ** Replacement *)
(* ===================================================================== *)

(** The replacement text of [String.prototype.replace] for one match of a
    pattern without capture groups: [$$], [$&], [$`] and [$'] are
    substitution patterns, every other character stands for itself. *)
Fixpoint substitution (tpl matched before after : jstring) : jstring :=
  match tpl with
  | [] => []
  | c :: tpl' =>
      if Ascii.eqb c "$"%char then
        match tpl' with
        | d :: tpl'' =>
            if Ascii.eqb d "$"%char then
              "$"%char :: substitution tpl'' matched before after
            else if Ascii.eqb d "&"%char then
              matched ++ substitution tpl'' matched before after
            else if Ascii.eqb d "`"%char then
              before ++ substitution tpl'' matched before after
            else if Ascii.eqb d "'"%char then
              after ++ substitution tpl'' matched before after
            else c :: substitution tpl' matched before after
        | [] => [c]
        end
      else c :: substitution tpl' matched before after
  end.

(** [s.replace(re, tpl)] for a [g] regex. *)
Fixpoint replace_scan (r : regex) (tpl : jstring) (skip : nat)
    (bef s : jstring) : jstring :=
  match skip with
  | S n =>
      match s with
      | c :: s' => replace_scan r tpl n (c :: bef) s'
      | [] => []
      end
  | 0 =>
      match exec_at r bef s with
      | Some mr =>
          let len := length (m_text mr) in
          substitution tpl (m_text mr) (rev bef) (skipn len s) ++
          match s with
          | c :: s' =>
              (match len with 0 => [c] | S _ => [] end) ++
              replace_scan r tpl (pred len) (c :: bef) s'
          | [] => []
          end
      | None =>
          match s with
          | c :: s' => c :: replace_scan r tpl 0 (c :: bef) s'
          | [] => []
          end
      end
  end.

Definition replaceAll (r : regex) (tpl s : jstring) : jstring :=
  replace_scan r tpl 0 [] s.

(* ===================================================================== *)
(** ** Data model *)
(* ===================================================================== *)

Inductive vtype : Type := color | spacing | font.

Definition vtype_eqb (a b : vtype) : bool :=
  match a, b with
  | color, color | spacing, spacing | font, font => true
  | _, _ => false
  end.

Record Location := mkLocation {
  file : jstring;
  line : nat;
  property : jstring
}.

Record ExtractedValue := mkExtractedValue {
  value : jstring;
  type : vtype;
  locations : list Location
}.

(** A [Map<string, V>]: keys are distinct and iteration follows insertion. *)
Definition Map (V : Type) : Type := list (jstring * V).

Fixpoint map_get {V : Type} (mp : Map V) (key : jstring) : option V :=
  match mp with
  | [] => None
  | (k, v) :: mp' => if jeqb k key then Some v else map_get mp' key
  end.

(** [map.set(key, v)]: an existing key keeps its place in the order. *)
Fixpoint map_set {V : Type} (mp : Map V) (key : jstring) (v : V) : Map V :=
  match mp with
  | [] => [(key, v)]
  | (k, w) :: mp' =>
      if jeqb k key then (k, v) :: mp' else (k, w) :: map_set mp' key v
  end.

Definition addValue (mp : Map ExtractedValue) (val : jstring) (ty : vtype)
    (fl : jstring) (ln : nat) (prop : jstring) : Map ExtractedValue :=
  match map_get mp val with
  | Some existing =>
      map_set mp val
        (mkExtractedValue (value existing) (type existing)
           (locations existing ++ [mkLocation fl ln prop]))
  | None =>
      map_set mp val (mkExtractedValue val ty [mkLocation fl ln prop])
  end.

(* ===================================================================== *)
(** ** The value classifier: [extractValues] *)
(* ===================================================================== *)

(** [parseFloat] is only applied to [match[1]] of SPACING, a run of digits
    with an optional fraction, and its result is only compared with 0, 1,
    50 and 100.  The text denotes the rational [mantissa / 10^scale]; the
    number is the binary64 value nearest to it (ties to even), so each
    comparison is an interval test on the rational. *)
Fixpoint digits_value (acc : Z) (s : jstring) : Z :=
  match s with
  | [] => acc
  | c :: s' => digits_value (10 * acc + Z.of_nat (code c - 48))%Z s'
  end.

Fixpoint fraction (s : jstring) : jstring :=
  match s with
  | [] => []
  | c :: s' => if Ascii.eqb c "."%char then s' else fraction s'
  end.

Definition mantissa (s : jstring) : Z := digits_value 0 (filter is_digit s).

Definition scale (s : jstring) : nat := length (fraction s).

(** [parseFloat(s) === k], where the binary64 neighbours of [k] are
    [2^-(below-1)] below and [2^-(above-1)] above it. *)
Definition parseFloat_is (s : jstring) (k : Z) (below above : Z) : bool :=
  let n := mantissa s in
  let d := (10 ^ Z.of_nat (scale s))%Z in
  ((k * d - n) * 2 ^ below <=? d)%Z && ((n - k * d) * 2 ^ above <=? d)%Z.

Definition num_is_0 (s : jstring) : bool := parseFloat_is s 0 1075 1075.
Definition num_is_1 (s : jstring) : bool := parseFloat_is s 1 54 53.
Definition num_is_50 (s : jstring) : bool := parseFloat_is s 50 48 48.
Definition num_is_100 (s : jstring) : bool := parseFloat_is s 100 47 47.

(** The skip rules at the head of the loop body. *)
Definition skipped (ln : jstring) : bool :=
  startsWith (trim ln) (str "--") || startsWith (trim ln) (str "/*") ||
  startsWith (trim ln) (str "*") || startsWith (trim ln) (str "//") ||
  test VAR_REF ln.

Definition propertyOf (ln : jstring) : jstring :=
  match search PROPERTY [] ln with
  | Some mr => group 1 mr
  | None => str "unknown"
  end.

Definition hexColors (ln : jstring) : list jstring :=
  map (fun mr => toLowerCase (m_text mr)) (matchAll COLOR_HEX ln).

Definition rgbColors (ln : jstring) : list jstring :=
  map (fun mr => replaceAll SPACES (str " ") (m_text mr)) (matchAll COLOR_RGB ln).

Definition hslColors (ln : jstring) : list jstring :=
  map (fun mr => replaceAll SPACES (str " ") (m_text mr)) (matchAll COLOR_HSL ln).

Definition namedColors (ln prop : jstring) : list jstring :=
  if test COLOR_PROPERTY prop
  then map (fun mr => toLowerCase (m_text mr)) (matchAll COLOR_NAMED ln)
  else [].

Definition spacingOf (prop : jstring) (mr : rmatch) : list jstring :=
  let num := group 1 mr in
  let unit := group 2 mr in
  if num_is_0 num || (jeqb unit (str "%") && (num_is_100 num || num_is_50 num))
  then []
  else if jeqb unit (str "px") && num_is_1 num then []
  else if test LAYOUT_PROPERTY prop then [num ++ unit] else [].

Definition spacings (ln prop : jstring) : list jstring :=
  flat_map (spacingOf prop) (matchAll SPACING ln).

Definition fontOf (mr : rmatch) : list jstring :=
  let val := trim (group 1 mr) in
  if 2 <? length val then [val] else [].

Definition fonts (ln : jstring) : list jstring :=
  flat_map fontOf (matchAll FONT_FAMILY ln).

(** One call [addValue(values, val, type, filePath, lineNum + 1, property)]. *)
Record Call := mkCall {
  c_value : jstring;
  c_type : vtype;
  c_property : jstring
}.

Definition calls_of (ty : vtype) (prop : jstring) (vals : list jstring) : list Call :=
  map (fun v => mkCall v ty prop) vals.

(** The calls of [addValue] one iteration of the line loop makes, in order. *)
Definition lineCalls (scope ln : jstring) : list Call :=
  if skipped ln then []
  else
    let prop := propertyOf ln in
    (if jeqb scope (str "colors") || jeqb scope (str "all")
     then calls_of color prop
            (hexColors ln ++ rgbColors ln ++ hslColors ln ++ namedColors ln prop)
     else []) ++
    (if jeqb scope (str "spacing") || jeqb scope (str "all")
     then calls_of spacing prop (spacings ln prop)
     else []) ++
    (if jeqb scope (str "all")
     then calls_of font prop (fonts ln)
     else []).

Definition addCall (fl : jstring) (ln : nat) (mp : Map ExtractedValue) (c : Call)
    : Map ExtractedValue :=
  addValue mp (c_value c) (c_type c) fl ln (c_property c).

Fixpoint extractLines (mp : Map ExtractedValue) (lines : list jstring)
    (lineNum : nat) (filePath scope : jstring) : Map ExtractedValue :=
  match lines with
  | [] => mp
  | ln :: lines' =>
      extractLines
        (fold_left (addCall filePath (lineNum + 1)) (lineCalls scope ln) mp)
        lines' (S lineNum) filePath scope
  end.

Definition extractValues (content filePath scope : jstring) : Map ExtractedValue :=
  extractLines [] (split LF content) 0 filePath scope.

(* ===================================================================== *)
(** ** The namer: [generateVarName] and the naming loop *)
(* ===================================================================== *)

Definition type_name (ty : vtype) : jstring :=
  match ty with
  | color => str "color"
  | spacing => str "spacing"
  | font => str "font"
  end.

(** [/[^a-zA-Z0-9]/g] *)
Definition NON_ALNUM : regex := Cls (fun c => negb (is_alnum c)).

(** The character class of double and single quotes, [g] flag. *)
Definition QUOTES : regex :=
  Cls (fun c => (code c =? 34) || (code c =? 39)).

Definition first_segment (s : jstring) : jstring :=
  match split ","%char s with
  | x :: _ => x
  | [] => []
  end.

(** [type] only ever is one of the three categories, so the final [else]
    of the source is not reachable. *)
Definition generateVarName (prefix : jstring) (ty : vtype) (val : jstring)
    (index : nat) : jstring :=
  let name := str "--" ++ prefix ++ str "-" ++ type_name ty in
  match ty with
  | color =>
      let hex := toLowerCase val in
      if jeqb hex (str "#fff") || jeqb hex (str "#ffffff")
      then str "--" ++ prefix ++ str "-color-white"
      else if jeqb hex (str "#000") || jeqb hex (str "#000000")
      then str "--" ++ prefix ++ str "-color-black"
      else name ++ str "-" ++ decimal (index + 1)
  | spacing => name ++ str "-" ++ replaceAll NON_ALNUM (str "-") val
  | font =>
      let cleaned :=
        replaceAll SPACES (str "-")
          (toLowerCase (trim (first_segment (replaceAll QUOTES [] val)))) in
      name ++ str "-" ++ cleaned
  end.

Record Counters := mkCounters {
  cnt_color : nat;
  cnt_spacing : nat;
  cnt_font : nat
}.

(** [counters[type]++]: the old value and the updated record. *)
Definition post_increment (cs : Counters) (ty : vtype) : nat * Counters :=
  match ty with
  | color => (cnt_color cs, mkCounters (S (cnt_color cs)) (cnt_spacing cs) (cnt_font cs))
  | spacing => (cnt_spacing cs, mkCounters (cnt_color cs) (S (cnt_spacing cs)) (cnt_font cs))
  | font => (cnt_font cs, mkCounters (cnt_color cs) (cnt_spacing cs) (S (cnt_font cs)))
  end.

Record Names := mkNames {
  varMap : Map jstring;     (* value -> var name *)
  rootVars : Map jstring    (* var name -> value *)
}.

Fixpoint nameLoop (prefix : jstring) (repeated : Map ExtractedValue)
    (cs : Counters) (acc : Names) : Names :=
  match repeated with
  | [] => acc
  | (val, info) :: repeated' =>
      let (idx, cs') := post_increment cs (type info) in
      let varName := generateVarName prefix (type info) val idx in
      nameLoop prefix repeated' cs'
        (mkNames (map_set (varMap acc) val varName)
                 (map_set (rootVars acc) varName val))
  end.

Definition generateNames (prefix : jstring) (repeated : Map ExtractedValue) : Names :=
  nameLoop prefix repeated (mkCounters 0 0 0) (mkNames [] []).

(* ===================================================================== *)
(** ** The block generator: [generateRootBlock] *)
(* ===================================================================== *)

Record Grouped := mkGrouped {
  g_color : list (jstring * jstring);
  g_spacing : list (jstring * jstring);
  g_font : list (jstring * jstring)
}.

Definition group_entry (prefix : jstring) (g : Grouped) (e : jstring * jstring)
    : Grouped :=
  let varName := fst e in
  if includes varName (str "-" ++ prefix ++ str "-color")
  then mkGrouped (g_color g ++ [e]) (g_spacing g) (g_font g)
  else if includes varName (str "-" ++ prefix ++ str "-spacing")
  then mkGrouped (g_color g) (g_spacing g ++ [e]) (g_font g)
  else if includes varName (str "-" ++ prefix ++ str "-font")
  then mkGrouped (g_color g) (g_spacing g) (g_font g ++ [e])
  else g.

Definition declaration (e : jstring * jstring) : jstring :=
  str "  " ++ fst e ++ str ": " ++ snd e ++ str ";".

Definition section (title : jstring) (entries : list (jstring * jstring))
    : list jstring :=
  match entries with
  | [] => []
  | _ :: _ => title :: map declaration entries
  end.

Definition rootBlockLines (variables : Map jstring) (prefix : jstring)
    : list jstring :=
  let grouped := fold_left (group_entry prefix) variables (mkGrouped [] [] []) in
  [str ":root {"] ++
  section (str "  /* Colors */") (g_color grouped) ++
  section (str "  /* Spacing */") (g_spacing grouped) ++
  section (str "  /* Fonts */") (g_font grouped) ++
  [str "}"].

Definition generateRootBlock (variables : Map jstring) (prefix : jstring)
    : jstring :=
  join [LF] (rootBlockLines variables prefix).

(* ===================================================================== *)
(** ** The rewriter *)
(* ===================================================================== *)

(** The fourteen syntax characters of the pattern language: the class
    [[.*+?^${}()|[\]\\]] of the escaping step. *)
Definition is_syntax_char (c : ascii) : bool :=
  existsb (Ascii.eqb c) (str ".*+?^${}()|[]\").

Definition SYNTAX_CHAR : regex := Cls is_syntax_char.

(** [value.replace(/[.*+?^${}()|[\]\\]/g, "\\$&")] *)
Definition escapeRegExp (val : jstring) : jstring :=
  replaceAll SYNTAX_CHAR (str "\$&") val.

(** [new RegExp(pattern, "g")] for a pattern that is a sequence of pattern
    characters (any character but a syntax character) and of syntax
    characters escaped by a backslash.  Every other pattern is outside
    this fragment: [None]. *)
Fixpoint RegExp (pattern : jstring) : option regex :=
  match pattern with
  | [] => Some Eps
  | c :: pattern' =>
      if Ascii.eqb c "\"%char then
        match pattern' with
        | d :: pattern'' =>
            if is_syntax_char d
            then option_map (Seq (Chr d)) (RegExp pattern'')
            else None
        | [] => None
        end
      else if is_syntax_char c then None
      else option_map (Seq (Chr c)) (RegExp pattern')
  end.

(** The state of the loop over one file: content, running total of
    replacements and the [modified] flag. *)
Record Rewrite := mkRewrite {
  rw_content : jstring;
  rw_total : nat;
  rw_modified : bool
}.

(** One iteration of [for (const [value, varName] of varMap)]. *)
Definition replaceValue (st : Rewrite) (entry : jstring * jstring)
    : option Rewrite :=
  let (val, varName) := entry in
  match RegExp (escapeRegExp val) with
  | None => None
  | Some regex =>
      let matches := matchAll regex (rw_content st) in
      match matches with
      | _ :: _ =>
          Some (mkRewrite
                  (replaceAll regex (str "var(" ++ varName ++ str ")") (rw_content st))
                  (rw_total st + length matches)
                  true)
      | [] => Some st
      end
  end.

Fixpoint replaceValues (vm : Map jstring) (st : Rewrite) : option Rewrite :=
  match vm with
  | [] => Some st
  | entry :: vm' =>
      match replaceValue st entry with
      | Some st' => replaceValues vm' st'
      | None => None
      end
  end.

(** The text written back for a modified file. *)
Definition withRootBlock (rootBlock content : jstring) : jstring :=
  if includes content (str ":root") then content
  else rootBlock ++ [LF; LF] ++ content.

(* ===================================================================== *)
(** ** [main]

    File discovery is outside the core: [main] is modelled from the list
    [cssFiles] on, over a file system that maps paths to contents.  A
    write always succeeds; reading a path the file system does not hold
    ends the run. *)
(* ===================================================================== *)

(** The result of [parseInt]. *)
Inductive jsnum : Type :=
| NaN
| Num (z : Z).

(** [n >= x] for an array length [n]. *)
Definition length_ge (n : nat) (x : jsnum) : bool :=
  match x with
  | NaN => false
  | Num z => (z <=? Z.of_nat n)%Z
  end.

Record CliOptions := mkCliOptions {
  dryRun : bool;
  min : jsnum;
  scope : jstring;
  prefix : jstring;
  json : bool;
  help : bool
}.

Definition FS : Type := Map jstring.

Definition readFileSync (fs : FS) (path : jstring) : option jstring :=
  map_get fs path.

Definition writeFileSync (fs : FS) (path content : jstring) : FS :=
  map_set fs path content.

(** The body of [for (const [key, val] of fileValues)]. *)
Definition mergeEntry (allValues : Map ExtractedValue)
    (entry : jstring * ExtractedValue) : Map ExtractedValue :=
  let (key, val) := entry in
  match map_get allValues key with
  | Some existing =>
      map_set allValues key
        (mkExtractedValue (value existing) (type existing)
           (locations existing ++ locations val))
  | None => map_set allValues key val
  end.

(** The loop that extracts all values across files. *)
Fixpoint aggregate (fs : FS) (sc : jstring) (cssFiles : list jstring)
    (allValues : Map ExtractedValue) : jstring + Map ExtractedValue :=
  match cssFiles with
  | [] => inr allValues
  | f :: cssFiles' =>
      match readFileSync fs f with
      | None => inl f
      | Some content =>
          aggregate fs sc cssFiles'
            (fold_left mergeEntry (extractValues content f sc) allValues)
      end
  end.

(** The filter by minimum occurrences. *)
Definition selectRepeated (mn : jsnum) (allValues : Map ExtractedValue)
    : Map ExtractedValue :=
  filter (fun e => length_ge (length (locations (snd e))) mn) allValues.

(** What is reported for one repeated value. *)
Record Extraction := mkExtraction {
  ex_value : jstring;
  ex_variable : option jstring;
  ex_type : vtype;
  ex_occurrences : nat;
  ex_locations : list Location
}.

Record Report := mkReport {
  rp_files : nat;
  rp_extractions : list Extraction;
  rp_rootBlock : jstring
}.

Definition report (cssFiles : list jstring) (repeated : Map ExtractedValue)
    (names : Names) (pre : jstring) : Report :=
  mkReport (length cssFiles)
    (map (fun e => mkExtraction (fst e) (map_get (varMap names) (fst e))
                     (type (snd e)) (length (locations (snd e)))
                     (locations (snd e)))
         repeated)
    (generateRootBlock (rootVars names) pre).

(** How a run ends. *)
Inductive Outcome : Type :=
| HelpShown
| NoCssFiles
| ReadFailed (path : jstring)
| BadPattern
| NoRepeatedValues (files : nat)
| JsonResults (dry : bool) (r : Report)
| DryRun (r : Report)
| Done (r : Report) (updated : list jstring) (totalReplacements : nat).

(** The state of the loop that applies the changes to the files. *)
Record Apply := mkApply {
  ap_fs : FS;
  ap_updated : list jstring;
  ap_total : nat
}.

Inductive ApplyError : Type :=
| ErrRead (path : jstring)
| ErrPattern.

Fixpoint applyChanges (vm : Map jstring) (rootBlock : jstring)
    (cssFiles : list jstring) (st : Apply) : Apply * option ApplyError :=
  match cssFiles with
  | [] => (st, None)
  | f :: cssFiles' =>
      match readFileSync (ap_fs st) f with
      | None => (st, Some (ErrRead f))
      | Some content =>
          match replaceValues vm (mkRewrite content (ap_total st) false) with
          | None => (st, Some ErrPattern)
          | Some rw =>
              if rw_modified rw then
                applyChanges vm rootBlock cssFiles'
                  (mkApply
                     (writeFileSync (ap_fs st) f
                        (withRootBlock rootBlock (rw_content rw)))
                     (ap_updated st ++ [f])
                     (rw_total rw))
              else
                applyChanges vm rootBlock cssFiles'
                  (mkApply (ap_fs st) (ap_updated st) (rw_total rw))
          end
      end
  end.

Definition main (opts : CliOptions) (cssFiles : list jstring) (fs : FS)
    : FS * Outcome :=
  if help opts then (fs, HelpShown)
  else
    match cssFiles with
    | [] => (fs, NoCssFiles)
    | _ :: _ =>
        match aggregate fs (scope opts) cssFiles [] with
        | inl f => (fs, ReadFailed f)
        | inr allValues =>
            let repeated := selectRepeated (min opts) allValues in
            match repeated with
            | [] => (fs, NoRepeatedValues (length cssFiles))
            | _ :: _ =>
                let names := generateNames (prefix opts) repeated in
                let rpt := report cssFiles repeated names (prefix opts) in
                if json opts then (fs, JsonResults (dryRun opts) rpt)
                else if dryRun opts then (fs, DryRun rpt)
                else
                  match applyChanges (varMap names) (rp_rootBlock rpt)
                          cssFiles (mkApply fs [] 0) with
                  | (st, None) =>
                      (ap_fs st, Done rpt (ap_updated st) (ap_total st))
                  | (st, Some (ErrRead f)) => (ap_fs st, ReadFailed f)
                  | (st, Some ErrPattern) => (ap_fs st, BadPattern)
                  end
            end
        end
    end.


(* ===================================================================== *)
(** ** Notions used in the statements *)
(* ===================================================================== *)

(** A declarative reading of the patterns: [Matches r st st'] holds when
    [r] can take the matcher from state [st] to state [st']. *)
Inductive Matches : regex -> mstate -> mstate -> Prop :=
| M_Eps st : Matches Eps st st
| M_Chr c st rest'
    (Hrest : ms_rest st = c :: rest') :
    Matches (Chr c) st (MState (c :: ms_before st) rest' (ms_caps st))
| M_ChrI c x st rest'
    (Hrest : ms_rest st = x :: rest')
    (Hcanon : canon_char x = canon_char c) :
    Matches (ChrI c) st (MState (x :: ms_before st) rest' (ms_caps st))
| M_Cls p x st rest'
    (Hrest : ms_rest st = x :: rest')
    (Hp : p x = true) :
    Matches (Cls p) st (MState (x :: ms_before st) rest' (ms_caps st))
| M_Seq r1 r2 st st1 st2
    (H1 : Matches r1 st st1) (H2 : Matches r2 st1 st2) :
    Matches (Seq r1 r2) st st2
| M_Alt_l r1 r2 st st' (H1 : Matches r1 st st') : Matches (Alt r1 r2) st st'
| M_Alt_r r1 r2 st st' (H2 : Matches r2 st st') : Matches (Alt r1 r2) st st'
| M_Rep lo hi p st t rest'
    (Hrest : ms_rest st = t ++ rest')
    (Hall : forallb p t = true)
    (Hlo : lo <= length t)
    (Hhi : forall h, hi = Some h -> length t <= h) :
    Matches (Rep lo hi p) st (MState (rev t ++ ms_before st) rest' (ms_caps st))
| M_Opt_some r st st' (H1 : Matches r st st') : Matches (Opt r) st st'
| M_Opt_none r st : Matches (Opt r) st st
| M_Grp n r st st'
    (H1 : Matches r st st') :
    Matches (Grp n r) st
      (MState (ms_before st') (ms_rest st') ((n, consumed st st') :: ms_caps st'))
| M_Bol st (Hbol : ms_before st = []) : Matches Bol st st
| M_WordB st
    (Hb : xorb (head_is is_word (ms_before st)) (head_is is_word (ms_rest st)) = true) :
    Matches WordB st st
| M_NotAfterWord st
    (Hb : head_is is_word (ms_before st) = false) :
    Matches NotAfterWord st st.

Definition keys {V : Type} (mp : Map V) : list jstring := map fst mp.

(** Subsequences: some elements of a list, in their order. *)
Inductive subsequence {A : Type} : list A -> list A -> Prop :=
| sub_nil : subsequence [] []
| sub_skip x l1 l2 : subsequence l1 l2 -> subsequence l1 (x :: l2)
| sub_keep x l1 l2 : subsequence l1 l2 -> subsequence (x :: l1) (x :: l2).


(** Discovery order.  One discovery is one call of [addValue] together
    with the place it was made at; the discoveries of a run are those of
    its files in the order of [cssFiles], and within a file those of its
    lines from the first to the last. *)
Record Discovery := mkDiscovery {
  d_value : jstring;
  d_type : vtype;
  d_location : Location
}.

Definition discover (fl : jstring) (ln : nat) (c : Call) : Discovery :=
  mkDiscovery (c_value c) (c_type c) (mkLocation fl ln (c_property c)).

Fixpoint lineDiscoveries (lines : list jstring) (lineNum : nat)
    (filePath sc : jstring) : list Discovery :=
  match lines with
  | [] => []
  | ln :: lines' =>
      map (discover filePath (lineNum + 1)) (lineCalls sc ln) ++
      lineDiscoveries lines' (S lineNum) filePath sc
  end.

Definition fileDiscoveries (content filePath sc : jstring) : list Discovery :=
  lineDiscoveries (split LF content) 0 filePath sc.

Definition discoveries (fs : FS) (sc : jstring) (cssFiles : list jstring)
    : list Discovery :=
  flat_map (fun f =>
              match readFileSync fs f with
              | Some content => fileDiscoveries content f sc
              | None => []
              end) cssFiles.

Definition occurrences_of (v : jstring) (ds : list Discovery) : list Discovery :=
  filter (fun d => jeqb (d_value d) v) ds.

(** What a sequence of discoveries says about one literal: the category of
    its first discovery and the places of all of them, in order. *)
Definition summary (v : jstring) (ds : list Discovery) : option ExtractedValue :=
  match occurrences_of v ds with
  | [] => None
  | d :: occ => Some (mkExtractedValue v (d_type d) (map d_location (d :: occ)))
  end.

(** Two summaries, the second of later discoveries. *)
Definition merge_summaries (a b : option ExtractedValue) : option ExtractedValue :=
  match a, b with
  | Some x, Some y =>
      Some (mkExtractedValue (value x) (type x) (locations x ++ locations y))
  | Some x, None => Some x
  | None, _ => b
  end.

(** The number of values of category [ty] among the first [i] selected. *)
Definition earlier_of_type (ty : vtype) (repeated : Map ExtractedValue) (i : nat)
    : nat :=
  length (filter (fun e => vtype_eqb (type (snd e)) ty) (firstn i repeated)).

Definition counter (cs : Counters) (ty : vtype) : nat :=
  match ty with
  | color => cnt_color cs
  | spacing => cnt_spacing cs
  | font => cnt_font cs
  end.

(** What a run reports, if it gets as far as reporting. *)
Definition report_of (o : Outcome) : option Report :=
  match o with
  | JsonResults _ r | DryRun r | Done r _ _ => Some r
  | _ => None
  end.

(** The number of replacements a run computes. *)
Definition replacements_of (o : Outcome) : option nat :=
  match o with
  | Done _ _ n => Some n
  | _ => None
  end.

(** The variable a run reports for a literal. *)
Definition variable_of (o : Outcome) (v : jstring) : option jstring :=
  match report_of o with
  | Some r =>
      match find (fun e => jeqb (ex_value e) v) (rp_extractions r) with
      | Some e => ex_variable e
      | None => None
      end
  | None => None
  end.

(** What the escaping step produces: a backslash before every syntax
    character, every other character as it is. *)
Definition escaped_char (c : ascii) : jstring :=
  if is_syntax_char c then ["\"%char; c] else [c].

(** The shape of [match[1]] of SPACING: digits, then possibly a dot and
    digits. *)
Fixpoint is_decimal_tail (s : jstring) : bool :=
  match s with
  | [] => true
  | c :: s' =>
      if is_digit c then is_decimal_tail s'
      else Ascii.eqb c "."%char && negb (length s' =? 0) && forallb is_digit s'
  end.

Definition is_decimal (s : jstring) : bool :=
  head_is is_digit s && is_decimal_tail s.

(** A value that reads as a decimal of magnitude zero followed by a unit. *)
Definition zero_length (v : jstring) : Prop :=
  exists num unit,
    v = num ++ unit /\ is_decimal num = true /\ In unit units /\ mantissa num = 0%Z.

(** Replacing the occurrences of a literal [v] by a fixed text [w], found
    from left to right without overlap; [skip] characters are still part
    of the occurrence replaced last. *)
Fixpoint replace_lit (v w : jstring) (skip : nat) (s : jstring) : jstring :=
  match skip with
  | S n =>
      match s with
      | _ :: s' => replace_lit v w n s'
      | [] => []
      end
  | 0 =>
      if startsWith s v then
        w ++ match s with
             | c :: s' =>
                 (match length v with 0 => [c] | S _ => [] end) ++
                 replace_lit v w (pred (length v)) s'
             | [] => []
             end
      else
        match s with
        | c :: s' => c :: replace_lit v w 0 s'
        | [] => []
        end
  end.

(** The wrapper [var(name)]. *)
Definition wrapper (varName : jstring) : jstring :=
  str "var(" ++ varName ++ str ")".

(* ===================================================================== *)
(** ** Sample inputs *)
(* ===================================================================== *)

(** A text given line by line. *)
Definition text (l : list string) : jstring := join [LF] (map str l).

(** The options [parseArgs] starts from. *)
Definition default_options : CliOptions :=
  mkCliOptions false (Num 2) (str "all") (str "cv") false false.

Definition with_dryRun (b : bool) (o : CliOptions) : CliOptions :=
  mkCliOptions b (min o) (scope o) (prefix o) (json o) (help o).

Definition with_prefix (p : jstring) (o : CliOptions) : CliOptions :=
  mkCliOptions (dryRun o) (min o) (scope o) p (json o) (help o).

Definition theme_css : jstring :=
  text [ ".card {";
         "  color: #ffffff;";
         "  background: #1a2b3c;";
         "  margin: 16px;";
         "}";
         ".button {";
         "  color: #ffffff;";
         "  border-color: #1a2b3c;";
         "  padding: 16px;";
         "  margin: 16px;";
         "  font-family: Arial, sans-serif;";
         "}" ]%string.

Definition theme_values : Map ExtractedValue :=
  extractValues theme_css (str "theme.css") (str "all").

Definition accent_css : jstring :=
  text [ "a {";
         "  --accent: #ff0000;";
         "  color: #ff0000;";
         "  background: #ff0000;";
         "}" ]%string.

Definition accent_fs : FS := [(str "accent.css", accent_css)].

Definition theme_fs : FS := [(str "theme.css", theme_css)].

(** Two files in which the literal [red] is first a font family and then a
    colour. *)
Definition mixed_fs : FS :=
  [ (str "a.css", text [ "h1 {"; "  font-family: red;"; "}" ]%string);
    (str "b.css", text [ "p {"; "  color: red;"; "  border-color: red;"; "}" ]%string) ].

Definition mixed_values : Map ExtractedValue :=
  match aggregate mixed_fs (str "all") [str "a.css"; str "b.css"] [] with
  | inr allValues => allValues
  | inl _ => []
  end.

Definition theme_all : Map ExtractedValue :=
  match aggregate theme_fs (str "all") [str "theme.css"] [] with
  | inr allValues => allValues
  | inl _ => []
  end.

Definition brand_css : jstring :=
  text [ "a { color: #336699; }";
         "b { color: #336699; }" ]%string.

Definition brand_fs : FS := [(str "brand.css", brand_css)].

(** The options of a run started with [--prefix '$&']. *)
Definition dollar_options : CliOptions := with_prefix (str "$&") default_options.

Definition case_css : jstring :=
  text [ "a { color: #ff0000; }";
         "b { color: #ff0000; }";
         "c { color: #FF0000; }" ]%string.

Definition case_fs : FS := [(str "case.css", case_css)].

Definition case_all : Map ExtractedValue :=
  match aggregate case_fs (str "all") [str "case.css"] [] with
  | inr allValues => allValues
  | inl _ => []
  end.

Definition case_names : Names :=
  generateNames (str "cv") (selectRepeated (Num 2) case_all).

Definition case_rewrite : Rewrite :=
  match replaceValues (varMap case_names) (mkRewrite case_css 0 false) with
  | Some rw => rw
  | None => mkRewrite case_css 0 false
  end.

(** [case_css] after the run with the default options. *)
Definition case_written : jstring :=
  text [ ":root {";
         "  /* Colors */";
         "  --cv-color-1: #ff0000;";
         "}";
         "";
         "a { color: var(--cv-color-1); }";
         "b { color: var(--cv-color-1); }";
         "c { color: #FF0000; }" ]%string.

(** [brand_css] after the run with the prefix [$&]. *)
Definition brand_written : jstring :=
  text [ ":root {";
         "  /* Colors */";
         "  --$&-color-1: #336699;";
         "}";
         "";
         "a { color: var(--#336699-color-1); }";
         "b { color: var(--#336699-color-1); }" ]%string.
From Stdlib Require DecimalNat DecimalFacts.


(* ===================================================================== *)
(** ** The command line: [parseArgs] *)
(* ===================================================================== *)

(** [parseInt(s, 10)]: white space is skipped, a sign is read, and the
    digits up to the first other character give the value; without a
    digit the result is [NaN].  [Num z] stands for the number nearest to
    the integer [z]: the result is only ever compared with the length of
    an array, and for that comparison the two give the same answer. *)
Fixpoint leading_digits (s : jstring) : jstring :=
  match s with
  | c :: s' => if is_digit c then c :: leading_digits s' else []
  | [] => []
  end.

Definition parseInt (s : jstring) : jsnum :=
  let t := trimStart s in
  let (negative, body) :=
    match t with
    | c :: t' =>
        if Ascii.eqb c "-"%char then (true, t')
        else if Ascii.eqb c "+"%char then (false, t')
        else (false, t)
    | [] => (false, t)
    end in
  match leading_digits body with
  | [] => NaN
  | ds => Num (if negative then - digits_value 0 ds else digits_value 0 ds)%Z
  end.

(** [x || d] for an element of [argv] that may be missing. *)
Definition or_default (x : option jstring) (d : jstring) : jstring :=
  match x with
  | Some (c :: s) => c :: s
  | _ => d
  end.

(** The record [opts] of [parseArgs]: the paths and the other fields. *)
Record ParsedArgs := mkParsedArgs {
  paths : list jstring;
  options : CliOptions
}.

Definition set_help (o : CliOptions) : CliOptions :=
  mkCliOptions (dryRun o) (min o) (scope o) (prefix o) (json o) true.

Definition set_dryRun (o : CliOptions) : CliOptions :=
  mkCliOptions true (min o) (scope o) (prefix o) (json o) (help o).

Definition set_json (o : CliOptions) : CliOptions :=
  mkCliOptions (dryRun o) (min o) (scope o) (prefix o) true (help o).

Definition set_min (n : jsnum) (o : CliOptions) : CliOptions :=
  mkCliOptions (dryRun o) n (scope o) (prefix o) (json o) (help o).

Definition set_scope (s : jstring) (o : CliOptions) : CliOptions :=
  mkCliOptions (dryRun o) (min o) s (prefix o) (json o) (help o).

Definition set_prefix (p : jstring) (o : CliOptions) : CliOptions :=
  mkCliOptions (dryRun o) (min o) (scope o) p (json o) (help o).

(** The [while] loop over [argv]: an option that takes a value reads the
    next element, whatever it is, and steps over it. *)
Fixpoint parseLoop (argv : list jstring) (acc : ParsedArgs) : ParsedArgs :=
  match argv with
  | [] => acc
  | arg :: rest =>
      if jeqb arg (str "--help") || jeqb arg (str "-h") then
        parseLoop rest (mkParsedArgs (paths acc) (set_help (options acc)))
      else if jeqb arg (str "--dry-run") then
        parseLoop rest (mkParsedArgs (paths acc) (set_dryRun (options acc)))
      else if jeqb arg (str "--json") then
        parseLoop rest (mkParsedArgs (paths acc) (set_json (options acc)))
      else if jeqb arg (str "--min") then
        let acc' := mkParsedArgs (paths acc)
                      (set_min (parseInt (or_default (hd_error rest) (str "2")))
                               (options acc)) in
        match rest with
        | _ :: rest' => parseLoop rest' acc'
        | [] => acc'
        end
      else if jeqb arg (str "--scope") then
        let acc' := mkParsedArgs (paths acc)
                      (set_scope (or_default (hd_error rest) (str "all"))
                                 (options acc)) in
        match rest with
        | _ :: rest' => parseLoop rest' acc'
        | [] => acc'
        end
      else if jeqb arg (str "--prefix") then
        let acc' := mkParsedArgs (paths acc)
                      (set_prefix (or_default (hd_error rest) (str "cv"))
                                  (options acc)) in
        match rest with
        | _ :: rest' => parseLoop rest' acc'
        | [] => acc'
        end
      else if startsWith arg (str "-") then parseLoop rest acc
      else parseLoop rest (mkParsedArgs (paths acc ++ [arg]) (options acc))
  end.

Definition parseArgs (argv : list jstring) : ParsedArgs :=
  let parsed := parseLoop argv (mkParsedArgs [] default_options) in
  match paths parsed with
  | [] => mkParsedArgs [str "."] (options parsed)
  | _ :: _ => parsed
  end.

(* ===================================================================== *)
(** ** File discovery: [findCssFiles]

    What [statSync] and [readdirSync] show of a path: a regular file,
    something that is neither a file nor a directory, or a directory with
    its entries in the order they are listed.  (A link is what it points
    to; a directory that contains itself through a link is not
    represented.)  [path.join] is a parameter. *)
(* ===================================================================== *)

#[warnings="-register-all"]
Inductive Node : Type :=
| FileNode
| OtherNode
| DirNode (entries : list (jstring * Node)).

Definition endsWith (s suffix : jstring) : bool :=
  startsWith (rev s) (rev suffix).

(** The test that makes the loop over the entries [continue]. *)
Definition ignored (entry : jstring) : bool :=
  jeqb entry (str "node_modules") || startsWith entry (str ".").

Section FileDiscovery.

Variable join : jstring -> jstring -> jstring.

Fixpoint findCssFiles (dir : jstring) (node : Node) : list jstring :=
  match node with
  | FileNode => if endsWith dir (str ".css") then [dir] else []
  | OtherNode => []
  | DirNode entries =>
      (fix visit (es : list (jstring * Node)) : list jstring :=
         match es with
         | [] => []
         | (entry, child) :: es' =>
             if ignored entry then visit es'
             else
               match child with
               | DirNode _ => findCssFiles (join dir entry) child ++ visit es'
               | _ =>
                   if endsWith entry (str ".css")
                   then join dir entry :: visit es'
                   else visit es'
               end
         end) entries
  end.

End FileDiscovery.

(** [names] lead from a node down to [target], one entry after the other. *)
Inductive leads_to : Node -> list jstring -> Node -> Prop :=
| leads_here node : leads_to node [] node
| leads_down entries name child names target :
    In (name, child) entries ->
    leads_to child names target ->
    leads_to (DirNode entries) (name :: names) target.

Definition is_directory (node : Node) : bool :=
  match node with
  | DirNode _ => true
  | _ => false
  end.

(** What a found path is: the names that lead to it, joined to the
    starting path one after the other. *)
Definition found (join : jstring -> jstring -> jstring) (dir : jstring)
    (node : Node) (p : jstring) : Prop :=
  exists names target,
    leads_to node names target /\ is_directory target = false /\
    Forall (fun name => ignored name = false) names /\
    p = fold_left join names dir /\
    match rev names with
    | [] => target = FileNode /\ endsWith dir (str ".css") = true
    | name :: _ => endsWith name (str ".css") = true
    end.


(* ===================================================================== *)
(** ** Further sample inputs *)
(* ===================================================================== *)

(** Two files, the second without a repeated value. *)
Definition pair_fs : FS :=
  [ (str "a.css", text [ "a { color: #ff0000; }"; "b { color: #ff0000; }" ]%string);
    (str "b.css", text [ "p { margin: 0; }" ]%string) ].

Definition pair_files : list jstring := [str "a.css"; str "b.css"].

Definition pair_report : Report :=
  match report_of (snd (main default_options pair_files pair_fs)) with
  | Some r => r
  | None => mkReport 0 [] []
  end.

(** Two colours, each used twice. *)
Definition palette_css : jstring :=
  text [ "a { color: #112233; }";
         "b { color: #445566; }";
         "c { color: #112233; }";
         "d { color: #445566; }" ]%string.

Definition palette_selected : Map ExtractedValue :=
  selectRepeated (Num 2) (extractValues palette_css (str "palette.css") (str "colors")).

(* ===================================================================== *)
(** ** Further notions used in the statements *)
(* ===================================================================== *)

(** The categories a scope lets through. *)
Definition scope_allows (sc : jstring) (ty : vtype) : Prop :=
  match ty with
  | color => sc = str "colors" \/ sc = str "all"
  | spacing => sc = str "spacing" \/ sc = str "all"
  | font => sc = str "all"
  end.

(** The code units, in order. *)
Definition all_chars : list ascii := map ascii_of_nat (seq 0 256).

(** Every character the pattern [r] can consume satisfies [P]. *)
Fixpoint consumes_only (P : ascii -> Prop) (r : regex) : Prop :=
  match r with
  | Eps | Bol | WordB | NotAfterWord => True
  | Chr c => P c
  | ChrI c => forall x, canon_char x = canon_char c -> P x
  | Cls p | Rep _ _ p => forall x, p x = true -> P x
  | Seq r1 r2 | Alt r1 r2 => consumes_only P r1 /\ consumes_only P r2
  | Opt r1 | Grp _ r1 => consumes_only P r1
  end.

(** A text that neither starts nor ends with white space. *)
Definition trimmed (s : jstring) : Prop :=
  head_is is_space s = false /\ head_is is_space (rev s) = false.

(** The number of occurrences of a literal [v] that [replace_lit] replaces:
    found from left to right without overlap. *)
Fixpoint count_lit (v : jstring) (skip : nat) (s : jstring) : nat :=
  match skip with
  | S n =>
      match s with
      | _ :: s' => count_lit v n s'
      | [] => 0
      end
  | 0 =>
      if startsWith s v then
        S match s with
          | _ :: s' => count_lit v (pred (length v)) s'
          | [] => 0
          end
      else
        match s with
        | _ :: s' => count_lit v 0 s'
        | [] => 0
        end
  end.

(** The two maps of the namer agree: the value a name stands for is named
    by it, and every name given to a value stands for some value. *)
Definition names_agree (nm : Names) : Prop :=
  (forall n v, map_get (rootVars nm) n = Some v -> map_get (varMap nm) v = Some n) /\
  (forall v n, map_get (varMap nm) v = Some n ->
     exists v', map_get (rootVars nm) n = Some v').

(** The literals the namer calls white or black. *)
Definition white_or_black : list jstring :=
  [str "#fff"; str "#ffffff"; str "#000"; str "#000000"].

(** The group of the block a variable is listed in: the first of the three
    texts [-{prefix}-color], [-{prefix}-spacing] and [-{prefix}-font] its
    name includes. *)
Definition in_colors (pre : jstring) (e : jstring * jstring) : bool :=
  includes (fst e) (str "-" ++ pre ++ str "-color").

Definition in_spacing (pre : jstring) (e : jstring * jstring) : bool :=
  negb (in_colors pre e) && includes (fst e) (str "-" ++ pre ++ str "-spacing").

Definition in_fonts (pre : jstring) (e : jstring * jstring) : bool :=
  negb (in_colors pre e) &&
  negb (includes (fst e) (str "-" ++ pre ++ str "-spacing")) &&
  includes (fst e) (str "-" ++ pre ++ str "-font").

(** What the namer does to one character of a length: letters and digits
    stay, every other character becomes a hyphen. *)
Definition hyphenate (c : ascii) : ascii :=
  if is_alnum c then c else "-"%char.

(** Reading a length back from its hyphenated form: a hyphen at the end
    was a percent sign, every other hyphen was a dot. *)
Fixpoint unhyphenate (s : jstring) : jstring :=
  match s with
  | [] => []
  | [c] => [if Ascii.eqb c "-"%char then "%"%char else c]
  | c :: s' => (if Ascii.eqb c "-"%char then "."%char else c) :: unhyphenate s'
  end.

(** The longest prefix of characters of a class. *)
Fixpoint run_of (p : ascii -> bool) (s : jstring) : jstring :=
  match s with
  | c :: s' => if p c then c :: run_of p s' else []
  | [] => []
  end.

(** Every run of white space replaced by [w]; [in_run] says that the
    character before was white space. *)
Fixpoint collapse (w : jstring) (in_run : bool) (s : jstring) : jstring :=
  match s with
  | [] => []
  | c :: s' =>
      if is_space c then (if in_run then [] else w) ++ collapse w true s'
      else c :: collapse w false s'
  end.

(** The only white space of a text is the space character, never twice in
    a row; [after_space] says that the text follows a space. *)
Fixpoint single_spaced (after_space : bool) (s : jstring) : bool :=
  match s with
  | [] => true
  | c :: s' =>
      if is_space c
      then Ascii.eqb c " "%char && negb after_space && single_spaced true s'
      else single_spaced false s'
  end.

(** The two quote characters the namer removes from a font value. *)
Definition is_quote (c : ascii) : bool := (code c =? 34) || (code c =? 39).

(** The part of a font value its name is made from: the first family of
    the list, without quotes and surrounding white space, in lower case. *)
Definition first_family (val : jstring) : jstring :=
  toLowerCase (trim (first_segment (filter (fun c => negb (is_quote c)) val))).
(* ===================================================================== *)
(** * Properties *)
(* ===================================================================== *)

(** ** Strings *)

Lemma jeqb_true (a b : jstring) : jeqb a b = true <-> a = b.
Proof.
  unfold jeqb. destruct (list_eq_dec ascii_dec a b); split; congruence.
Qed.

Lemma jeqb_false (a b : jstring) : jeqb a b = false <-> a <> b.
Proof.
  unfold jeqb. destruct (list_eq_dec ascii_dec a b); split; congruence.
Qed.

Lemma jeqb_refl (a : jstring) : jeqb a a = true.
Proof. now apply jeqb_true. Qed.

Lemma startsWith_app (s p : jstring) :
  startsWith s p = true <-> exists t, s = p ++ t.
Proof.
  revert s. induction p as [|x p IH]; intros s; simpl.
  - split; [intros _; now exists s | reflexivity].
  - destruct s as [|y s].
    + split; [discriminate | intros [t Ht]; discriminate].
    + rewrite andb_true_iff, Ascii.eqb_eq, IH. split.
      * intros [-> [t ->]]. now exists t.
      * intros [t Ht]. injection Ht as -> ->. split; [reflexivity | now exists t].
Qed.

Lemma startsWith_skipn (s p : jstring) :
  startsWith s p = true -> s = p ++ skipn (length p) s.
Proof.
  intros H. apply startsWith_app in H as [t ->].
  now rewrite skipn_app, skipn_all, Nat.sub_diag.
Qed.

Lemma includes_app (s p : jstring) :
  includes s p = true <-> exists a b, s = a ++ p ++ b.
Proof.
  induction s as [|c s IH]; simpl.
  - rewrite orb_false_r, startsWith_app. split.
    + intros [t Ht]. now exists [], t.
    + intros [a [b H]]. destruct a; simpl in H; [now exists b | discriminate].
  - rewrite orb_true_iff, startsWith_app, IH. split.
    + intros [[t Ht] | [a [b Hab]]].
      * now exists [], t.
      * exists (c :: a), b. now rewrite Hab.
    + intros [a [b H]]. destruct a as [|x a]; simpl in H.
      * left. now exists b.
      * right. injection H as _ ->. now exists a, b.
Qed.

(** ** The matcher: a declarative reading of the patterns *)

Lemma mstate_eta (st : mstate) :
  MState (ms_before st) (ms_rest st) (ms_caps st) = st.
Proof. now destruct st. Qed.

Lemma rep_sound p k res :
  forall rest lo hi bef caps,
    rep p lo hi bef rest caps k = Some res ->
    exists t rest',
      rest = t ++ rest' /\ forallb p t = true /\ lo <= length t /\
      (forall h, hi = Some h -> length t <= h) /\
      k (MState (rev t ++ bef) rest' caps) = Some res.
Proof.
  induction rest as [|c rest IH]; intros lo hi bef caps H; simpl in H.
  - destruct lo; [|discriminate].
    exists [], []. repeat split; auto. intros h _. simpl. lia.
  - assert (Hstop :
      match lo with 0 => k (MState bef (c :: rest) caps) | S _ => None end
        = Some res ->
      exists t rest',
        c :: rest = t ++ rest' /\ forallb p t = true /\ lo <= length t /\
        (forall h, hi = Some h -> length t <= h) /\
        k (MState (rev t ++ bef) rest' caps) = Some res).
    { intros Hs. destruct lo; [|discriminate].
      exists [], (c :: rest). repeat split; auto. intros h _. simpl. lia. }
    destruct (p c && hi_allows hi) eqn:Hpc; [|auto].
    destruct (rep p (pred lo) (option_map pred hi) (c :: bef) rest caps k)
      as [r|] eqn:Hr; [|auto].
    injection H as ->.
    apply IH in Hr as (t & rest' & -> & Hall & Hlo & Hhi & Hk).
    apply andb_true_iff in Hpc as [Hp Hal].
    exists (c :: t), rest'. simpl. rewrite Hp, Hall. repeat split; auto.
    + lia.
    + intros h ->. destruct h; [discriminate|].
      specialize (Hhi h eq_refl). lia.
    + now rewrite <- app_assoc.
Qed.

Lemma rep_complete p k :
  forall t rest' lo hi bef caps res,
    forallb p t = true -> lo <= length t ->
    (forall h, hi = Some h -> length t <= h) ->
    k (MState (rev t ++ bef) rest' caps) = Some res ->
    exists res', rep p lo hi bef (t ++ rest') caps k = Some res'.
Proof.
  induction t as [|c t IH]; intros rest' lo hi bef caps res Hall Hlo Hhi Hk.
  - simpl in *. assert (lo = 0) as -> by lia.
    destruct rest' as [|c rest']; simpl.
    + eauto.
    + destruct (p c && hi_allows hi); [|eauto].
      destruct (rep p 0 (option_map pred hi) (c :: bef) rest' caps k); eauto.
  - simpl in Hall. apply andb_true_iff in Hall as [Hp Hall].
    simpl. rewrite Hp. simpl.
    assert (Hal : hi_allows hi = true).
    { destruct hi as [[|h]|]; auto. specialize (Hhi 0 eq_refl). simpl in Hhi. lia. }
    rewrite Hal.
    destruct (IH rest' (pred lo) (option_map pred hi) (c :: bef) caps res)
      as [res' Hres']; auto.
    + simpl in Hlo. lia.
    + intros h Hh. destruct hi as [h0|]; [|discriminate].
      injection Hh as <-. specialize (Hhi h0 eq_refl). simpl in Hhi. lia.
    + simpl in Hk. now rewrite <- app_assoc in Hk.
    + rewrite Hres'. eauto.
Qed.

Lemma matcher_sound (r : regex) :
  forall st k res,
    matcher r st k = Some res -> exists st', Matches r st st' /\ k st' = Some res.
Proof.
  induction r; intros st k res H; simpl in H.
  - exists st. split; [constructor | assumption].
  - unfold step in H. destruct (ms_rest st) as [|x rest'] eqn:Hr; [discriminate|].
    destruct (Ascii.eqb c x) eqn:Hc; [|discriminate].
    apply Ascii.eqb_eq in Hc as <-.
    eexists. split; [apply M_Chr; eassumption | assumption].
  - unfold step in H. destruct (ms_rest st) as [|x rest'] eqn:Hr; [discriminate|].
    destruct (Ascii.eqb (canon_char x) (canon_char c)) eqn:Hc; [|discriminate].
    apply Ascii.eqb_eq in Hc.
    eexists. split; [apply M_ChrI; eassumption | assumption].
  - unfold step in H. destruct (ms_rest st) as [|x rest'] eqn:Hr; [discriminate|].
    destruct (p x) eqn:Hc; [|discriminate].
    eexists. split; [apply M_Cls; eassumption | assumption].
  - apply IHr1 in H as (st1 & H1 & H).
    apply IHr2 in H as (st2 & H2 & H).
    exists st2. split; [econstructor; eassumption | assumption].
  - destruct (matcher r1 st k) as [x|] eqn:H1.
    + injection H as ->. apply IHr1 in H1 as (st' & H1 & Hk).
      exists st'. split; [now apply M_Alt_l | assumption].
    + apply IHr2 in H as (st' & H2 & Hk).
      exists st'. split; [now apply M_Alt_r | assumption].
  - apply rep_sound in H as (t & rest' & Hr & Hall & Hlo & Hhi & Hk).
    eexists. split; [apply M_Rep; eassumption | assumption].
  - destruct (matcher r st k) as [x|] eqn:H1.
    + injection H as ->. apply IHr in H1 as (st' & H1 & Hk).
      exists st'. split; [now apply M_Opt_some | assumption].
    + exists st. split; [apply M_Opt_none | assumption].
  - apply IHr in H as (st' & H1 & Hk).
    eexists. split; [apply M_Grp; eassumption | assumption].
  - destruct (ms_before st) eqn:Hb; [|discriminate].
    exists st. split; [now apply M_Bol | assumption].
  - destruct (xorb _ _) eqn:Hx; [|discriminate].
    exists st. split; [now apply M_WordB | assumption].
  - destruct (head_is is_word (ms_before st)) eqn:Hx; [discriminate|].
    exists st. split; [now apply M_NotAfterWord | assumption].
Qed.

Lemma matcher_complete (r : regex) (st st' : mstate) :
  Matches r st st' ->
  forall k res, k st' = Some res -> exists res', matcher r st k = Some res'.
Proof.
  induction 1; intros k res Hk; simpl.
  - eauto.
  - unfold step. rewrite Hrest, Ascii.eqb_refl. eauto.
  - unfold step. rewrite Hrest, Hcanon, Ascii.eqb_refl. eauto.
  - unfold step. rewrite Hrest, Hp. eauto.
  - destruct (IHMatches2 _ _ Hk) as [res' Hres'].
    eapply IHMatches1; eassumption.
  - destruct (IHMatches _ _ Hk) as [res' ->]. eauto.
  - destruct (matcher r1 st k); [eauto|]. eapply IHMatches; eassumption.
  - rewrite Hrest. eapply rep_complete; eassumption.
  - destruct (IHMatches _ _ Hk) as [res' ->]. eauto.
  - destruct (matcher r st k); eauto.
  - eapply IHMatches. simpl. eassumption.
  - rewrite Hbol. eauto.
  - rewrite Hb. eauto.
  - rewrite Hb. eauto.
Qed.

Lemma Matches_rest (r : regex) (st st' : mstate) :
  Matches r st st' ->
  exists t, ms_rest st = t ++ ms_rest st' /\ ms_before st' = rev t ++ ms_before st.
Proof.
  induction 1; simpl.
  - now exists [].
  - exists [c]. now rewrite Hrest.
  - exists [x]. now rewrite Hrest.
  - exists [x]. now rewrite Hrest.
  - destruct IHMatches1 as (t1 & Hr1 & Hb1), IHMatches2 as (t2 & Hr2 & Hb2).
    exists (t1 ++ t2). rewrite Hr1, Hr2, Hb2, Hb1, rev_app_distr.
    now rewrite !app_assoc.
  - assumption.
  - assumption.
  - now exists t.
  - assumption.
  - now exists [].
  - assumption.
  - now exists [].
  - now exists [].
  - now exists [].
Qed.

Lemma consumed_app (t : jstring) (st st' : mstate) :
  ms_rest st = t ++ ms_rest st' -> consumed st st' = t.
Proof.
  intros H. unfold consumed. rewrite H, length_app.
  replace (length t + length (ms_rest st') - length (ms_rest st'))
    with (length t) by lia.
  now rewrite firstn_app, firstn_all, Nat.sub_diag, app_nil_r.
Qed.

Lemma exec_at_sound (r : regex) (bef s : jstring) (mr : rmatch) :
  exec_at r bef s = Some mr ->
  exists st', Matches r (MState bef s []) st' /\
              mr = RMatch (consumed (MState bef s []) st') (ms_caps st').
Proof.
  unfold exec_at. intros H.
  destruct (matcher r (MState bef s []) Some) as [st'|] eqn:Hm; [|discriminate].
  injection H as <-. apply matcher_sound in Hm as (st0 & HM & Hk).
  injection Hk as ->. now exists st'.
Qed.

Lemma exec_at_complete (r : regex) (bef s : jstring) (st' : mstate) :
  Matches r (MState bef s []) st' -> exists mr, exec_at r bef s = Some mr.
Proof.
  intros HM. unfold exec_at.
  destruct (matcher_complete r _ _ HM Some st' eq_refl) as [res' ->]. eauto.
Qed.

(** The text of a match is a prefix of the text at its position. *)
Lemma exec_at_prefix (r : regex) (bef s : jstring) (mr : rmatch) :
  exec_at r bef s = Some mr -> exists post, s = m_text mr ++ post.
Proof.
  intros H. apply exec_at_sound in H as (st' & HM & ->).
  apply Matches_rest in HM as (t & Hr & _). simpl in *.
  exists (ms_rest st'). now rewrite (consumed_app t).
Qed.

Lemma scan_sound (r : regex) (mr : rmatch) :
  forall s skip bef,
    In mr (scan r skip bef s) ->
    exists s1 s2, s = s1 ++ s2 /\ skip <= length s1 /\
                  exec_at r (rev s1 ++ bef) s2 = Some mr.
Proof.
  assert (Hcons : forall c s' n bef,
    (exists s1 s2, s' = s1 ++ s2 /\ n <= length s1 /\
                   exec_at r (rev s1 ++ c :: bef) s2 = Some mr) ->
    exists s1 s2, c :: s' = s1 ++ s2 /\ S n <= length s1 /\
                  exec_at r (rev s1 ++ bef) s2 = Some mr).
  { intros c s' n bef (s1 & s2 & -> & Hn & He).
    exists (c :: s1), s2. simpl. rewrite <- app_assoc. repeat split; auto. lia. }
  induction s as [|c s IH]; intros skip bef H.
  - destruct skip; simpl in H; [|contradiction].
    destruct (exec_at r bef []) eqn:He; simpl in H; [|contradiction].
    destruct H as [->|[]]. exists [], []. auto.
  - destruct skip; simpl in H.
    + destruct (exec_at r bef (c :: s)) as [mr0|] eqn:He.
      * destruct H as [->|H].
        -- exists [], (c :: s). simpl. auto.
        -- apply IH in H. destruct (Hcons c s _ bef H) as (s1 & s2 & ? & ? & ?).
           exists s1, s2. repeat split; auto. lia.
      * apply IH in H. destruct (Hcons c s _ bef H) as (s1 & s2 & ? & ? & ?).
        exists s1, s2. repeat split; auto. lia.
    + apply IH in H. now apply Hcons.
Qed.

(** Every match of a [g] regex is a piece of the text. *)
Lemma matchAll_substring (r : regex) (s : jstring) (mr : rmatch) :
  In mr (matchAll r s) -> exists a b, s = a ++ m_text mr ++ b.
Proof.
  intros H. apply scan_sound in H as (s1 & s2 & -> & _ & He).
  apply exec_at_prefix in He as [post ->]. now exists s1, post.
Qed.

(** *** Literal patterns *)

Lemma matcher_lit (v : jstring) :
  forall st k,
    matcher (lit v) st k =
    if startsWith (ms_rest st) v
    then k (MState (rev v ++ ms_before st) (skipn (length v) (ms_rest st)) (ms_caps st))
    else None.
Proof.
  induction v as [|c v IH]; intros st k; simpl.
  - now rewrite mstate_eta.
  - unfold step. destruct (ms_rest st) as [|x rest'] eqn:Hr; [reflexivity|].
    destruct (Ascii.eqb c x) eqn:Hc; simpl; [|reflexivity].
    apply Ascii.eqb_eq in Hc as <-.
    rewrite IH. simpl. destruct (startsWith rest' v); [|reflexivity].
    now rewrite <- app_assoc.
Qed.

Lemma exec_at_lit (v bef s : jstring) :
  exec_at (lit v) bef s = if startsWith s v then Some (RMatch v []) else None.
Proof.
  unfold exec_at. rewrite matcher_lit. simpl.
  destruct (startsWith s v) eqn:Hs; [|reflexivity].
  f_equal. f_equal. apply consumed_app. simpl. now apply startsWith_skipn.
Qed.

Lemma search_lit (v : jstring) :
  forall s bef,
    search (lit v) bef s = if includes s v then Some (RMatch v []) else None.
Proof.
  induction s as [|c s IH]; intros bef; simpl; rewrite exec_at_lit.
  - now destruct (startsWith [] v).
  - destruct (startsWith (c :: s) v); [reflexivity|]. simpl. apply IH.
Qed.

Lemma test_lit (v s : jstring) : test (lit v) s = includes s v.
Proof.
  unfold test. rewrite search_lit. now destruct (includes s v).
Qed.

(** ** Insertion-ordered maps *)

Lemma map_get_set_eq {V : Type} (mp : Map V) (k : jstring) (v : V) :
  map_get (map_set mp k v) k = Some v.
Proof.
  induction mp as [|[k0 w] mp IH]; simpl.
  - now rewrite jeqb_refl.
  - destruct (jeqb k0 k) eqn:E; simpl; rewrite E; auto.
Qed.

Lemma map_get_set_ne {V : Type} (mp : Map V) (k k' : jstring) (v : V) :
  k <> k' -> map_get (map_set mp k v) k' = map_get mp k'.
Proof.
  intros Hne. induction mp as [|[k0 w] mp IH]; simpl.
  - apply jeqb_false in Hne. now rewrite Hne.
  - destruct (jeqb k0 k) eqn:E; simpl.
    + apply jeqb_true in E as ->. apply jeqb_false in Hne. now rewrite Hne.
    + destruct (jeqb k0 k'); auto.
Qed.

Lemma map_get_None {V : Type} (mp : Map V) (k : jstring) :
  map_get mp k = None <-> ~ In k (keys mp).
Proof.
  induction mp as [|[k0 w] mp IH]; simpl.
  - tauto.
  - destruct (jeqb k0 k) eqn:E.
    + apply jeqb_true in E. split; [discriminate | tauto].
    + apply jeqb_false in E. rewrite IH. tauto.
Qed.

Lemma keys_map_set {V : Type} (mp : Map V) (k : jstring) (v : V) :
  keys (map_set mp k v) =
  match map_get mp k with
  | Some _ => keys mp
  | None => keys mp ++ [k]
  end.
Proof.
  induction mp as [|[k0 w] mp IH]; simpl; [reflexivity|].
  destruct (jeqb k0 k) eqn:E; simpl; [reflexivity|].
  rewrite IH. now destruct (map_get mp k).
Qed.

Lemma NoDup_map_set {V : Type} (mp : Map V) (k : jstring) (v : V) :
  NoDup (keys mp) -> NoDup (keys (map_set mp k v)).
Proof.
  intros H. rewrite keys_map_set. destruct (map_get mp k) eqn:E; [assumption|].
  apply map_get_None in E. apply NoDup_app; auto.
  - constructor; [tauto | constructor].
  - intros x Hx [<-|[]]. contradiction.
Qed.

Lemma map_get_Some_In {V : Type} (mp : Map V) (k : jstring) (v : V) :
  map_get mp k = Some v -> In (k, v) mp.
Proof.
  induction mp as [|[k0 w] mp IH]; simpl; [discriminate|].
  destruct (jeqb k0 k) eqn:E.
  - apply jeqb_true in E as ->. intros [= ->]. now left.
  - auto.
Qed.

Lemma Forall_map_set {V : Type} (P : jstring * V -> Prop) (mp : Map V)
    (k : jstring) (v : V) :
  Forall P mp -> (forall k0, P (k0, v)) -> Forall P (map_set mp k v).
Proof.
  intros H Hv. induction H as [|[k0 w] mp Hk0 H IH]; simpl.
  - constructor; [apply Hv | constructor].
  - destruct (jeqb k0 k); constructor; auto.
Qed.

(** ** Subsequences: the elements of a list in their order *)

Lemma subsequence_incl {A : Type} (l1 l2 : list A) :
  subsequence l1 l2 -> incl l1 l2.
Proof.
  induction 1; intros y Hy; simpl in *; intuition.
Qed.

Lemma subsequence_length {A : Type} (l1 l2 : list A) :
  subsequence l1 l2 -> length l1 <= length l2.
Proof.
  induction 1; simpl; lia.
Qed.

Lemma filter_subsequence {A : Type} (f g : A -> bool) (l : list A) :
  (forall x, f x = true -> g x = true) ->
  subsequence (filter f l) (filter g l).
Proof.
  intros Hfg. induction l as [|x l IH]; simpl; [constructor|].
  destruct (f x) eqn:Hf.
  - rewrite (Hfg x Hf). now constructor.
  - destruct (g x); [now constructor | assumption].
Qed.

Lemma filter_subsequence_all {A : Type} (f : A -> bool) (l : list A) :
  subsequence (filter f l) l.
Proof.
  induction l as [|x l IH]; simpl; [constructor|].
  destruct (f x); now constructor.
Qed.

(** ** The selector *)

(** C6.  For a fixed aggregated mapping and thresholds [m1 <= m2], the
    values selected at [m2] are, in the same order, among those selected
    at [m1] (so they form a subset and are no more numerous), and a
    selection lists its values in the order the aggregated mapping has
    them. *)
Theorem selector_monotone (allValues : Map ExtractedValue) (m1 m2 : Z) :
  (m1 <= m2)%Z ->
  subsequence (selectRepeated (Num m2) allValues)
              (selectRepeated (Num m1) allValues) /\
  incl (selectRepeated (Num m2) allValues) (selectRepeated (Num m1) allValues) /\
  length (selectRepeated (Num m2) allValues)
    <= length (selectRepeated (Num m1) allValues) /\
  subsequence (selectRepeated (Num m1) allValues) allValues /\
  subsequence (selectRepeated (Num m2) allValues) allValues.
Proof.
  intros Hle.
  assert (Hsub : subsequence (selectRepeated (Num m2) allValues)
                             (selectRepeated (Num m1) allValues)).
  { apply filter_subsequence. intros e. simpl. rewrite !Z.leb_le. lia. }
  repeat split.
  - exact Hsub.
  - now apply subsequence_incl.
  - now apply subsequence_length.
  - apply filter_subsequence_all.
  - apply filter_subsequence_all.
Qed.

Lemma selector_monotone_witness :
  (2 <= 3)%Z /\
  subsequence (selectRepeated (Num 3) theme_values)
              (selectRepeated (Num 2) theme_values) /\
  incl (selectRepeated (Num 3) theme_values) (selectRepeated (Num 2) theme_values) /\
  length (selectRepeated (Num 3) theme_values)
    <= length (selectRepeated (Num 2) theme_values) /\
  subsequence (selectRepeated (Num 2) theme_values) theme_values /\
  subsequence (selectRepeated (Num 3) theme_values) theme_values.
Proof.
  split; [lia | apply (selector_monotone theme_values 2 3); lia].
Defined.

(** ** The scope gate of the font rule *)

Lemma in_calls_of (ty : vtype) (prop : jstring) (vals : list jstring) (c : Call) :
  In c (calls_of ty prop vals) ->
  c_type c = ty /\ c_property c = prop /\ In (c_value c) vals.
Proof.
  unfold calls_of. rewrite in_map_iff. intros (v & <- & Hv). simpl. auto.
Qed.

Lemma in_lineCalls (sc ln : jstring) (c : Call) :
  In c (lineCalls sc ln) ->
  skipped ln = false /\ c_property c = propertyOf ln /\
  ((jeqb sc (str "colors") || jeqb sc (str "all") = true /\ c_type c = color /\
    In (c_value c)
       (hexColors ln ++ rgbColors ln ++ hslColors ln ++ namedColors ln (propertyOf ln))) \/
   (jeqb sc (str "spacing") || jeqb sc (str "all") = true /\ c_type c = spacing /\
    In (c_value c) (spacings ln (propertyOf ln))) \/
   (jeqb sc (str "all") = true /\ c_type c = font /\ In (c_value c) (fonts ln))).
Proof.
  unfold lineCalls. destruct (skipped ln); [contradiction|].
  intros H. apply in_app_or in H as [H | H]; [|apply in_app_or in H as [H | H]].
  - destruct (jeqb sc (str "colors") || jeqb sc (str "all")); [|contradiction].
    apply in_calls_of in H as (? & ? & ?).
    split; [reflexivity|]. split; [assumption|]. left. auto.
  - destruct (jeqb sc (str "spacing") || jeqb sc (str "all")); [|contradiction].
    apply in_calls_of in H as (? & ? & ?).
    split; [reflexivity|]. split; [assumption|]. right. left. auto.
  - destruct (jeqb sc (str "all")); [|contradiction].
    apply in_calls_of in H as (? & ? & ?).
    split; [reflexivity|]. split; [assumption|]. right. right. auto.
Qed.

Lemma addCall_types (P : vtype -> Prop) (fl : jstring) (ln : nat)
    (mp : Map ExtractedValue) (c : Call) :
  Forall (fun e => P (type (snd e))) mp -> P (c_type c) ->
  Forall (fun e => P (type (snd e))) (addCall fl ln mp c).
Proof.
  intros Hmp Hc. unfold addCall, addValue.
  destruct (map_get mp (c_value c)) as [existing|] eqn:Hget.
  - apply Forall_map_set; [assumption|]. intros k0. simpl.
    apply map_get_Some_In in Hget.
    rewrite Forall_forall in Hmp. exact (Hmp _ Hget).
  - apply Forall_map_set; [assumption|]. intros k0. exact Hc.
Qed.

Lemma extractLines_types (P : vtype -> Prop) (filePath sc : jstring) :
  (forall ln c, In c (lineCalls sc ln) -> P (c_type c)) ->
  forall lines mp lineNum,
    Forall (fun e => P (type (snd e))) mp ->
    Forall (fun e => P (type (snd e))) (extractLines mp lines lineNum filePath sc).
Proof.
  intros HP. induction lines as [|ln lines IH]; intros mp lineNum Hmp; simpl.
  - assumption.
  - apply IH.
    assert (Hfold : forall cs mp0,
      (forall c, In c cs -> P (c_type c)) ->
      Forall (fun e => P (type (snd e))) mp0 ->
      Forall (fun e => P (type (snd e)))
             (fold_left (addCall filePath (lineNum + 1)) cs mp0)).
    { induction cs as [|c cs IHcs]; intros mp0 Hcs Hmp0; simpl; [assumption|].
      apply IHcs; [intros; apply Hcs; now right|].
      apply addCall_types; [assumption | apply Hcs; now left]. }
    apply Hfold; [apply HP | assumption].
Qed.

(** C10.  Font families are extracted only in scope [all]: in any other
    scope, [colors] and [spacing] in particular, no line yields a font
    extraction, whatever the line holds, and so no value of a scanned file
    is of the font category. *)
Theorem font_requires_scope_all (sc : jstring) :
  sc <> str "all" ->
  (forall ln, filter (fun c => vtype_eqb (c_type c) font) (lineCalls sc ln) = []) /\
  (forall content filePath v e,
     map_get (extractValues content filePath sc) v = Some e -> type e <> font).
Proof.
  intros Hsc.
  assert (Hnot : jeqb sc (str "all") = false) by now apply jeqb_false.
  assert (Hcalls : forall ln c, In c (lineCalls sc ln) -> c_type c <> font).
  { intros ln c Hc. apply in_lineCalls in Hc as (_ & _ & [H | [H | H]]).
    - destruct H as (_ & -> & _). discriminate.
    - destruct H as (_ & -> & _). discriminate.
    - destruct H as (H & _). congruence. }
  split.
  - intros ln.
    destruct (filter (fun c => vtype_eqb (c_type c) font) (lineCalls sc ln))
      as [|c l] eqn:E; [reflexivity|].
    assert (Hin : In c (filter (fun c => vtype_eqb (c_type c) font) (lineCalls sc ln)))
      by (rewrite E; now left).
    apply filter_In in Hin as [Hin Hty]. apply Hcalls in Hin.
    destruct (c_type c); simpl in Hty; congruence.
  - intros content filePath v e Hget. apply map_get_Some_In in Hget.
    pose proof (extractLines_types (fun t => t <> font) filePath sc Hcalls
                  (split LF content) [] 0 (Forall_nil _)) as HF.
    rewrite Forall_forall in HF. exact (HF _ Hget).
Qed.

Lemma font_requires_scope_all_witness :
  str "colors" <> str "all" /\
  str "spacing" <> str "all" /\
  filter (fun c => vtype_eqb (c_type c) font)
         (lineCalls (str "colors") (str "  font-family: Helvetica, Arial;")) = [] /\
  filter (fun c => vtype_eqb (c_type c) font)
         (lineCalls (str "spacing") (str "  font-family: Helvetica, Arial;")) = [] /\
  map (fun c => (c_value c, c_type c))
      (lineCalls (str "all") (str "  font-family: Helvetica, Arial;"))
    = [(str "Helvetica, Arial", font)].
Proof.
  assert (H1 : str "colors" <> str "all") by discriminate.
  assert (H2 : str "spacing" <> str "all") by discriminate.
  split; [exact H1|]. split; [exact H2|]. split; [|split].
  - exact (proj1 (font_requires_scope_all (str "colors") H1) _).
  - exact (proj1 (font_requires_scope_all (str "spacing") H2) _).
  - vm_compute. reflexivity.
Defined.

(** ** The skip rules *)

Lemma skip_rules_no_calls (sc ln : jstring) :
  startsWith (trim ln) (str "--") = true \/
  startsWith (trim ln) (str "/*") = true \/
  startsWith (trim ln) (str "//") = true \/
  includes ln (str "var(") = true ->
  lineCalls sc ln = [].
Proof.
  intros H. unfold lineCalls.
  replace (skipped ln) with true; [reflexivity|].
  symmetry. unfold skipped, VAR_REF. rewrite test_lit.
  destruct H as [-> | [-> | [-> | ->]]];
    rewrite ?orb_true_r, ?orb_true_l; reflexivity.
Qed.

(** C3, as the code has it.  A line whose trimmed form starts with [--],
    with the opener of a block comment or with [//], or that contains
    [var(], yields no extraction at all, in every scope: the skip rules
    belong to the classifier.  (The substitution step works on the whole
    text of a file and has no notion of a line.) *)
Theorem skipped_lines_yield_nothing (sc ln : jstring) :
  startsWith (trim ln) (str "--") = true \/
  startsWith (trim ln) (str "/*") = true \/
  startsWith (trim ln) (str "//") = true \/
  includes ln (str "var(") = true ->
  lineCalls sc ln = [].
Proof.
  apply skip_rules_no_calls.
Qed.

Lemma skipped_lines_yield_nothing_witness :
  (startsWith (trim (str "  --accent: #ff0000;")) (str "--") = true \/
   startsWith (trim (str "  --accent: #ff0000;")) (str "/*") = true \/
   startsWith (trim (str "  --accent: #ff0000;")) (str "//") = true \/
   includes (str "  --accent: #ff0000;") (str "var(") = true) /\
  lineCalls (str "all") (str "  --accent: #ff0000;") = [].
Proof.
  assert (H : startsWith (trim (str "  --accent: #ff0000;")) (str "--") = true \/
              startsWith (trim (str "  --accent: #ff0000;")) (str "/*") = true \/
              startsWith (trim (str "  --accent: #ff0000;")) (str "//") = true \/
              includes (str "  --accent: #ff0000;") (str "var(") = true)
    by (left; reflexivity).
  split; [exact H | exact (skipped_lines_yield_nothing (str "all") _ H)].
Defined.

(** C3, as stated, fails: the second line of [accent_css] is a custom
    property, which the skip rules cover, and the run rewrites it. *)
Lemma rewriter_rewrites_skipped_line :
  nth_error (split LF accent_css) 1 = Some (str "  --accent: #ff0000;") /\
  startsWith (trim (str "  --accent: #ff0000;")) (str "--") = true /\
  fst (main default_options [str "accent.css"] accent_fs) =
    [(str "accent.css",
      text [ ":root {";
             "  /* Colors */";
             "  --cv-color-1: #ff0000;";
             "}";
             "";
             "a {";
             "  --accent: var(--cv-color-1);";
             "  color: var(--cv-color-1);";
             "  background: var(--cv-color-1);";
             "}" ]%string)].
Proof.
  repeat split; vm_compute; reflexivity.
Qed.

(** ** The aggregator *)

Lemma summary_app (v : jstring) (ds1 ds2 : list Discovery) :
  summary v (ds1 ++ ds2) = merge_summaries (summary v ds1) (summary v ds2).
Proof.
  unfold summary, occurrences_of. rewrite filter_app.
  destruct (filter (fun d => jeqb (d_value d) v) ds1) as [|d1 o1];
  destruct (filter (fun d => jeqb (d_value d) v) ds2) as [|d2 o2]; simpl.
  - reflexivity.
  - reflexivity.
  - now rewrite app_nil_r.
  - now rewrite map_app.
Qed.

(** [addValue] on a literal the map already holds keeps its category and
    appends the new place. *)
Lemma addValue_existing (mp : Map ExtractedValue) (v : jstring) (ty : vtype)
    (fl : jstring) (ln : nat) (prop : jstring) (existing : ExtractedValue) :
  map_get mp v = Some existing ->
  map_get (addValue mp v ty fl ln prop) v =
  Some (mkExtractedValue (value existing) (type existing)
          (locations existing ++ [mkLocation fl ln prop])).
Proof.
  intros H. unfold addValue. rewrite H. apply map_get_set_eq.
Qed.

Lemma addValue_fresh (mp : Map ExtractedValue) (v : jstring) (ty : vtype)
    (fl : jstring) (ln : nat) (prop : jstring) :
  map_get mp v = None ->
  map_get (addValue mp v ty fl ln prop) v =
  Some (mkExtractedValue v ty [mkLocation fl ln prop]).
Proof.
  intros H. unfold addValue. rewrite H. apply map_get_set_eq.
Qed.

Lemma addValue_other (mp : Map ExtractedValue) (v v' : jstring) (ty : vtype)
    (fl : jstring) (ln : nat) (prop : jstring) :
  v <> v' -> map_get (addValue mp v ty fl ln prop) v' = map_get mp v'.
Proof.
  intros H. unfold addValue.
  destruct (map_get mp v); now apply map_get_set_ne.
Qed.

Lemma addValue_NoDup (mp : Map ExtractedValue) (v : jstring) (ty : vtype)
    (fl : jstring) (ln : nat) (prop : jstring) :
  NoDup (keys mp) -> NoDup (keys (addValue mp v ty fl ln prop)).
Proof.
  intros H. unfold addValue. destruct (map_get mp v); now apply NoDup_map_set.
Qed.

(** The same for the merge of one file's values into [allValues]. *)
Lemma mergeEntry_existing (allValues : Map ExtractedValue) (key : jstring)
    (val existing : ExtractedValue) :
  map_get allValues key = Some existing ->
  map_get (mergeEntry allValues (key, val)) key =
  Some (mkExtractedValue (value existing) (type existing)
          (locations existing ++ locations val)).
Proof.
  intros H. unfold mergeEntry. rewrite H. apply map_get_set_eq.
Qed.

Lemma mergeEntry_get (allValues : Map ExtractedValue) (key v : jstring)
    (val : ExtractedValue) :
  map_get (mergeEntry allValues (key, val)) v =
  if jeqb key v then merge_summaries (map_get allValues key) (Some val)
  else map_get allValues v.
Proof.
  unfold mergeEntry. destruct (jeqb key v) eqn:E.
  - apply jeqb_true in E as <-.
    destruct (map_get allValues key); simpl; apply map_get_set_eq.
  - apply jeqb_false in E.
    destruct (map_get allValues key); now apply map_get_set_ne.
Qed.

Lemma mergeEntry_NoDup (allValues : Map ExtractedValue)
    (entry : jstring * ExtractedValue) :
  NoDup (keys allValues) -> NoDup (keys (mergeEntry allValues entry)).
Proof.
  intros H. destruct entry as [key val]. unfold mergeEntry.
  destruct (map_get allValues key); now apply NoDup_map_set.
Qed.

Lemma addCall_summary (fl : jstring) (n : nat) (mp : Map ExtractedValue)
    (ds : list Discovery) (c : Call) :
  (forall v, map_get mp v = summary v ds) ->
  forall v, map_get (addCall fl n mp c) v = summary v (ds ++ [discover fl n c]).
Proof.
  intros Hmp v. rewrite summary_app. unfold addCall.
  destruct (list_eq_dec ascii_dec (c_value c) v) as [<- | Hne].
  - replace (summary (c_value c) [discover fl n c])
      with (Some (mkExtractedValue (c_value c) (c_type c)
                    [mkLocation fl n (c_property c)])).
    2:{ unfold summary, occurrences_of. simpl. now rewrite jeqb_refl. }
    destruct (map_get mp (c_value c)) as [existing|] eqn:Hget.
    + rewrite (addValue_existing _ _ _ _ _ _ _ Hget).
      rewrite <- Hmp, Hget. reflexivity.
    + rewrite (addValue_fresh _ _ _ _ _ _ Hget).
      rewrite <- Hmp, Hget. reflexivity.
  - rewrite addValue_other by assumption.
    replace (summary v [discover fl n c]) with (@None ExtractedValue).
    2:{ unfold summary, occurrences_of. simpl.
        apply jeqb_false in Hne. now rewrite Hne. }
    rewrite Hmp. now destruct (summary v ds).
Qed.

Lemma addCalls_summary (fl : jstring) (n : nat) :
  forall (cs : list Call) (mp : Map ExtractedValue) (ds : list Discovery),
    (forall v, map_get mp v = summary v ds) ->
    forall v, map_get (fold_left (addCall fl n) cs mp) v =
              summary v (ds ++ map (discover fl n) cs).
Proof.
  induction cs as [|c cs IH]; intros mp ds Hmp v; simpl.
  - now rewrite app_nil_r.
  - rewrite (IH _ (ds ++ [discover fl n c])).
    + now rewrite <- app_assoc.
    + now apply addCall_summary.
Qed.

Lemma addCalls_NoDup (fl : jstring) (n : nat) :
  forall (cs : list Call) (mp : Map ExtractedValue),
    NoDup (keys mp) -> NoDup (keys (fold_left (addCall fl n) cs mp)).
Proof.
  induction cs as [|c cs IH]; intros mp H; simpl; [assumption|].
  apply IH. now apply addValue_NoDup.
Qed.

Lemma extractLines_summary (fl sc : jstring) :
  forall (lines : list jstring) (mp : Map ExtractedValue) (lineNum : nat)
         (ds : list Discovery),
    (forall v, map_get mp v = summary v ds) ->
    forall v, map_get (extractLines mp lines lineNum fl sc) v =
              summary v (ds ++ lineDiscoveries lines lineNum fl sc).
Proof.
  induction lines as [|ln lines IH]; intros mp lineNum ds Hmp v; simpl.
  - now rewrite app_nil_r.
  - rewrite (IH _ _ (ds ++ map (discover fl (lineNum + 1)) (lineCalls sc ln))).
    + now rewrite <- app_assoc.
    + now apply addCalls_summary.
Qed.

Lemma extractLines_NoDup (fl sc : jstring) :
  forall (lines : list jstring) (mp : Map ExtractedValue) (lineNum : nat),
    NoDup (keys mp) -> NoDup (keys (extractLines mp lines lineNum fl sc)).
Proof.
  induction lines as [|ln lines IH]; intros mp lineNum H; simpl; [assumption|].
  apply IH. now apply addCalls_NoDup.
Qed.

Lemma extractValues_summary (content fl sc v : jstring) :
  map_get (extractValues content fl sc) v = summary v (fileDiscoveries content fl sc).
Proof.
  unfold extractValues, fileDiscoveries.
  now rewrite (extractLines_summary fl sc _ [] 0 []).
Qed.

Lemma extractValues_NoDup (content fl sc : jstring) :
  NoDup (keys (extractValues content fl sc)).
Proof.
  apply extractLines_NoDup. constructor.
Qed.

Lemma merge_get :
  forall (entries allValues : Map ExtractedValue),
    NoDup (keys entries) ->
    forall v, map_get (fold_left mergeEntry entries allValues) v =
              merge_summaries (map_get allValues v) (map_get entries v).
Proof.
  induction entries as [|[k e] entries IH]; intros allValues Hnd v.
  - simpl. now destruct (map_get allValues v).
  - inversion Hnd as [|? ? Hk Hnd']; subst.
    cbn [fold_left map_get]. rewrite IH by assumption. rewrite mergeEntry_get.
    destruct (jeqb k v) eqn:E.
    + apply jeqb_true in E as <-.
      replace (map_get entries k) with (@None ExtractedValue)
        by (symmetry; now apply map_get_None).
      now destruct (merge_summaries (map_get allValues k) (Some e)).
    + reflexivity.
Qed.

Lemma merge_NoDup :
  forall (entries allValues : Map ExtractedValue),
    NoDup (keys allValues) -> NoDup (keys (fold_left mergeEntry entries allValues)).
Proof.
  induction entries as [|e entries IH]; intros allValues H; simpl; [assumption|].
  apply IH. now apply mergeEntry_NoDup.
Qed.

Lemma aggregate_summary (fs : FS) (sc : jstring) :
  forall (cssFiles : list jstring) (acc allValues : Map ExtractedValue)
         (ds : list Discovery),
    (forall v, map_get acc v = summary v ds) ->
    aggregate fs sc cssFiles acc = inr allValues ->
    forall v, map_get allValues v = summary v (ds ++ discoveries fs sc cssFiles).
Proof.
  induction cssFiles as [|f cssFiles IH]; intros acc allValues ds Hacc Hagg v;
    simpl in *.
  - injection Hagg as <-. now rewrite app_nil_r.
  - destruct (readFileSync fs f) as [content|]; [|discriminate].
    rewrite app_assoc.
    apply (IH _ _ (ds ++ fileDiscoveries content f sc)
              (fun v0 => eq_trans
                 (merge_get _ acc (extractValues_NoDup content f sc) v0)
                 (eq_sym (eq_trans (summary_app v0 ds _)
                    (f_equal2 merge_summaries (eq_sym (Hacc v0))
                       (eq_sym (extractValues_summary content f sc v0))))))
              Hagg).
Qed.

Lemma aggregate_NoDup (fs : FS) (sc : jstring) :
  forall (cssFiles : list jstring) (acc allValues : Map ExtractedValue),
    NoDup (keys acc) ->
    aggregate fs sc cssFiles acc = inr allValues -> NoDup (keys allValues).
Proof.
  induction cssFiles as [|f cssFiles IH]; intros acc allValues Hnd Hagg;
    simpl in *.
  - now injection Hagg as <-.
  - destruct (readFileSync fs f) as [content|]; [|discriminate].
    eapply IH; [|eassumption]. now apply merge_NoDup.
Qed.

Lemma StronglySorted_app {A : Type} (R : A -> A -> Prop) (l1 l2 : list A) :
  StronglySorted R l1 -> StronglySorted R l2 ->
  (forall a b, In a l1 -> In b l2 -> R a b) ->
  StronglySorted R (l1 ++ l2).
Proof.
  induction 1 as [|a l1 Hs IH Ha]; intros H2 H12; simpl; [assumption|].
  constructor.
  - apply IH; [assumption|]. intros x y Hx Hy. apply H12; [now right | assumption].
  - apply Forall_app. split; [assumption|].
    apply Forall_forall. intros y Hy. apply H12; [now left | assumption].
Qed.

Lemma StronglySorted_filter {A : Type} (R : A -> A -> Prop) (f : A -> bool)
    (l : list A) :
  StronglySorted R l -> StronglySorted R (filter f l).
Proof.
  induction 1 as [|a l Hs IH Ha]; simpl; [constructor|].
  destruct (f a); [|assumption]. constructor; [assumption|].
  rewrite Forall_forall in *. intros y Hy. apply filter_In in Hy as [Hy _]. auto.
Qed.

Lemma StronglySorted_map {A B : Type} (R : B -> B -> Prop) (g : A -> B)
    (l : list A) :
  StronglySorted (fun a b => R (g a) (g b)) l -> StronglySorted R (map g l).
Proof.
  induction 1 as [|a l Hs IH Ha]; simpl; constructor; [assumption|].
  rewrite Forall_forall in *. intros y Hy.
  apply in_map_iff in Hy as (x & <- & Hx). auto.
Qed.

Lemma lineDiscoveries_place (fl sc : jstring) (d : Discovery) :
  forall lines lineNum,
    In d (lineDiscoveries lines lineNum fl sc) ->
    lineNum < line (d_location d) /\ file (d_location d) = fl.
Proof.
  induction lines as [|ln lines IH]; intros lineNum H; simpl in H; [contradiction|].
  apply in_app_or in H as [H | H].
  - apply in_map_iff in H as (c & <- & _). simpl. split; [lia | reflexivity].
  - apply IH in H as [H1 H2]. split; [lia | assumption].
Qed.

Lemma lineDiscoveries_sorted (fl sc : jstring) :
  forall lines lineNum,
    StronglySorted (fun a b => line (d_location a) <= line (d_location b))
                   (lineDiscoveries lines lineNum fl sc).
Proof.
  induction lines as [|ln lines IH]; intros lineNum; simpl; [constructor|].
  apply StronglySorted_app.
  - induction (lineCalls sc ln) as [|c cs IHcs]; simpl; constructor; [assumption|].
    apply Forall_forall. intros y Hy. apply in_map_iff in Hy as (x & <- & _).
    simpl. lia.
  - apply IH.
  - intros a b Ha Hb. apply in_map_iff in Ha as (c & <- & _). simpl.
    apply lineDiscoveries_place in Hb as [Hb _]. lia.
Qed.

(** C9.  After aggregation, the entry of a literal carries the category of
    the literal's first discovery, whatever categories later discoveries of
    the same literal have, and lists the places of all its discoveries in
    discovery order: file after file in the order of the run, and line
    after line within a file.  A literal never discovered has no entry.
    Within one file, the places of an entry are in that file and their
    line numbers never decrease. *)
Theorem aggregator_first_write_wins (fs : FS) (sc : jstring)
    (cssFiles : list jstring) (allValues : Map ExtractedValue) (v : jstring) :
  aggregate fs sc cssFiles [] = inr allValues ->
  map_get allValues v =
    match occurrences_of v (discoveries fs sc cssFiles) with
    | [] => None
    | first :: later =>
        Some (mkExtractedValue v (d_type first) (map d_location (first :: later)))
    end /\
  (forall content filePath e,
     map_get (extractValues content filePath sc) v = Some e ->
     StronglySorted le (map line (locations e)) /\
     Forall (fun loc => file loc = filePath) (locations e)).
Proof.
  intros H. split.
  - exact (aggregate_summary fs sc cssFiles [] allValues [] (fun _ => eq_refl) H v).
  - intros content filePath e He. rewrite extractValues_summary in He.
    unfold summary in He.
    assert (Hs : StronglySorted le
              (map line (map d_location
                 (occurrences_of v (fileDiscoveries content filePath sc))))).
    { apply StronglySorted_map, StronglySorted_map.
      unfold occurrences_of. apply StronglySorted_filter.
      apply lineDiscoveries_sorted. }
    assert (Hf : Forall (fun loc => file loc = filePath)
              (map d_location
                 (occurrences_of v (fileDiscoveries content filePath sc)))).
    { apply Forall_forall. intros loc Hloc.
      apply in_map_iff in Hloc as (d0 & <- & Hd0).
      apply filter_In in Hd0 as [Hd0 _].
      now apply lineDiscoveries_place in Hd0. }
    destruct (occurrences_of v (fileDiscoveries content filePath sc))
      as [|d occ]; [discriminate|].
    injection He as <-. split; assumption.
Qed.

Lemma aggregator_first_write_wins_witness :
  aggregate mixed_fs (str "all") [str "a.css"; str "b.css"] [] = inr mixed_values /\
  map_get mixed_values (str "red") =
    match occurrences_of (str "red")
            (discoveries mixed_fs (str "all") [str "a.css"; str "b.css"]) with
    | [] => None
    | first :: later =>
        Some (mkExtractedValue (str "red") (d_type first)
                (map d_location (first :: later)))
    end /\
  map_get mixed_values (str "red") =
    Some (mkExtractedValue (str "red") font
            [ mkLocation (str "a.css") 2 (str "font-family");
              mkLocation (str "b.css") 2 (str "color");
              mkLocation (str "b.css") 3 (str "border-color") ]).
Proof.
  assert (H : aggregate mixed_fs (str "all") [str "a.css"; str "b.css"] []
              = inr mixed_values) by (vm_compute; reflexivity).
  split; [exact H|]. split.
  - exact (proj1 (aggregator_first_write_wins mixed_fs (str "all")
                    [str "a.css"; str "b.css"] mixed_values (str "red") H)).
  - vm_compute. reflexivity.
Defined.

(** ** The namer *)

Lemma NoDup_keys_filter {V : Type} (f : jstring * V -> bool) (mp : Map V) :
  NoDup (keys mp) -> NoDup (keys (filter f mp)).
Proof.
  unfold keys. induction mp as [|e mp IH]; simpl; intros H; [constructor|].
  inversion H as [|? ? Hk Hnd]; subst.
  destruct (f e); simpl; [|auto].
  constructor; [|auto]. intros Hin. apply Hk.
  apply in_map_iff in Hin as (x & Hx & Hin). apply filter_In in Hin as [Hin _].
  apply in_map_iff. eauto.
Qed.

Lemma nameLoop_other (pre v : jstring) :
  forall (repeated : Map ExtractedValue) (cs : Counters) (acc : Names),
    ~ In v (keys repeated) ->
    map_get (varMap (nameLoop pre repeated cs acc)) v = map_get (varMap acc) v.
Proof.
  induction repeated as [|[k info] repeated IH]; intros cs acc Hv; simpl.
  - reflexivity.
  - simpl in Hv. destruct (post_increment cs (type info)) as [idx cs'].
    rewrite IH by tauto. simpl. apply map_get_set_ne. tauto.
Qed.

Lemma post_increment_spec (cs : Counters) (ty ty' : vtype) :
  fst (post_increment cs ty) = counter cs ty /\
  counter (snd (post_increment cs ty)) ty' =
  counter cs ty' + (if vtype_eqb ty ty' then 1 else 0).
Proof.
  destruct ty, ty'; simpl; split; lia.
Qed.

Lemma nameLoop_get (pre : jstring) :
  forall (repeated : Map ExtractedValue) (cs : Counters) (acc : Names)
         (i : nat) (v : jstring) (info : ExtractedValue),
    NoDup (keys repeated) ->
    nth_error repeated i = Some (v, info) ->
    map_get (varMap (nameLoop pre repeated cs acc)) v =
    Some (generateVarName pre (type info) v
            (counter cs (type info) + earlier_of_type (type info) repeated i)).
Proof.
  induction repeated as [|[k e] repeated IH]; intros cs acc i v info Hnd Hnth.
  - destruct i; discriminate.
  - inversion Hnd as [|? ? Hk Hnd']; subst.
    destruct (post_increment_spec cs (type e) (type info)) as [Hidx Hcnt].
    simpl. destruct (post_increment cs (type e)) as [idx cs'] eqn:Hpi.
    simpl in Hidx, Hcnt. destruct i as [|i]; simpl in Hnth.
    + injection Hnth as -> ->.
      rewrite nameLoop_other by assumption. simpl.
      rewrite map_get_set_eq. unfold earlier_of_type. simpl.
      now rewrite Hidx, Nat.add_0_r.
    + rewrite (IH cs' _ i v info Hnd' Hnth). f_equal. f_equal.
      rewrite Hcnt. unfold earlier_of_type. simpl.
      destruct (vtype_eqb (type e) (type info)); simpl; lia.
Qed.

(** C1, as the code has it.  In a run, a selected colour that is literally
    [#fff] or [#ffffff] is named [--{prefix}-color-white] and one that is
    literally [#000] or [#000000] is named [--{prefix}-color-black]; every
    other selected colour is named [--{prefix}-color-{k}] where [k] is its
    1-based position among all the selected colours, white and black
    included, in selection order. *)
Theorem color_names (fs : FS) (sc : jstring) (cssFiles : list jstring)
    (allValues : Map ExtractedValue) (mn : jsnum) (pre : jstring)
    (i : nat) (v : jstring) (info : ExtractedValue) :
  aggregate fs sc cssFiles [] = inr allValues ->
  nth_error (selectRepeated mn allValues) i = Some (v, info) ->
  type info = color ->
  let name := map_get (varMap (generateNames pre (selectRepeated mn allValues))) v in
  (v = str "#fff" \/ v = str "#ffffff" ->
   name = Some (str "--" ++ pre ++ str "-color-white")) /\
  (v = str "#000" \/ v = str "#000000" ->
   name = Some (str "--" ++ pre ++ str "-color-black")) /\
  (~ In (toLowerCase v) [str "#fff"; str "#ffffff"; str "#000"; str "#000000"] ->
   name = Some (str "--" ++ pre ++ str "-color-" ++
                decimal (earlier_of_type color (selectRepeated mn allValues) i + 1))).
Proof.
  intros Hagg Hnth Hty name.
  assert (Hname : name = Some (generateVarName pre color v
            (earlier_of_type color (selectRepeated mn allValues) i))).
  { subst name. unfold generateNames.
    rewrite (nameLoop_get pre _ _ _ i v info); [now rewrite Hty| |assumption].
    apply NoDup_keys_filter.
    eapply aggregate_NoDup; [|eassumption]. constructor. }
  rewrite Hname. unfold generateVarName. repeat split.
  - intros [-> | ->]; reflexivity.
  - intros [-> | ->]; reflexivity.
  - intros Hnot. simpl in Hnot.
    destruct (jeqb (toLowerCase v) (str "#fff")) eqn:E1;
      [apply jeqb_true in E1; exfalso; apply Hnot; auto|].
    destruct (jeqb (toLowerCase v) (str "#ffffff")) eqn:E2;
      [apply jeqb_true in E2; exfalso; apply Hnot; auto|].
    destruct (jeqb (toLowerCase v) (str "#000")) eqn:E3;
      [apply jeqb_true in E3; exfalso; apply Hnot; auto|].
    destruct (jeqb (toLowerCase v) (str "#000000")) eqn:E4;
      [apply jeqb_true in E4; exfalso; apply Hnot; auto 6|].
    simpl. rewrite <- !app_assoc. reflexivity.
Qed.

Lemma color_names_witness :
  aggregate theme_fs (str "all") [str "theme.css"] [] = inr theme_all /\
  nth_error (selectRepeated (Num 2) theme_all) 1 =
    Some (str "#1a2b3c",
          mkExtractedValue (str "#1a2b3c") color
            [ mkLocation (str "theme.css") 3 (str "background");
              mkLocation (str "theme.css") 8 (str "border-color") ]) /\
  map_get (varMap (generateNames (str "cv") (selectRepeated (Num 2) theme_all)))
          (str "#1a2b3c")
    = Some (str "--" ++ str "cv" ++ str "-color-" ++
            decimal (earlier_of_type color (selectRepeated (Num 2) theme_all) 1 + 1)) /\
  decimal (earlier_of_type color (selectRepeated (Num 2) theme_all) 1 + 1) = str "2".
Proof.
  assert (H1 : aggregate theme_fs (str "all") [str "theme.css"] [] = inr theme_all)
    by (vm_compute; reflexivity).
  assert (H2 : nth_error (selectRepeated (Num 2) theme_all) 1 =
    Some (str "#1a2b3c",
          mkExtractedValue (str "#1a2b3c") color
            [ mkLocation (str "theme.css") 3 (str "background");
              mkLocation (str "theme.css") 8 (str "border-color") ]))
    by (vm_compute; reflexivity).
  split; [exact H1|]. split; [exact H2|]. split.
  - refine (proj2 (proj2 (color_names theme_fs (str "all") [str "theme.css"]
             theme_all (Num 2) (str "cv") 1 (str "#1a2b3c") _ H1 H2 eq_refl)) _).
    vm_compute. intros [H | [H | [H | [H | []]]]]; discriminate H.
  - vm_compute. reflexivity.
Defined.

(** C1, as stated, fails: in [theme_css] the first selected colour is
    [#ffffff] and the next one, [#1a2b3c], is named [--cv-color-2], not
    [--cv-color-1]. *)
Lemma white_consumes_an_ordinal :
  let outcome := snd (main default_options [str "theme.css"] theme_fs) in
  option_map (fun r => map (fun e => (ex_value e, ex_type e)) (rp_extractions r))
             (report_of outcome)
    = Some [(str "#ffffff", color); (str "#1a2b3c", color); (str "16px", spacing)] /\
  variable_of outcome (str "#ffffff") = Some (str "--cv-color-white") /\
  variable_of outcome (str "#1a2b3c") = Some (str "--cv-color-2") /\
  variable_of outcome (str "#1a2b3c") <> Some (str "--cv-color-1").
Proof.
  repeat split; try (vm_compute; reflexivity).
  vm_compute. discriminate.
Qed.

(** ** Escaping a literal for use as a pattern *)

Lemma exec_at_Cls (p : ascii -> bool) (bef s : jstring) :
  exec_at (Cls p) bef s =
  match s with
  | c :: _ => if p c then Some (RMatch [c] []) else None
  | [] => None
  end.
Proof.
  unfold exec_at. simpl. unfold step. simpl.
  destruct s as [|c s]; [reflexivity|].
  destruct (p c); [|reflexivity].
  f_equal. f_equal. now apply (consumed_app [c]).
Qed.

Lemma escapeRegExp_flat_map (val : jstring) :
  escapeRegExp val = flat_map escaped_char val.
Proof.
  unfold escapeRegExp, replaceAll, SYNTAX_CHAR. generalize (@nil ascii).
  induction val as [|c val IH]; intros bef.
  - reflexivity.
  - cbn [replace_scan flat_map]. rewrite exec_at_Cls. unfold escaped_char at 1.
    destruct (is_syntax_char c).
    + cbn [m_text length pred]. rewrite IH. reflexivity.
    + rewrite IH. reflexivity.
Qed.

(** The escaped literal is a pattern of the literal fragment, and the
    pattern it denotes is the literal itself, character by character. *)
Lemma RegExp_escapeRegExp (val : jstring) :
  RegExp (escapeRegExp val) = Some (lit val).
Proof.
  rewrite escapeRegExp_flat_map.
  induction val as [|c val IH]; [reflexivity|].
  cbn [flat_map]. unfold escaped_char at 1.
  destruct (is_syntax_char c) eqn:Hc; cbn [app RegExp].
  - rewrite Hc, IH. reflexivity.
  - destruct (Ascii.eqb c "\"%char) eqn:Hb.
    + apply Ascii.eqb_eq in Hb. subst c. discriminate Hc.
    + rewrite Hc, IH. reflexivity.
Qed.

(** ** Preview runs *)

Lemma replaceValue_total (st : Rewrite) (entry : jstring * jstring) :
  exists st', replaceValue st entry = Some st'.
Proof.
  destruct entry as [val varName]. unfold replaceValue.
  rewrite RegExp_escapeRegExp.
  destruct (matchAll (lit val) (rw_content st)); eauto.
Qed.

Lemma replaceValues_total :
  forall (vm : Map jstring) (st : Rewrite),
    exists st', replaceValues vm st = Some st'.
Proof.
  induction vm as [|entry vm IH]; intros st; simpl; [eauto|].
  destruct (replaceValue_total st entry) as [st' ->]. apply IH.
Qed.

Lemma writeFileSync_readable (fs : FS) (f content f' : jstring) :
  readFileSync fs f' <> None -> readFileSync (writeFileSync fs f content) f' <> None.
Proof.
  unfold readFileSync, writeFileSync. intros H.
  destruct (list_eq_dec ascii_dec f f') as [<- | Hne].
  - now rewrite map_get_set_eq.
  - now rewrite map_get_set_ne.
Qed.

Lemma applyChanges_succeeds (vm : Map jstring) (rootBlock : jstring) :
  forall (cssFiles : list jstring) (st : Apply),
    (forall f, In f cssFiles -> readFileSync (ap_fs st) f <> None) ->
    snd (applyChanges vm rootBlock cssFiles st) = None.
Proof.
  induction cssFiles as [|f cssFiles IH]; intros st Hread; simpl; [reflexivity|].
  destruct (readFileSync (ap_fs st) f) as [content|] eqn:Hf.
  2:{ exfalso. apply (Hread f); [now left | assumption]. }
  destruct (replaceValues_total vm (mkRewrite content (ap_total st) false))
    as [rw ->].
  destruct (rw_modified rw); apply IH; simpl; intros f' Hf'.
  - apply writeFileSync_readable. apply Hread. now right.
  - apply Hread. now right.
Qed.

Lemma aggregate_readable (fs : FS) (sc : jstring) :
  forall (cssFiles : list jstring) (acc allValues : Map ExtractedValue),
    aggregate fs sc cssFiles acc = inr allValues ->
    forall f, In f cssFiles -> readFileSync fs f <> None.
Proof.
  induction cssFiles as [|f0 cssFiles IH]; intros acc allValues H f Hf;
    simpl in *; [contradiction|].
  destruct (readFileSync fs f0) as [content|] eqn:Hf0; [|discriminate].
  destruct Hf as [<- | Hf]; [congruence|]. eapply IH; eassumption.
Qed.

(** C2, as the code has it.  A preview run leaves the file system as it
    is, and reports the same values, names, occurrence counts and
    declaration block as the run without preview on the same input; it
    computes no replacement count. *)
Theorem preview_run (opts : CliOptions) (cssFiles : list jstring) (fs : FS) :
  let preview := main (with_dryRun true opts) cssFiles fs in
  let applied := main (with_dryRun false opts) cssFiles fs in
  fst preview = fs /\
  report_of (snd preview) = report_of (snd applied) /\
  replacements_of (snd preview) = None.
Proof.
  unfold main, with_dryRun. simpl.
  destruct (help opts); [auto|].
  destruct cssFiles as [|f0 cssFiles]; [auto|].
  destruct (aggregate fs (scope opts) (f0 :: cssFiles) []) as [f|allValues] eqn:Hagg;
    [auto|].
  destruct (selectRepeated (min opts) allValues) as [|e repeated] eqn:Hsel; [auto|].
  destruct (json opts); [auto|].
  repeat split.
  match goal with
  | |- context [applyChanges ?vm ?rb ?fl ?st] =>
      pose proof (applyChanges_succeeds vm rb fl st
                    (aggregate_readable fs (scope opts) fl [] allValues Hagg)) as Hok;
      destruct (applyChanges vm rb fl st) as [st' [err|]]
  end.
  - discriminate Hok.
  - reflexivity.
Qed.

(** C2, as stated, fails: on [case_css] the run without preview counts
    two replacements; the preview run counts none, and the only count it
    reports, the three occurrences of the value, is a different number. *)
Lemma preview_counts_no_replacements :
  let preview := main (with_dryRun true default_options) [str "case.css"] case_fs in
  let applied := main (with_dryRun false default_options) [str "case.css"] case_fs in
  replacements_of (snd preview) = None /\
  replacements_of (snd applied) = Some 2 /\
  option_map (fun r => map (fun e => (ex_value e, ex_occurrences e)) (rp_extractions r))
             (report_of (snd preview)) = Some [(str "#ff0000", 3)] /\
  fst preview = case_fs.
Proof.
  repeat split; vm_compute; reflexivity.
Qed.

(** ** The hex-colour rule *)

Lemma is_hex_is_word (c : ascii) : is_hex c = true -> is_word c = true.
Proof.
  destruct c as [[] [] [] [] [] [] [] []]; vm_compute; congruence.
Qed.

Lemma is_hex_not_hash (c : ascii) : is_hex c = true -> c <> "#"%char.
Proof.
  intros H ->. discriminate H.
Qed.

Lemma lower_char_idempotent (c : ascii) : lower_char (lower_char c) = lower_char c.
Proof.
  destruct c as [[] [] [] [] [] [] [] []]; vm_compute; reflexivity.
Qed.

Lemma toLowerCase_idempotent (s : jstring) : toLowerCase (toLowerCase s) = toLowerCase s.
Proof.
  unfold toLowerCase. rewrite map_map. apply map_ext. apply lower_char_idempotent.
Qed.

Lemma head_is_rev_app (p q : ascii -> bool) (t x : jstring) :
  forallb p t = true -> t <> [] ->
  (forall c, p c = true -> q c = true) ->
  head_is q (rev t ++ x) = true.
Proof.
  intros Hall Hne Hpq. destruct (rev t) as [|c l] eqn:E.
  - exfalso. apply Hne. rewrite <- (rev_involutive t), E. reflexivity.
  - simpl. apply Hpq. rewrite forallb_forall in Hall. apply Hall.
    apply in_rev. rewrite E. now left.
Qed.

(** Two readings of one text as a run of [p] characters that cannot be
    extended agree. *)
Lemma maximal_run_unique (p : ascii -> bool) :
  forall ds ds' post post' : jstring,
    ds ++ post = ds' ++ post' ->
    forallb p ds = true -> forallb p ds' = true ->
    head_is p post = false -> head_is p post' = false ->
    ds = ds' /\ post = post'.
Proof.
  induction ds as [|c ds IH]; intros ds' post post' Heq Hd Hd' Hp Hp'.
  - destruct ds' as [|c' ds']; [auto|]. simpl in *. subst post.
    simpl in Hp. apply andb_true_iff in Hd' as [Hc _]. congruence.
  - destruct ds' as [|c' ds'].
    + simpl in *. subst post'. simpl in Hp'.
      apply andb_true_iff in Hd as [Hc _]. congruence.
    + simpl in *. injection Heq as -> Heq.
      apply andb_true_iff in Hd as [_ Hd]. apply andb_true_iff in Hd' as [_ Hd'].
      destruct (IH ds' post post' Heq Hd Hd' Hp Hp') as [-> ->]. auto.
Qed.

Lemma head_is_weaken (p q : ascii -> bool) (s : jstring) :
  (forall c, p c = true -> q c = true) ->
  head_is q s = false -> head_is p s = false.
Proof.
  intros Hpq. destruct s as [|c s]; simpl; [reflexivity|].
  intros Hq. destruct (p c) eqn:Hp; [|reflexivity].
  apply Hpq in Hp. congruence.
Qed.

Lemma hex_exec_sound (bef s : jstring) (mr : rmatch) :
  exec_at COLOR_HEX bef s = Some mr ->
  exists ds post,
    s = "#"%char :: ds ++ post /\ 3 <= length ds <= 8 /\
    forallb is_hex ds = true /\ head_is is_word post = false /\
    mr = RMatch ("#"%char :: ds) [].
Proof.
  intros H. apply exec_at_sound in H as (st' & HM & ->).
  unfold COLOR_HEX in HM. simpl in HM.
  inversion HM as [| | | |r1 r2 st0 st1 st2 HM1 HM2| | | | | | | | |]; subst.
  inversion HM1 as [|c st0 rest' Hrest| | | | | | | | | | | |]; subst.
  inversion HM2 as [| | | |r1 r2 st0 st1 st3 HM3 HM4| | | | | | | | |]; subst.
  inversion HM3 as [| | | | | | |lo hi p st0 t rest'' Hrest' Hall Hlo Hhi| | | | | |];
    subst.
  inversion HM4 as [| | | | | | | | | | | |st0 Hb|]; subst.
  simpl in *. subst.
  assert (Htne : t <> []) by (destruct t; [simpl in Hlo; lia | discriminate]).
  rewrite (head_is_rev_app is_hex is_word t _ Hall Htne is_hex_is_word) in Hb.
  simpl in Hb. apply negb_true_iff in Hb.
  exists t, rest''.
  split; [reflexivity|]. split; [split; [exact Hlo | exact (Hhi 8 eq_refl)]|].
  split; [exact Hall|]. split; [exact Hb|].
  f_equal. now apply (consumed_app ("#"%char :: t)).
Qed.

Lemma hex_exec_complete (bef ds post : jstring) :
  3 <= length ds <= 8 -> forallb is_hex ds = true ->
  head_is is_word post = false ->
  exec_at COLOR_HEX bef ("#"%char :: ds ++ post) = Some (RMatch ("#"%char :: ds) []).
Proof.
  intros [Hlo Hhi] Hall Hpost.
  assert (Htne : ds <> []) by (destruct ds; [simpl in Hlo; lia | discriminate]).
  destruct (exec_at_complete COLOR_HEX bef ("#"%char :: ds ++ post)
              (MState (rev ds ++ "#"%char :: bef) post [])) as [mr Hmr].
  { unfold COLOR_HEX. simpl.
    apply M_Seq with (st1 := MState ("#"%char :: bef) (ds ++ post) []).
    - now apply (M_Chr "#"%char (MState bef ("#"%char :: ds ++ post) [])).
    - apply M_Seq with (st1 := MState (rev ds ++ "#"%char :: bef) post []).
      + apply (M_Rep 3 (Some 8) is_hex (MState ("#"%char :: bef) (ds ++ post) []));
          auto. intros h [= <-]. exact Hhi.
      + apply M_WordB. simpl.
        rewrite (head_is_rev_app is_hex is_word ds _ Hall Htne is_hex_is_word).
        now rewrite Hpost. }
  rewrite Hmr. f_equal.
  apply hex_exec_sound in Hmr as (ds' & post' & Heq & _ & Hall' & Hpost' & ->).
  injection Heq as Heq.
  destruct (maximal_run_unique is_hex ds ds' post post' Heq Hall Hall'
              (head_is_weaken _ _ _ is_hex_is_word Hpost)
              (head_is_weaken _ _ _ is_hex_is_word Hpost')) as [-> _].
  reflexivity.
Qed.

Lemma scan_hex_complete (mr : rmatch) :
  forall (s : jstring) (skip : nat) (bef s1 s2 : jstring),
    s = s1 ++ s2 ->
    exec_at COLOR_HEX (rev s1 ++ bef) s2 = Some mr ->
    (forall c, In c (firstn skip s) -> c <> "#"%char) ->
    In mr (scan COLOR_HEX skip bef s).
Proof.
  induction s as [|c s IH]; intros skip bef s1 s2 Hs Hex Hskip.
  - symmetry in Hs. apply app_eq_nil in Hs as [-> ->].
    apply hex_exec_sound in Hex as (? & ? & ? & _). discriminate.
  - destruct skip as [|n].
    + cbn [scan]. destruct s1 as [|c1 s1].
      * simpl in Hs, Hex. subst s2. rewrite Hex. now left.
      * simpl in Hs. injection Hs as <- ->.
        simpl in Hex. rewrite <- app_assoc in Hex. simpl in Hex.
        destruct (exec_at COLOR_HEX bef (c :: s1 ++ s2)) as [mr0|] eqn:E0.
        -- right. apply (IH _ _ s1 s2 eq_refl Hex).
           apply hex_exec_sound in E0 as (ds & post & Heq & _ & Hall & _ & ->).
           injection Heq as _ Heq. rewrite Heq. simpl.
           rewrite firstn_app, firstn_all, Nat.sub_diag. simpl. rewrite app_nil_r.
           intros x Hx. apply is_hex_not_hash.
           rewrite forallb_forall in Hall. now apply Hall.
        -- apply (IH _ _ s1 s2 eq_refl Hex). simpl. tauto.
    + cbn [scan]. destruct s1 as [|c1 s1].
      * simpl in Hs, Hex. subst s2. exfalso.
        apply hex_exec_sound in Hex as (ds & post & Heq & _).
        injection Heq as -> _. apply (Hskip "#"%char); [now left | reflexivity].
      * simpl in Hs. injection Hs as <- ->.
        simpl in Hex. rewrite <- app_assoc in Hex. simpl in Hex.
        apply (IH _ _ s1 s2 eq_refl Hex).
        intros x Hx. apply Hskip. now right.
Qed.

(** C4, as the code has it.  The hex rule extracts a value exactly when
    the line holds a [#] followed by three to eight hexadecimal digits
    (five and seven among them) after which no word character comes; the
    extracted value is that text in lower case.  On a line that is not
    skipped, in scope [colors] or [all], each such value is recorded as a
    colour under the line's property. *)
Theorem hex_colors_extracted (ln v : jstring) :
  (In v (hexColors ln) <->
   exists pre ds post,
     ln = pre ++ "#"%char :: ds ++ post /\
     3 <= length ds <= 8 /\ forallb is_hex ds = true /\
     head_is is_word post = false /\
     v = toLowerCase ("#"%char :: ds)) /\
  (In v (hexColors ln) -> toLowerCase v = v) /\
  (forall sc,
     In v (hexColors ln) -> skipped ln = false ->
     sc = str "colors" \/ sc = str "all" ->
     In (mkCall v color (propertyOf ln)) (lineCalls sc ln)).
Proof.
  assert (Hiff : In v (hexColors ln) <->
    exists pre ds post,
      ln = pre ++ "#"%char :: ds ++ post /\
      3 <= length ds <= 8 /\ forallb is_hex ds = true /\
      head_is is_word post = false /\
      v = toLowerCase ("#"%char :: ds)).
  { unfold hexColors, matchAll. rewrite in_map_iff. split.
    - intros (mr & <- & Hin).
      apply scan_sound in Hin as (s1 & s2 & -> & _ & Hex).
      apply hex_exec_sound in Hex as (ds & post & -> & Hlen & Hall & Hpost & ->).
      exists s1, ds, post. auto.
    - intros (pre & ds & post & -> & Hlen & Hall & Hpost & ->).
      exists (RMatch ("#"%char :: ds) []). split; [reflexivity|].
      apply (scan_hex_complete _ _ 0 [] pre ("#"%char :: ds ++ post) eq_refl).
      + now apply hex_exec_complete.
      + simpl. tauto. }
  split; [exact Hiff|]. split.
  - intros Hin. apply Hiff in Hin as (_ & ds & _ & _ & _ & _ & _ & ->).
    apply toLowerCase_idempotent.
  - intros sc Hin Hskip Hsc. unfold lineCalls. rewrite Hskip.
    apply in_or_app. left.
    replace (jeqb sc (str "colors") || jeqb sc (str "all")) with true
      by (destruct Hsc as [-> | ->]; reflexivity).
    unfold calls_of. apply in_map_iff. exists v. split; [reflexivity|].
    apply in_or_app. now left.
Qed.

Lemma hex_colors_extracted_witness :
  In (str "#ff0000") (hexColors (str "  color: #FF0000;")) /\
  skipped (str "  color: #FF0000;") = false /\
  (str "all" = str "colors" \/ str "all" = str "all") /\
  In (mkCall (str "#ff0000") color (propertyOf (str "  color: #FF0000;")))
     (lineCalls (str "all") (str "  color: #FF0000;")) /\
  toLowerCase (str "#ff0000") = str "#ff0000".
Proof.
  assert (H1 : In (str "#ff0000") (hexColors (str "  color: #FF0000;")))
    by (vm_compute; left; reflexivity).
  assert (H2 : skipped (str "  color: #FF0000;") = false) by reflexivity.
  assert (H3 : str "all" = str "colors" \/ str "all" = str "all") by (right; reflexivity).
  split; [exact H1|]. split; [exact H2|]. split; [exact H3|]. split.
  - exact (proj2 (proj2 (hex_colors_extracted (str "  color: #FF0000;") (str "#ff0000")))
             (str "all") H1 H2 H3).
  - exact (proj1 (proj2 (hex_colors_extracted (str "  color: #FF0000;") (str "#ff0000")))
             H1).
Defined.

(** C4, as stated, fails: a [#] followed by five or by seven hexadecimal
    digits is extracted. *)
Lemma five_and_seven_digit_hex_extracted :
  hexColors (str "  color: #12345;") = [str "#12345"] /\
  hexColors (str "  color: #ABCDEF1;") = [str "#abcdef1"] /\
  map c_value (lineCalls (str "colors") (str "  color: #12345;")) = [str "#12345"].
Proof.
  repeat split; vm_compute; reflexivity.
Qed.

(** ** Taking a match apart *)

Lemma Matches_Seq_inv (r1 r2 : regex) (st st' : mstate) :
  Matches (Seq r1 r2) st st' ->
  exists st1, Matches r1 st st1 /\ Matches r2 st1 st'.
Proof.
  intros H. inversion H; subst. eauto.
Qed.

Lemma Matches_Chr_inv (c : ascii) (st st' : mstate) :
  Matches (Chr c) st st' ->
  ms_rest st = c :: ms_rest st' /\ ms_caps st' = ms_caps st /\
  ms_before st' = c :: ms_before st.
Proof.
  intros H. inversion H; subst. simpl. auto.
Qed.

Lemma Matches_Rep_inv (lo : nat) (hi : option nat) (p : ascii -> bool)
    (st st' : mstate) :
  Matches (Rep lo hi p) st st' ->
  exists t,
    ms_rest st = t ++ ms_rest st' /\ forallb p t = true /\ lo <= length t /\
    (forall h, hi = Some h -> length t <= h) /\
    ms_caps st' = ms_caps st /\ ms_before st' = rev t ++ ms_before st.
Proof.
  intros H. inversion H; subst. simpl. exists t. auto 7.
Qed.

Lemma Matches_Opt_inv (r : regex) (st st' : mstate) :
  Matches (Opt r) st st' -> Matches r st st' \/ st' = st.
Proof.
  intros H. inversion H; subst; auto.
Qed.

Lemma Matches_Alt_inv (r1 r2 : regex) (st st' : mstate) :
  Matches (Alt r1 r2) st st' -> Matches r1 st st' \/ Matches r2 st st'.
Proof.
  intros H. inversion H; subst; auto.
Qed.

Lemma Matches_Grp_inv (n : nat) (r : regex) (st st' : mstate) :
  Matches (Grp n r) st st' ->
  exists st1,
    Matches r st st1 /\ ms_rest st' = ms_rest st1 /\
    ms_before st' = ms_before st1 /\
    ms_caps st' = (n, consumed st st1) :: ms_caps st1.
Proof.
  intros H. inversion H; subst. simpl. eauto.
Qed.

Lemma Matches_WordB_inv (st st' : mstate) :
  Matches WordB st st' ->
  st' = st /\
  xorb (head_is is_word (ms_before st)) (head_is is_word (ms_rest st)) = true.
Proof.
  intros H. inversion H; subst. auto.
Qed.

Lemma Matches_NotAfterWord_inv (st st' : mstate) :
  Matches NotAfterWord st st' ->
  st' = st /\ head_is is_word (ms_before st) = false.
Proof.
  intros H. inversion H; subst. auto.
Qed.

Lemma Matches_lit (v : jstring) :
  forall st st',
    Matches (lit v) st st' ->
    ms_rest st = v ++ ms_rest st' /\ ms_caps st' = ms_caps st.
Proof.
  induction v as [|c v IH]; intros st st' H; simpl in H.
  - inversion H; subst. auto.
  - apply Matches_Seq_inv in H as (st1 & H1 & H2).
    apply Matches_Chr_inv in H1 as (Hr & Hc & _).
    apply IH in H2 as (Hr2 & Hc2). rewrite Hr, Hr2. split; [reflexivity | congruence].
Qed.

Lemma Matches_alts_lit (l : list jstring) :
  forall st st',
    l <> [] ->
    Matches (alts (map lit l)) st st' ->
    exists v, In v l /\ ms_rest st = v ++ ms_rest st' /\ ms_caps st' = ms_caps st.
Proof.
  induction l as [|v l IH]; intros st st' Hne H; [congruence|].
  destruct l as [|v' l].
  - simpl in H. apply Matches_lit in H. exists v. simpl. tauto.
  - change (alts (map lit (v :: v' :: l)))
      with (Alt (lit v) (alts (map lit (v' :: l)))) in H.
    apply Matches_Alt_inv in H as [H | H].
    + apply Matches_lit in H. exists v. simpl. tauto.
    + apply IH in H as (u & Hu & Hr); [|discriminate].
      exists u. split; [now right | assumption].
Qed.

(** ** The spacing rule *)

Lemma is_decimal_tail_digits (t : jstring) :
  forallb is_digit t = true -> is_decimal_tail t = true.
Proof.
  induction t as [|c t IH]; simpl; [reflexivity|].
  rewrite andb_true_iff. intros [-> H]. auto.
Qed.

Lemma is_decimal_tail_fraction (t1 t2 : jstring) :
  forallb is_digit t1 = true -> forallb is_digit t2 = true -> 1 <= length t2 ->
  is_decimal_tail (t1 ++ "."%char :: t2) = true.
Proof.
  intros H1 H2 Hlen. induction t1 as [|c t1 IH]; simpl.
  - rewrite H2. destruct t2; [simpl in Hlen; lia | reflexivity].
  - simpl in H1. apply andb_true_iff in H1 as [-> H1]. auto.
Qed.

Lemma digits_are_digit_or_dot (s : jstring) :
  forallb is_digit s = true -> forallb is_digit_or_dot s = true.
Proof.
  induction s as [|d s IH]; simpl; [reflexivity|].
  intros H. apply andb_true_iff in H as [Hd H].
  unfold is_digit_or_dot at 1. rewrite Hd. simpl. auto.
Qed.

Lemma is_decimal_chars (s : jstring) :
  is_decimal_tail s = true -> forallb is_digit_or_dot s = true.
Proof.
  induction s as [|c s IH]; simpl; [reflexivity|].
  unfold is_digit_or_dot at 1. destruct (is_digit c) eqn:Hc; simpl.
  - exact IH.
  - intros H. apply andb_true_iff in H as [H Hall].
    apply andb_true_iff in H as [Hdot _].
    apply Ascii.eqb_eq in Hdot. subst c. simpl.
    now apply digits_are_digit_or_dot.
Qed.

Lemma Matches_number (st st' : mstate) :
  Matches (Seq digits (Opt (Seq (Chr ".") digits))) st st' ->
  exists num,
    ms_rest st = num ++ ms_rest st' /\ is_decimal num = true /\
    ms_caps st' = ms_caps st /\
    (exists c l, rev num = c :: l /\ is_word c = true /\
                 ms_before st' = rev num ++ ms_before st).
Proof.
  intros H. apply Matches_Seq_inv in H as (st1 & H1 & H2).
  apply Matches_Rep_inv in H1 as (t1 & Hr1 & Hall1 & Hlo1 & _ & Hc1 & Hb1).
  assert (Hhead : head_is is_digit t1 = true).
  { destruct t1 as [|c t1]; [simpl in Hlo1; lia|].
    simpl in *. now apply andb_true_iff in Hall1 as [-> _]. }
  assert (Hlast : forall t x, forallb is_digit t = true -> 1 <= length t ->
            exists c l, rev (x ++ t) = c :: l /\ is_word c = true).
  { intros t x Hall Hlen. rewrite rev_app_distr.
    destruct (rev t) as [|c l] eqn:E.
    - apply (f_equal (@length ascii)) in E. rewrite length_rev in E. simpl in E. lia.
    - exists c, (l ++ rev x). split; [reflexivity|].
      rewrite forallb_forall in Hall.
      assert (Hc : is_digit c = true)
        by (apply Hall, in_rev; rewrite E; now left).
      unfold is_word, is_alnum. rewrite Hc. now rewrite !orb_true_r. }
  apply Matches_Opt_inv in H2 as [H2 | ->].
  - apply Matches_Seq_inv in H2 as (st2 & H2 & H3).
    apply Matches_Chr_inv in H2 as (Hr2 & Hc2 & Hb2).
    apply Matches_Rep_inv in H3 as (t2 & Hr3 & Hall3 & Hlo3 & _ & Hc3 & Hb3).
    exists (t1 ++ "."%char :: t2). repeat split.
    + rewrite Hr1, Hr2, Hr3, <- app_assoc. reflexivity.
    + unfold is_decimal. rewrite is_decimal_tail_fraction by assumption.
      destruct t1; [discriminate Hhead|]. simpl in *. now rewrite Hhead.
    + congruence.
    + destruct (Hlast t2 (t1 ++ ["."%char]) Hall3 Hlo3) as (c & l & Hrev & Hw).
      rewrite <- app_assoc in Hrev. simpl in Hrev.
      exists c, l. repeat split; auto.
      rewrite Hb3, Hb2, Hb1, !rev_app_distr. simpl.
      rewrite <- !app_assoc. reflexivity.
  - exists t1. repeat split; auto.
    + unfold is_decimal. now rewrite Hhead, is_decimal_tail_digits.
    + destruct (Hlast t1 [] Hall1 Hlo1) as (c & l & Hrev & Hw).
      exists c, l. auto.
Qed.

Lemma spacing_exec_sound (bef s : jstring) (mr : rmatch) :
  exec_at SPACING bef s = Some mr ->
  is_decimal (group 1 mr) = true /\ In (group 2 mr) units /\
  m_text mr = group 1 mr ++ group 2 mr.
Proof.
  intros H. apply exec_at_sound in H as (st' & HM & ->).
  unfold SPACING in HM. cbn [seqs] in HM.
  apply Matches_Seq_inv in HM as (st1 & H1 & HM).
  apply Matches_NotAfterWord_inv in H1 as [-> _].
  apply Matches_Seq_inv in HM as (st2 & H2 & HM).
  apply Matches_Grp_inv in H2 as (st2' & H2 & Hr2 & Hb2 & Hc2).
  apply Matches_number in H2 as (num & Hnum & Hdec & Hcn & _).
  apply Matches_Seq_inv in HM as (st3 & H3 & HM).
  apply Matches_Grp_inv in H3 as (st3' & H3 & Hr3 & Hb3 & Hc3).
  apply Matches_alts_lit in H3 as (u & Hu & Hru & Hcu); [|discriminate].
  apply Matches_WordB_inv in HM as [-> _].
  simpl in Hnum, Hcn.
  assert (E1 : consumed (MState bef s []) st2' = num)
    by (now apply consumed_app).
  assert (E2 : consumed st2 st3' = u)
    by (apply consumed_app; exact Hru).
  unfold group. simpl. rewrite Hc3, Hcu, Hc2, Hcn, E1, E2. simpl.
  repeat split; auto.
  apply consumed_app. simpl. rewrite Hnum, <- Hr2, Hru, <- Hr3, app_assoc.
  reflexivity.
Qed.

Lemma units_head (u : jstring) :
  In u units -> head_is is_digit_or_dot u = false.
Proof.
  unfold units. simpl.
  intros [<- | [<- | [<- | [<- | [<- | [<- | []]]]]]]; reflexivity.
Qed.

(** A decimal of magnitude zero parses to the number 0. *)
Lemma mantissa_zero_num_is_0 (s : jstring) : mantissa s = 0%Z -> num_is_0 s = true.
Proof.
  intros H. unfold num_is_0, parseFloat_is. rewrite H.
  generalize (2 ^ 1075)%Z. intros k.
  assert (Hd : (0 < 10 ^ Z.of_nat (scale s))%Z)
    by (apply Z.pow_pos_nonneg; lia).
  replace ((0 * 10 ^ Z.of_nat (scale s) - 0) * k)%Z with 0%Z by ring.
  replace ((0 - 0 * 10 ^ Z.of_nat (scale s)) * k)%Z with 0%Z by ring.
  apply andb_true_iff. split; apply Z.leb_le; lia.
Qed.

(** A value reads in one way only as a decimal followed by a unit. *)
Lemma decimal_unit_unique (num num' unit unit' : jstring) :
  num ++ unit = num' ++ unit' ->
  is_decimal num = true -> is_decimal num' = true ->
  In unit units -> In unit' units ->
  num = num' /\ unit = unit'.
Proof.
  intros Heq Hn Hn' Hu Hu'.
  unfold is_decimal in Hn, Hn'.
  apply andb_true_iff in Hn as [_ Hn]. apply andb_true_iff in Hn' as [_ Hn'].
  apply (maximal_run_unique is_digit_or_dot num num' unit unit' Heq).
  - now apply is_decimal_chars.
  - now apply is_decimal_chars.
  - now apply units_head.
  - now apply units_head.
Qed.

Lemma in_spacingOf (prop : jstring) (mr : rmatch) (v : jstring) :
  In v (spacingOf prop mr) ->
  v = group 1 mr ++ group 2 mr /\
  test LAYOUT_PROPERTY prop = true /\
  num_is_0 (group 1 mr) = false /\
  (group 2 mr = str "%" ->
   num_is_100 (group 1 mr) = false /\ num_is_50 (group 1 mr) = false) /\
  (group 2 mr = str "px" -> num_is_1 (group 1 mr) = false).
Proof.
  unfold spacingOf.
  destruct (num_is_0 (group 1 mr)) eqn:E0; [contradiction|].
  destruct (jeqb (group 2 mr) (str "%") &&
            (num_is_100 (group 1 mr) || num_is_50 (group 1 mr))) eqn:E1;
    [contradiction|].
  destruct (jeqb (group 2 mr) (str "px") && num_is_1 (group 1 mr)) eqn:E2;
    [contradiction|].
  destruct (test LAYOUT_PROPERTY prop); [|contradiction].
  simpl. intros [<- | []].
  split; [reflexivity|]. split; [reflexivity|]. split; [reflexivity|]. split.
  - intros H. rewrite H in E1. rewrite jeqb_refl in E1. simpl in E1.
    now apply orb_false_iff in E1.
  - intros H. rewrite H in E2. rewrite jeqb_refl in E2. exact E2.
Qed.

Lemma in_spacings (ln prop v : jstring) :
  In v (spacings ln prop) ->
  exists num unit,
    v = num ++ unit /\ is_decimal num = true /\ In unit units /\
    test LAYOUT_PROPERTY prop = true /\
    num_is_0 num = false /\
    (unit = str "%" -> num_is_100 num = false /\ num_is_50 num = false) /\
    (unit = str "px" -> num_is_1 num = false).
Proof.
  unfold spacings. rewrite in_flat_map. intros (mr & Hmr & Hv).
  apply scan_sound in Hmr as (s1 & s2 & _ & _ & Hex).
  apply spacing_exec_sound in Hex as (Hdec & Hu & _).
  apply in_spacingOf in Hv as (-> & Hp & H0 & Hpct & Hpx).
  exists (group 1 mr), (group 2 mr). auto 8.
Qed.

(** C7.  A spacing length is extracted only under a property that matches
    the box/layout pattern, and the extracted value, a decimal followed by
    one of the units, is never of magnitude zero, never [1px], never
    [100%] and never [50%].  The lines [padding: 100%;], [padding: 1px;]
    and [padding: 0px;] yield no spacing extraction. *)
Theorem spacing_exclusions :
  (forall (sc ln : jstring) (c : Call),
     In c (lineCalls sc ln) -> c_type c = spacing ->
     test LAYOUT_PROPERTY (c_property c) = true /\
     (exists num unit,
        c_value c = num ++ unit /\ is_decimal num = true /\ In unit units) /\
     ~ zero_length (c_value c) /\
     c_value c <> str "1px" /\ c_value c <> str "100%" /\ c_value c <> str "50%") /\
  (forall (sc : jstring) (c : Call),
     In c (lineCalls sc (str "padding: 100%;")) \/
     In c (lineCalls sc (str "padding: 1px;")) \/
     In c (lineCalls sc (str "padding: 0px;")) ->
     c_type c <> spacing).
Proof.
  split.
  - intros sc ln c Hin Hty.
    apply in_lineCalls in Hin as (_ & Hprop & [H | [H | H]]).
    + destruct H as (_ & H & _). congruence.
    + destruct H as (_ & _ & H). rewrite Hprop.
      apply in_spacings in H
        as (num & unit & Hv & Hdec & Hu & Hlay & H0 & Hpct & Hpx).
      split; [exact Hlay|]. split; [now exists num, unit|].
      assert (Hread : forall num' unit',
                c_value c = num' ++ unit' -> is_decimal num' = true ->
                In unit' units -> num = num' /\ unit = unit').
      { intros num' unit' Hv' Hdec' Hu'.
        apply decimal_unit_unique; auto. now rewrite <- Hv. }
      split; [|split; [|split]].
      * intros (num' & unit' & Hv' & Hdec' & Hu' & Hzero).
        destruct (Hread num' unit' Hv' Hdec' Hu') as [<- _].
        apply mantissa_zero_num_is_0 in Hzero. congruence.
      * intros Hv'.
        destruct (Hread (str "1") (str "px") Hv' eq_refl) as [-> ->];
          [unfold units; simpl; auto|].
        specialize (Hpx eq_refl). discriminate Hpx.
      * intros Hv'.
        destruct (Hread (str "100") (str "%") Hv' eq_refl) as [-> ->];
          [unfold units; simpl; auto 7|].
        destruct (Hpct eq_refl) as [H100 _]. discriminate H100.
      * intros Hv'.
        destruct (Hread (str "50") (str "%") Hv' eq_refl) as [-> ->];
          [unfold units; simpl; auto 7|].
        destruct (Hpct eq_refl) as [_ H50]. discriminate H50.
    + destruct H as (_ & H & _). congruence.
  - intros sc c H Hty.
    assert (Hnone : forall ln, spacings ln (propertyOf ln) = [] ->
                    In c (lineCalls sc ln) -> False).
    { intros ln Hnil Hin.
      apply in_lineCalls in Hin as (_ & _ & [Hc | [Hc | Hc]]).
      - destruct Hc as (_ & Hc & _). congruence.
      - destruct Hc as (_ & _ & Hc). rewrite Hnil in Hc. contradiction.
      - destruct Hc as (_ & Hc & _). congruence. }
    destruct H as [H | [H | H]]; revert H; apply Hnone; vm_compute; reflexivity.
Qed.

Lemma spacing_exclusions_witness :
  In (mkCall (str "16px") spacing (str "margin"))
     (lineCalls (str "spacing") (str "  margin: 16px 0 1px 0.0rem;")) /\
  test LAYOUT_PROPERTY (str "margin") = true /\
  ~ zero_length (str "16px") /\
  str "16px" <> str "1px" /\
  map c_value (lineCalls (str "spacing") (str "  margin: 16px 0 1px 0.0rem;"))
    = [str "16px"].
Proof.
  assert (H : In (mkCall (str "16px") spacing (str "margin"))
                 (lineCalls (str "spacing") (str "  margin: 16px 0 1px 0.0rem;")))
    by (vm_compute; left; reflexivity).
  destruct (proj1 spacing_exclusions _ _ _ H eq_refl) as (H1 & _ & H2 & H3 & _).
  split; [exact H|]. split; [exact H1|]. split; [exact H2|]. split; [exact H3|].
  vm_compute. reflexivity.
Defined.

(** ** The substitution step *)

(** C8, on a failing input.  With the prefix [$&] the value [#336699] is
    named [--$&-color-1]; the pattern built from the escaped literal finds
    exactly the two occurrences of the literal, but the text put in their
    place is not the wrapper [var(--$&-color-1)]: the [$&] of the name is
    read as a substitution pattern and replaced by the matched literal. *)
Lemma dollar_in_name_is_substituted :
  let result := main dollar_options [str "brand.css"] brand_fs in
  variable_of (snd result) (str "#336699") = Some (str "--$&-color-1") /\
  replacements_of (snd result) = Some 2 /\
  fst result = [(str "brand.css", brand_written)] /\
  includes brand_written (str "var(--#336699-color-1)") = true /\
  includes brand_written (str "var(--$&-color-1)") = false.
Proof.
  repeat split; vm_compute; reflexivity.
Qed.

Lemma substitution_plain (tpl matched before after : jstring) :
  ~ In "$"%char tpl -> substitution tpl matched before after = tpl.
Proof.
  induction tpl as [|c tpl IH]; intros H; simpl; [reflexivity|].
  destruct (Ascii.eqb c "$"%char) eqn:E.
  - apply Ascii.eqb_eq in E. exfalso. apply H. now left.
  - rewrite IH; [reflexivity|]. intros Hin. apply H. now right.
Qed.

(** With a name free of [$], replacing through the pattern built from the
    escaped literal is the textual replacement of the literal. *)
Lemma replace_scan_lit (v tpl : jstring) :
  ~ In "$"%char tpl ->
  forall s skip bef,
    replace_scan (lit v) tpl skip bef s = replace_lit v tpl skip s.
Proof.
  intros Htpl. induction s as [|c s IH]; intros skip bef.
  - destruct skip; simpl; [|reflexivity].
    rewrite exec_at_lit. destruct (startsWith [] v); [|reflexivity].
    simpl. now rewrite substitution_plain.
  - destruct skip; cbn [replace_scan replace_lit]; [|apply IH].
    rewrite exec_at_lit. destruct (startsWith (c :: s) v).
    + cbn [m_text]. rewrite substitution_plain by assumption.
      rewrite IH. reflexivity.
    + now rewrite IH.
Qed.

Lemma replace_scan_no_match (r : regex) (tpl : jstring) :
  forall s skip bef,
    scan r skip bef s = [] -> replace_scan r tpl skip bef s = skipn skip s.
Proof.
  induction s as [|c s IH]; intros skip bef H.
  - destruct skip; simpl in *; [|reflexivity].
    destruct (exec_at r bef []); [discriminate | reflexivity].
  - destruct skip; cbn [scan replace_scan skipn] in *.
    + destruct (exec_at r bef (c :: s)); [discriminate|].
      now rewrite IH.
    + now apply IH.
Qed.

Lemma replaceValue_content (st st' : Rewrite) (v n : jstring) :
  replaceValue st (v, n) = Some st' ->
  ~ In "$"%char n ->
  rw_content st' = replace_lit v (wrapper n) 0 (rw_content st).
Proof.
  unfold replaceValue. rewrite RegExp_escapeRegExp. intros H Hn.
  assert (Hw : ~ In "$"%char (wrapper n)).
  { unfold wrapper. rewrite !in_app_iff. simpl.
    intros [[H1 | [H1 | [H1 | [H1 | []]]]] | [H1 | [H1 | []]]];
      try discriminate H1. contradiction. }
  destruct (matchAll (lit v) (rw_content st)) as [|mr l] eqn:E.
  - injection H as <-. unfold matchAll in E.
    rewrite <- (replace_scan_lit v (wrapper n) Hw _ 0 []).
    now rewrite (replace_scan_no_match _ _ _ _ _ E).
  - injection H as <-. simpl. unfold replaceAll.
    now rewrite (replace_scan_lit v (wrapper n) Hw).
Qed.

(** C5, as stated, fails: [case_css] spells the colour twice in lower case
    and once in upper case.  All three are counted as [#ff0000]; the two
    lower-case ones are replaced, and the classifier run over the
    rewritten text yields [#ff0000] again, from the upper-case one. *)
Lemma replaced_literal_extracted_again :
  let result := main default_options [str "case.css"] case_fs in
  variable_of (snd result) (str "#ff0000") = Some (str "--cv-color-1") /\
  replacements_of (snd result) = Some 2 /\
  fst result = [(str "case.css", case_written)] /\
  map_get (extractValues case_written (str "case.css") (str "all")) (str "#ff0000") =
    Some (mkExtractedValue (str "#ff0000") color
            [mkLocation (str "case.css") 8 (str "unknown")]).
Proof.
  repeat split; vm_compute; reflexivity.
Qed.

(** ** Lines *)

Lemma split_nonempty (sep : ascii) (s : jstring) : split sep s <> [].
Proof.
  destruct s as [|c s]; simpl; [discriminate|].
  destruct (Ascii.eqb c sep); [discriminate|].
  destruct (split sep s); discriminate.
Qed.

Lemma split_app_sep (sep : ascii) (a b : jstring) :
  split sep (a ++ sep :: b) = split sep a ++ split sep b.
Proof.
  induction a as [|c a IH]; simpl.
  - now rewrite Ascii.eqb_refl.
  - destruct (Ascii.eqb c sep); [now rewrite IH|].
    rewrite IH. pose proof (split_nonempty sep a) as Hne.
    destruct (split sep a); [congruence | reflexivity].
Qed.

Lemma split_no_sep (sep : ascii) (s : jstring) :
  ~ In sep s -> split sep s = [s].
Proof.
  induction s as [|c s IH]; intros H; simpl; [reflexivity|].
  destruct (Ascii.eqb c sep) eqn:E.
  - apply Ascii.eqb_eq in E. exfalso. apply H. now left.
  - rewrite IH; [reflexivity|]. intros Hin. apply H. now right.
Qed.

Lemma in_split_no_sep (sep : ascii) (s l : jstring) :
  In l (split sep s) -> ~ In sep l.
Proof.
  revert l. induction s as [|c s IH]; intros l; simpl.
  - intros [<- | []]. auto.
  - destruct (Ascii.eqb c sep) eqn:E.
    + intros [<- | H]; [auto | now apply IH].
    + pose proof (split_nonempty sep s) as Hne.
      destruct (split sep s) as [|l0 ls]; [congruence|].
      intros [<- | H].
      * intros [-> | Hin]; [now rewrite Ascii.eqb_refl in E|].
        apply (IH l0); [now left | assumption].
      * apply IH. now right.
Qed.

(** A text is a line, or a line, a line feed and a text. *)
Lemma first_line (sep : ascii) (s : jstring) :
  ~ In sep s \/ exists a b, s = a ++ sep :: b /\ ~ In sep a.
Proof.
  induction s as [|c s IH]; [left; auto|].
  destruct (Ascii.eqb c sep) eqn:E.
  - apply Ascii.eqb_eq in E as ->. right. exists [], s. auto.
  - assert (Hc : c <> sep) by (intros ->; now rewrite Ascii.eqb_refl in E).
    destruct IH as [H | (a & b & -> & Ha)].
    + left. intros [-> | Hin]; [congruence | auto].
    + right. exists (c :: a), b. split; [reflexivity|].
      intros [-> | Hin]; [congruence | auto].
Qed.

Lemma split_join (sep : ascii) (ls : list jstring) :
  ls <> [] -> (forall l, In l ls -> ~ In sep l) ->
  split sep (join [sep] ls) = ls.
Proof.
  induction ls as [|l ls IH]; intros Hne Hall; [congruence|].
  destruct ls as [|l' ls].
  - simpl. apply split_no_sep. apply Hall. now left.
  - change (join [sep] (l :: l' :: ls)) with (l ++ sep :: join [sep] (l' :: ls)).
    rewrite split_app_sep, IH.
    + rewrite split_no_sep; [reflexivity|]. apply Hall. now left.
    + discriminate.
    + intros x Hx. apply Hall. now right.
Qed.

(** ** Replacing a literal, line by line *)

Lemma includes_app_r (a b x : jstring) :
  includes b x = true -> includes (a ++ b) x = true.
Proof.
  rewrite !includes_app. intros (p & q & ->).
  exists (a ++ p), q. now rewrite <- !app_assoc.
Qed.

Lemma startsWith_length (s p : jstring) :
  startsWith s p = true -> length p <= length s.
Proof.
  intros H. apply startsWith_app in H as [t ->]. rewrite length_app. lia.
Qed.

(** A literal without a line feed starts a text exactly when it starts
    the first line of the text. *)
Lemma startsWith_first_line (sep : ascii) (a b v : jstring) :
  ~ In sep v ->
  startsWith (a ++ sep :: b) v = startsWith a v.
Proof.
  revert a. induction v as [|x v IH]; intros a Hv; [reflexivity|].
  destruct a as [|c a]; simpl.
  - destruct (Ascii.eqb x sep) eqn:E; [|reflexivity].
    apply Ascii.eqb_eq in E. exfalso. apply Hv. now left.
  - rewrite IH; [reflexivity|]. intros Hin. apply Hv. now right.
Qed.

Lemma replace_lit_first_line (sep : ascii) (v w b : jstring) :
  ~ In sep v ->
  forall a skip,
    skip <= length a ->
    replace_lit v w skip (a ++ sep :: b) =
    replace_lit v w skip a ++ sep :: replace_lit v w 0 b.
Proof.
  intros Hv. induction a as [|c a IH]; intros skip Hskip.
  - simpl in Hskip. assert (skip = 0) as -> by lia.
    pose proof (startsWith_first_line sep [] b v Hv) as E.
    cbn [app] in E. cbn [app replace_lit]. rewrite E.
    destruct (startsWith [] v) eqn:E'.
    + destruct v as [|x v]; [|discriminate E']. simpl.
      now rewrite <- app_assoc.
    + reflexivity.
  - destruct skip as [|n].
    + pose proof (startsWith_first_line sep (c :: a) b v Hv) as E.
      cbn [app] in E. cbn [app replace_lit]. rewrite E.
      destruct (startsWith (c :: a) v) eqn:E'.
      * rewrite IH.
        -- now rewrite <- !app_assoc.
        -- apply startsWith_length in E'. simpl in E'. lia.
      * rewrite IH by lia. reflexivity.
    + cbn [app replace_lit]. apply IH. simpl in Hskip. lia.
Qed.

Lemma replace_lit_chars (v w : jstring) (x : ascii) :
  forall s skip, In x (replace_lit v w skip s) -> In x s \/ In x w.
Proof.
  induction s as [|c s IH]; intros skip H.
  - destruct skip; simpl in H; [|contradiction].
    destruct (startsWith [] v); [|contradiction].
    rewrite app_nil_r in H. now right.
  - destruct skip as [|n]; cbn [replace_lit] in H.
    + destruct (startsWith (c :: s) v).
      * apply in_app_or in H as [H | H]; [now right|].
        apply in_app_or in H as [H | H].
        -- destruct (length v); [|contradiction].
           destruct H as [<- | []]. left. now left.
        -- apply IH in H as [H | H]; [left; now right | now right].
      * destruct H as [<- | H]; [left; now left|].
        apply IH in H as [H | H]; [left; now right | now right].
    + apply IH in H as [H | H]; [left; now right | now right].
Qed.

Lemma split_replace_lit (sep : ascii) (v w : jstring) :
  ~ In sep v -> ~ In sep w ->
  forall s,
    split sep (replace_lit v w 0 s) = map (replace_lit v w 0) (split sep s).
Proof.
  intros Hv Hw s.
  assert (Hline : forall a, ~ In sep a ->
            split sep (replace_lit v w 0 a) = [replace_lit v w 0 a]).
  { intros a Ha. apply split_no_sep. intros Hin.
    apply replace_lit_chars in Hin as [Hin | Hin]; contradiction. }
  remember (length s) as n eqn:Hn. revert s Hn.
  induction n as [n IH] using lt_wf_ind. intros s Hn.
  destruct (first_line sep s) as [Hs | (a & b & -> & Ha)].
  - rewrite (split_no_sep sep s Hs). simpl. now apply Hline.
  - rewrite (replace_lit_first_line sep v w b Hv a 0) by lia.
    rewrite !split_app_sep, (Hline a Ha), (split_no_sep sep a Ha). simpl.
    f_equal. apply (IH (length b)); [|reflexivity].
    rewrite Hn, length_app. simpl. lia.
Qed.

(** A replacement leaves a text as it is, when the literal does not occur
    in it, or puts the new text into it. *)
Lemma replace_lit_cases (v w : jstring) :
  forall s skip,
    (v = [] -> skip = 0) ->
    includes (replace_lit v w skip s) w = true \/
    (replace_lit v w skip s = skipn skip s /\ includes (skipn skip s) v = false).
Proof.
  assert (Hw : forall b, includes (w ++ b) w = true).
  { intros b. apply includes_app. now exists [], b. }
  induction s as [|c s IH]; intros skip Hskip.
  - destruct skip as [|n]; cbn [replace_lit skipn includes].
    + destruct (startsWith [] v) eqn:E.
      * left. apply Hw.
      * right. split; reflexivity.
    + right. split; [reflexivity|].
      destruct v; [specialize (Hskip eq_refl); discriminate | reflexivity].
  - destruct skip as [|n]; cbn [replace_lit skipn].
    + destruct (startsWith (c :: s) v) eqn:E.
      * left. apply Hw.
      * destruct (IH 0 (fun _ => eq_refl)) as [H | [H1 H2]].
        -- left. now apply (includes_app_r [c]).
        -- right. cbn [skipn] in H1, H2. rewrite H1. split; [reflexivity|].
           cbn [includes]. now rewrite E, H2.
    + apply IH. intros ->. specialize (Hskip eq_refl). discriminate.
Qed.

(** ** Extracted values are pieces of their line *)

Lemma Matches_caps (r : regex) (st st' : mstate) :
  Matches r st st' ->
  forall n t, In (n, t) (ms_caps st') ->
              In (n, t) (ms_caps st) \/ incl t (ms_rest st).
Proof.
  induction 1; intros k u Hin; simpl in *; auto.
  - destruct (IHMatches2 k u Hin) as [H1' | H1'].
    + now apply IHMatches1.
    + right. apply Matches_rest in H as (t & -> & _).
      intros x Hx. apply in_or_app. right. now apply H1'.
  - destruct Hin as [Heq | Hin].
    + injection Heq as <- <-. right. unfold consumed. intros x Hx.
      rewrite <- (firstn_skipn (length (ms_rest st) - length (ms_rest st'))
                    (ms_rest st)).
      apply in_or_app. now left.
    + now apply IHMatches.
Qed.

Lemma exec_at_group (r : regex) (bef s : jstring) (mr : rmatch) (n : nat) :
  exec_at r bef s = Some mr -> incl (group n mr) s.
Proof.
  intros H. apply exec_at_sound in H as (st' & HM & ->).
  unfold group. simpl.
  destruct (assoc_nat n (ms_caps st')) as [v|] eqn:E; [|intros x []].
  assert (Hin : In (n, v) (ms_caps st')).
  { clear HM. induction (ms_caps st') as [|[i w] l IH]; simpl in E; [discriminate|].
    destruct (Nat.eqb i n) eqn:Ei.
    - apply Nat.eqb_eq in Ei as ->. injection E as ->. now left.
    - right. now apply IH. }
  apply (Matches_caps _ _ _ HM) in Hin as [[] | Hin]. exact Hin.
Qed.

Lemma matchAll_group (r : regex) (s : jstring) (mr : rmatch) (n : nat) :
  In mr (matchAll r s) -> incl (group n mr) s.
Proof.
  intros H. apply scan_sound in H as (s1 & s2 & -> & _ & Hex).
  intros x Hx. apply in_or_app. right. revert x Hx.
  eapply exec_at_group. eassumption.
Qed.

Lemma matchAll_text (r : regex) (s : jstring) (mr : rmatch) :
  In mr (matchAll r s) -> incl (m_text mr) s.
Proof.
  intros H. apply matchAll_substring in H as (a & b & ->).
  intros x Hx. apply in_or_app. right. apply in_or_app. now left.
Qed.

Lemma replace_scan_chars (r : regex) (tpl : jstring) (x : ascii) :
  ~ In "$"%char tpl ->
  forall s skip bef, In x (replace_scan r tpl skip bef s) -> In x s \/ In x tpl.
Proof.
  intros Htpl. induction s as [|c s IH]; intros skip bef H.
  - destruct skip; simpl in H; [|contradiction].
    destruct (exec_at r bef []); [|contradiction].
    rewrite app_nil_r, substitution_plain in H by assumption. now right.
  - destruct skip as [|n]; cbn [replace_scan] in H.
    + destruct (exec_at r bef (c :: s)) as [mr|].
      * rewrite substitution_plain in H by assumption.
        apply in_app_or in H as [H | H]; [now right|].
        apply in_app_or in H as [H | H].
        -- destruct (length (m_text mr)); [|contradiction].
           destruct H as [<- | []]. left. now left.
        -- apply IH in H as [H | H]; [left; now right | now right].
      * destruct H as [<- | H]; [left; now left|].
        apply IH in H as [H | H]; [left; now right | now right].
    + apply IH in H as [H | H]; [left; now right | now right].
Qed.

Lemma lower_char_LF (c : ascii) : lower_char c = LF -> c = LF.
Proof.
  destruct c as [[] [] [] [] [] [] [] []]; vm_compute; congruence.
Qed.

Lemma toLowerCase_LF (s : jstring) : ~ In LF s -> ~ In LF (toLowerCase s).
Proof.
  intros H Hin. apply in_map_iff in Hin as (c & Hc & Hin).
  apply lower_char_LF in Hc as ->. contradiction.
Qed.

Lemma trimStart_incl (s : jstring) : incl (trimStart s) s.
Proof.
  induction s as [|c s IH]; simpl; [intros x []|].
  destruct (is_space c); [|apply incl_refl].
  intros x Hx. right. now apply IH.
Qed.

Lemma trim_incl (s : jstring) : incl (trim s) s.
Proof.
  unfold trim, trimEnd. intros x Hx.
  apply in_rev, trimStart_incl, in_rev, trimStart_incl in Hx. exact Hx.
Qed.

Lemma no_LF_incl (a b : jstring) : incl a b -> ~ In LF b -> ~ In LF a.
Proof.
  intros H Hb Ha. apply Hb, H, Ha.
Qed.

Lemma in_spacings_text (ln prop v : jstring) :
  In v (spacings ln prop) -> incl v ln.
Proof.
  unfold spacings. rewrite in_flat_map. intros (mr & Hmr & Hv).
  apply in_spacingOf in Hv as (-> & _).
  pose proof (matchAll_text _ _ _ Hmr) as Htext.
  apply scan_sound in Hmr as (s1 & s2 & _ & _ & Hex).
  apply spacing_exec_sound in Hex as (_ & _ & <-). exact Htext.
Qed.

(** The value of every call made for a line has no line feed, as the line
    has none. *)
Lemma lineCalls_no_LF (sc ln : jstring) (c : Call) :
  ~ In LF ln -> In c (lineCalls sc ln) -> ~ In LF (c_value c).
Proof.
  intros Hln Hin.
  assert (Hspaces : forall mr r, In mr (matchAll r ln) ->
            ~ In LF (replaceAll SPACES (str " ") (m_text mr))).
  { intros mr r Hmr Hx. apply replace_scan_chars in Hx as [Hx | Hx].
    - apply Hln. eapply matchAll_text; eassumption.
    - destruct Hx as [Hx | []]. discriminate Hx.
    - intros [Hd | []]. discriminate Hd. }
  assert (Hlower : forall mr r, In mr (matchAll r ln) ->
            ~ In LF (toLowerCase (m_text mr))).
  { intros mr r Hmr. apply toLowerCase_LF.
    eapply no_LF_incl; [eapply matchAll_text; eassumption | assumption]. }
  apply in_lineCalls in Hin as (_ & _ & [H | [H | H]]).
  - destruct H as (_ & _ & H).
    apply in_app_or in H as [H | H]; [|apply in_app_or in H as [H | H];
      [|apply in_app_or in H as [H | H]]].
    + apply in_map_iff in H as (mr & <- & Hmr). eapply Hlower; eassumption.
    + apply in_map_iff in H as (mr & <- & Hmr). eapply Hspaces; eassumption.
    + apply in_map_iff in H as (mr & <- & Hmr). eapply Hspaces; eassumption.
    + unfold namedColors in H.
      destruct (test COLOR_PROPERTY (propertyOf ln)); [|contradiction].
      apply in_map_iff in H as (mr & <- & Hmr). eapply Hlower; eassumption.
  - destruct H as (_ & _ & H).
    eapply no_LF_incl; [eapply in_spacings_text; eassumption | assumption].
  - destruct H as (_ & _ & H). unfold fonts in H.
    apply in_flat_map in H as (mr & Hmr & H). unfold fontOf in H.
    destruct (2 <? length (trim (group 1 mr))); [|contradiction].
    destruct H as [<- | []].
    eapply no_LF_incl; [apply trim_incl|].
    eapply no_LF_incl; [eapply matchAll_group; eassumption | assumption].
Qed.

Lemma lineDiscoveries_no_LF (fl sc : jstring) (d : Discovery) :
  forall lines lineNum,
    (forall ln, In ln lines -> ~ In LF ln) ->
    In d (lineDiscoveries lines lineNum fl sc) -> ~ In LF (d_value d).
Proof.
  induction lines as [|ln lines IH]; intros lineNum Hlines H; simpl in H;
    [contradiction|].
  apply in_app_or in H as [H | H].
  - apply in_map_iff in H as (c & <- & Hc). simpl.
    apply (lineCalls_no_LF sc ln); [apply Hlines; now left | assumption].
  - apply (IH (S lineNum)); [|assumption]. intros l Hl. apply Hlines. now right.
Qed.

Lemma discoveries_no_LF (fs : FS) (sc : jstring) (cssFiles : list jstring)
    (d : Discovery) :
  In d (discoveries fs sc cssFiles) -> ~ In LF (d_value d).
Proof.
  unfold discoveries. rewrite in_flat_map. intros (f & _ & H).
  destruct (readFileSync fs f) as [content|]; [|contradiction].
  apply (lineDiscoveries_no_LF f sc d (split LF content) 0); [|assumption].
  intros ln. apply in_split_no_sep.
Qed.

(** The literals of a run have no line feed. *)
Lemma aggregate_no_LF (fs : FS) (sc : jstring) (cssFiles : list jstring)
    (allValues : Map ExtractedValue) (v : jstring) :
  aggregate fs sc cssFiles [] = inr allValues ->
  In v (keys allValues) -> ~ In LF v.
Proof.
  intros Hagg Hv.
  pose proof (aggregate_summary fs sc cssFiles [] allValues []
                (fun _ => eq_refl) Hagg v) as Hget.
  unfold summary in Hget. simpl in Hget.
  destruct (occurrences_of v (discoveries fs sc cssFiles)) as [|d occ] eqn:E.
  - apply map_get_None in Hget. contradiction.
  - assert (Hd : In d (occurrences_of v (discoveries fs sc cssFiles)))
      by (rewrite E; now left).
    apply filter_In in Hd as [Hd Hdv]. apply jeqb_true in Hdv as <-.
    eapply discoveries_no_LF. eassumption.
Qed.

(** ** Generated names *)

Lemma string_of_uint_digits (u : Decimal.uint) (c : ascii) :
  In c (str (NilEmpty.string_of_uint u)) -> is_digit c = true.
Proof.
  induction u; simpl; try contradiction;
    (intros [<- | H]; [reflexivity | now apply IHu]).
Qed.

Lemma decimal_digits (n : nat) (c : ascii) : In c (decimal n) -> is_digit c = true.
Proof.
  unfold decimal, NilZero.string_of_uint.
  destruct (Nat.to_uint n) eqn:E;
    try (rewrite <- E; apply string_of_uint_digits).
  simpl. intros [<- | []]. reflexivity.
Qed.

Lemma split_incl (sep : ascii) (s l : jstring) :
  In l (split sep s) -> incl l s.
Proof.
  revert l. induction s as [|c s IH]; intros l; simpl.
  - intros [<- | []]. apply incl_refl.
  - destruct (Ascii.eqb c sep).
    + intros [<- | H]; [intros x [] | apply incl_tl; now apply IH].
    + pose proof (split_nonempty sep s) as Hne.
      destruct (split sep s) as [|l0 ls]; [congruence|].
      intros [<- | H].
      * intros x [<- | Hx]; [now left | right; apply (IH l0); [now left | assumption]].
      * apply incl_tl. apply IH. now right.
Qed.

Lemma first_segment_incl (s : jstring) : incl (first_segment s) s.
Proof.
  unfold first_segment. pose proof (split_incl ","%char s) as H.
  destruct (split ","%char s) as [|x l]; [intros c []|].
  apply H. now left.
Qed.

Lemma replaceAll_no_LF (r : regex) (tpl s : jstring) :
  ~ In "$"%char tpl -> ~ In LF tpl -> ~ In LF s -> ~ In LF (replaceAll r tpl s).
Proof.
  intros Hd Htpl Hs Hin. unfold replaceAll in Hin.
  apply replace_scan_chars in Hin as [Hin | Hin]; auto.
Qed.

Lemma no_LF_app (a b : jstring) : ~ In LF a -> ~ In LF b -> ~ In LF (a ++ b).
Proof.
  intros Ha Hb H. apply in_app_or in H as [H | H]; contradiction.
Qed.

Lemma no_LF_check (s : jstring) :
  forallb (fun c => negb (Ascii.eqb c LF)) s = true -> ~ In LF s.
Proof.
  intros Hs Hin. rewrite forallb_forall in Hs. apply Hs in Hin.
  now rewrite Ascii.eqb_refl in Hin.
Qed.

Lemma generateVarName_no_LF (pre : jstring) (ty : vtype) (v : jstring) (i : nat) :
  ~ In LF pre -> ~ In LF v -> ~ In LF (generateVarName pre ty v i).
Proof.
  intros Hpre Hv.
  assert (Hdash : ~ In "$"%char (str "-"))
    by (intros [H | []]; discriminate H).
  assert (Hdec : forall n, ~ In LF (decimal n)).
  { intros n Hin. apply decimal_digits in Hin. discriminate Hin. }
  assert (Hhead : forall t : string,
            forallb (fun c => negb (Ascii.eqb c LF)) (str t) = true ->
            ~ In LF (str "--" ++ pre ++ str t)).
  { intros t Ht. apply no_LF_app; [apply no_LF_check; reflexivity|].
    apply no_LF_app; [assumption | now apply no_LF_check]. }
  unfold generateVarName. destruct ty; cbn [type_name].
  - destruct (jeqb (toLowerCase v) (str "#fff") || jeqb (toLowerCase v) (str "#ffffff"));
      [now apply Hhead|].
    destruct (jeqb (toLowerCase v) (str "#000") || jeqb (toLowerCase v) (str "#000000"));
      [now apply Hhead|].
    apply no_LF_app.
    + apply no_LF_app; [apply no_LF_check; reflexivity|].
      apply no_LF_app; [assumption|]. apply no_LF_check; reflexivity.
    + apply no_LF_app; [apply no_LF_check; reflexivity | apply Hdec].
  - apply no_LF_app.
    + apply no_LF_app; [apply no_LF_check; reflexivity|].
      apply no_LF_app; [assumption|]. apply no_LF_check; reflexivity.
    + apply no_LF_app; [apply no_LF_check; reflexivity|].
      apply replaceAll_no_LF; [assumption | apply no_LF_check; reflexivity | assumption].
  - apply no_LF_app.
    + apply no_LF_app; [apply no_LF_check; reflexivity|].
      apply no_LF_app; [assumption|]. apply no_LF_check; reflexivity.
    + apply no_LF_app; [apply no_LF_check; reflexivity|].
      apply replaceAll_no_LF; [assumption | apply no_LF_check; reflexivity |].
      apply toLowerCase_LF.
      eapply no_LF_incl; [apply trim_incl|].
      eapply no_LF_incl; [apply first_segment_incl|].
      apply replaceAll_no_LF; [intros [] | intros [] | assumption].
Qed.

Lemma generateVarName_dashes (pre : jstring) (ty : vtype) (v : jstring) (i : nat) :
  exists t, generateVarName pre ty v i = str "--" ++ t.
Proof.
  unfold generateVarName. destruct ty.
  - destruct (jeqb (toLowerCase v) (str "#fff") || jeqb (toLowerCase v) (str "#ffffff"));
      [|destruct (jeqb (toLowerCase v) (str "#000") ||
                 jeqb (toLowerCase v) (str "#000000"))];
      rewrite <- ?app_assoc; eauto.
  - rewrite <- !app_assoc. eauto.
  - rewrite <- !app_assoc. eauto.
Qed.

Lemma in_map_set {V : Type} (mp : Map V) (k k' : jstring) (v v' : V) :
  In (k', v') (map_set mp k v) -> In (k', v') mp \/ (k' = k /\ v' = v).
Proof.
  induction mp as [|[k0 w] mp IH]; simpl.
  - intros [H | []]. injection H as <- <-. auto.
  - destruct (jeqb k0 k) eqn:E.
    + apply jeqb_true in E as ->. intros [H | H]; [|auto].
      injection H as <- <-. auto.
    + intros [H | H]; [auto|]. apply IH in H as [H | H]; auto.
Qed.

(** Every pair of the two maps of names comes from a selected value and
    the name generated for it. *)
Lemma nameLoop_entries (pre : jstring) :
  forall (repeated : Map ExtractedValue) (cs : Counters) (acc : Names)
         (v n : jstring),
    In (v, n) (varMap (nameLoop pre repeated cs acc)) \/
    In (n, v) (rootVars (nameLoop pre repeated cs acc)) ->
    In (v, n) (varMap acc) \/ In (n, v) (rootVars acc) \/
    (In v (keys repeated) /\ exists ty i, n = generateVarName pre ty v i).
Proof.
  induction repeated as [|[k e] repeated IH]; intros cs acc v n H; simpl in H.
  - tauto.
  - destruct (post_increment cs (type e)) as [idx cs'].
    apply IH in H as [H | [H | [H (ty & i & ->)]]]; simpl in H.
    + apply in_map_set in H as [H | [-> ->]]; [auto|].
      right. right. split; [now left | eauto].
    + apply in_map_set in H as [H | [-> ->]]; [auto|].
      right. right. split; [now left | eauto].
    + right. right. split; [now right | eauto].
Qed.

(** ** The rewritten text, line by line *)

Lemma includes_trans (a b c : jstring) :
  includes a b = true -> includes b c = true -> includes a c = true.
Proof.
  rewrite !includes_app. intros (p & q & ->) (p' & q' & ->).
  exists (p ++ p'), (q' ++ q). now rewrite <- !app_assoc.
Qed.

Lemma wrapper_var (n : jstring) : includes (wrapper n) (str "var(") = true.
Proof.
  apply includes_app. exists [], (n ++ str ")"). reflexivity.
Qed.

Lemma wrapper_no_LF (n : jstring) : ~ In LF n -> ~ In LF (wrapper n).
Proof.
  unfold wrapper. rewrite !in_app_iff. simpl.
  intros Hn [[H | [H | [H | [H | []]]]] | [H | [H | []]]];
    try discriminate H. contradiction.
Qed.

(** After the loop over the mapping, every line of a text contains [var(]
    or is as it was and holds none of the literals. *)
Lemma replaceValues_lines :
  forall (vm : Map jstring) (st rw : Rewrite),
    (forall v n, In (v, n) vm -> ~ In "$"%char n /\ ~ In LF n /\ ~ In LF v) ->
    replaceValues vm st = Some rw ->
    exists f : jstring -> jstring,
      split LF (rw_content rw) = map f (split LF (rw_content st)) /\
      forall l,
        includes (f l) (str "var(") = true \/
        (f l = l /\ forall v n, In (v, n) vm -> includes l v = false).
Proof.
  induction vm as [|[v n] vm IH]; intros st rw Hvm H; cbn [replaceValues] in H.
  - injection H as <-. exists (fun l => l). split; [now rewrite map_id|].
    intros l. right. split; [reflexivity|]. intros v n [].
  - destruct (replaceValue st (v, n)) as [st'|] eqn:Hstep; [|discriminate].
    destruct (Hvm v n (or_introl eq_refl)) as (Hd & Hn & Hv).
    apply replaceValue_content in Hstep; [|assumption].
    destruct (IH st' rw) as (f & Hf & Hlines); [|assumption|].
    { intros v' n' Hin. apply Hvm. now right. }
    exists (fun l => f (replace_lit v (wrapper n) 0 l)). split.
    + rewrite Hf, Hstep.
      rewrite (split_replace_lit LF v (wrapper n) Hv (wrapper_no_LF n Hn)).
      now rewrite map_map.
    + intros l.
      destruct (Hlines (replace_lit v (wrapper n) 0 l)) as [Hvar | [Hsame Hnone]];
        [now left|].
      rewrite Hsame.
      destruct (replace_lit_cases v (wrapper n) l 0 (fun _ => eq_refl))
        as [Hw | [Hid Hnot]].
      * left. eapply includes_trans; [exact Hw | apply wrapper_var].
      * right. simpl in Hid, Hnot. split; [exact Hid|].
        intros v' n' [Heq | Hin].
        -- injection Heq as <- <-. exact Hnot.
        -- rewrite <- Hid. eapply Hnone. eassumption.
Qed.

(** *** The lines of the declaration block *)

Lemma lineCalls_nothing (ln : jstring) :
  hexColors ln = [] -> rgbColors ln = [] -> hslColors ln = [] ->
  namedColors ln (propertyOf ln) = [] -> spacings ln (propertyOf ln) = [] ->
  fonts ln = [] ->
  forall sc, lineCalls sc ln = [].
Proof.
  intros H1 H2 H3 H4 H5 H6 sc. unfold lineCalls.
  rewrite H1, H2, H3, H4, H5, H6.
  destruct (skipped ln); [reflexivity|].
  destruct (jeqb sc (str "colors") || jeqb sc (str "all"));
  destruct (jeqb sc (str "spacing") || jeqb sc (str "all"));
  destruct (jeqb sc (str "all")); reflexivity.
Qed.

Lemma trimEnd_keep (y : jstring) (c : ascii) :
  is_space c = false -> trimEnd (y ++ [c]) = y ++ [c].
Proof.
  intros Hc. unfold trimEnd. rewrite rev_app_distr. simpl. rewrite Hc.
  simpl. now rewrite rev_involutive.
Qed.

Lemma declaration_skipped (e : jstring * jstring) (sc : jstring) :
  (exists t, fst e = str "--" ++ t) -> lineCalls sc (declaration e) = [].
Proof.
  intros [t Ht]. apply skip_rules_no_calls. left.
  unfold declaration. rewrite Ht. unfold trim. simpl.
  replace ("-"%char :: "-"%char :: t ++ ":"%char :: " "%char :: snd e ++ [";"%char])
    with (("-"%char :: "-"%char :: t ++ ":"%char :: " "%char :: snd e) ++ [";"%char]).
  - rewrite trimEnd_keep by reflexivity. reflexivity.
  - simpl. rewrite <- app_assoc. reflexivity.
Qed.

Lemma group_entry_members (pre : jstring) (e : jstring * jstring) :
  forall (vars : Map jstring) (g : Grouped),
    let g' := fold_left (group_entry pre) vars g in
    In e (g_color g') \/ In e (g_spacing g') \/ In e (g_font g') ->
    In e vars \/ In e (g_color g) \/ In e (g_spacing g) \/ In e (g_font g).
Proof.
  induction vars as [|x vars IH]; intros g g' H; simpl in *; [tauto|].
  apply IH in H. destruct H as [H | H]; [auto|].
  unfold group_entry in H.
  destruct (includes (fst x) (str "-" ++ pre ++ str "-color")).
  { simpl in H. rewrite in_app_iff in H. simpl in H. intuition. }
  destruct (includes (fst x) (str "-" ++ pre ++ str "-spacing")).
  { simpl in H. rewrite in_app_iff in H. simpl in H. intuition. }
  destruct (includes (fst x) (str "-" ++ pre ++ str "-font")).
  { simpl in H. rewrite in_app_iff in H. simpl in H. intuition. }
  intuition.
Qed.

Lemma in_section (title ln : jstring) (entries : list (jstring * jstring)) :
  In ln (section title entries) ->
  ln = title \/ exists e, In e entries /\ ln = declaration e.
Proof.
  destruct entries as [|e0 entries]; [intros []|].
  unfold section. intros [<- | H]; [now left|].
  apply in_map_iff in H as (e & <- & He). right. eauto.
Qed.

Lemma in_rootBlockLines (vars : Map jstring) (pre ln : jstring) :
  In ln (rootBlockLines vars pre) ->
  In ln [str ":root {"; str "  /* Colors */"; str "  /* Spacing */";
         str "  /* Fonts */"; str "}"] \/
  exists e, In e vars /\ ln = declaration e.
Proof.
  unfold rootBlockLines. intros H.
  assert (Hmem : forall e,
    In e (g_color (fold_left (group_entry pre) vars (mkGrouped [] [] []))) \/
    In e (g_spacing (fold_left (group_entry pre) vars (mkGrouped [] [] []))) \/
    In e (g_font (fold_left (group_entry pre) vars (mkGrouped [] [] []))) ->
    In e vars).
  { intros e He. apply group_entry_members in He. simpl in He. tauto. }
  apply in_app_or in H as [H | H]; [left; simpl in *; tauto|].
  apply in_app_or in H as [H | H].
  { apply in_section in H as [-> | (e & He & ->)]; [left; simpl; tauto|].
    right. exists e. split; [apply Hmem; auto | reflexivity]. }
  apply in_app_or in H as [H | H].
  { apply in_section in H as [-> | (e & He & ->)]; [left; simpl; tauto|].
    right. exists e. split; [apply Hmem; auto | reflexivity]. }
  apply in_app_or in H as [H | H].
  { apply in_section in H as [-> | (e & He & ->)]; [left; simpl; tauto|].
    right. exists e. split; [apply Hmem; auto | reflexivity]. }
  left. simpl in *. tauto.
Qed.

Lemma rootBlockLines_nonempty (vars : Map jstring) (pre : jstring) :
  rootBlockLines vars pre <> [].
Proof.
  unfold rootBlockLines. simpl. discriminate.
Qed.

Lemma declaration_no_LF (e : jstring * jstring) :
  ~ In LF (fst e) -> ~ In LF (snd e) -> ~ In LF (declaration e).
Proof.
  unfold declaration. rewrite !in_app_iff. simpl.
  intros H1 H2 [[H | [H | []]] | [H | [[H | [H | []]] | [H | [H | []]]]]];
    try discriminate H; contradiction.
Qed.

(** Every line of a rewritten text yields no extraction, or is a line of
    the original text that holds none of the replaced literals. *)
Lemma written_line_cases (fs : FS) (sc : jstring) (cssFiles : list jstring)
    (allValues : Map ExtractedValue) (mn : jsnum) (pre content : jstring)
    (total : nat) (rw : Rewrite) (ln : jstring) :
  let names := generateNames pre (selectRepeated mn allValues) in
  aggregate fs sc cssFiles [] = inr allValues ->
  ~ In LF pre ->
  (forall v n, In (v, n) (varMap names) -> ~ In "$"%char n) ->
  replaceValues (varMap names) (mkRewrite content total false) = Some rw ->
  In ln (split LF (withRootBlock (generateRootBlock (rootVars names) pre)
                                 (rw_content rw))) ->
  (forall sc', lineCalls sc' ln = []) \/
  (In ln (split LF content) /\
   forall v n, In (v, n) (varMap names) -> includes ln v = false).
Proof.
  intros names Hagg Hpre Hdollar Hrw Hln.
  assert (Hentries : forall v n,
            In (v, n) (varMap names) \/ In (n, v) (rootVars names) ->
            ~ In LF v /\ ~ In LF n /\ exists t, n = str "--" ++ t).
  { intros v n H. apply nameLoop_entries in H as [[] | [[] | [Hv (ty & i & ->)]]].
    assert (Hvl : ~ In LF v).
    { apply (aggregate_no_LF fs sc cssFiles allValues v Hagg).
      unfold keys in *. apply in_map_iff in Hv as (e & <- & He).
      apply filter_In in He as [He _]. now apply in_map. }
    split; [exact Hvl|]. split.
    - now apply generateVarName_no_LF.
    - apply generateVarName_dashes. }
  assert (Hcontent : forall l, In l (split LF (rw_content rw)) ->
            (forall sc', lineCalls sc' l = []) \/
            (In l (split LF content) /\
             forall v n, In (v, n) (varMap names) -> includes l v = false)).
  { destruct (replaceValues_lines (varMap names)
                (mkRewrite content total false) rw) as (f & Hf & Hlines);
      [|exact Hrw|].
    { intros v n Hin. destruct (Hentries v n (or_introl Hin)) as (Hv & Hn & _).
      split; [now apply (Hdollar v n) | auto]. }
    simpl in Hf. intros l Hl. rewrite Hf in Hl.
    apply in_map_iff in Hl as (l0 & <- & Hl0).
    destruct (Hlines l0) as [Hvar | [Hsame Hnone]].
    - left. intros sc'. apply skip_rules_no_calls. auto.
    - right. rewrite Hsame. auto. }
  unfold withRootBlock in Hln.
  destruct (includes (rw_content rw) (str ":root")); [now apply Hcontent|].
  change (generateRootBlock (rootVars names) pre ++ [LF; LF] ++ rw_content rw)
    with (generateRootBlock (rootVars names) pre ++ LF :: (LF :: rw_content rw))
    in Hln.
  rewrite split_app_sep in Hln.
  change (LF :: rw_content rw) with ([] ++ LF :: rw_content rw) in Hln.
  rewrite split_app_sep in Hln. simpl in Hln.
  apply in_app_or in Hln as [Hln | [<- | Hln]].
  - left. unfold generateRootBlock in Hln.
    rewrite split_join in Hln.
    + apply in_rootBlockLines in Hln as [Hln | (e & He & ->)].
      * simpl in Hln.
        destruct Hln as [<- | [<- | [<- | [<- | [<- | []]]]]];
          apply lineCalls_nothing; vm_compute; reflexivity.
      * intros sc'. apply declaration_skipped.
        destruct e as [n v]. simpl.
        now destruct (Hentries v n (or_intror He)) as (_ & _ & Ht).
    + apply rootBlockLines_nonempty.
    + intros l Hl. apply in_rootBlockLines in Hl as [Hl | (e & He & ->)].
      * simpl in Hl.
        destruct Hl as [<- | [<- | [<- | [<- | [<- | []]]]]];
          vm_compute; intuition discriminate.
      * destruct e as [n v].
        destruct (Hentries v n (or_intror He)) as (Hv & Hn & _).
        now apply declaration_no_LF.
  - left. apply lineCalls_nothing; reflexivity.
  - now apply Hcontent.
Qed.


(** Where the classifier finds a value in a text: on the line its
    location names, by a call made for that line. *)
Lemma lineDiscoveries_line (fl sc : jstring) (d : Discovery) :
  forall lines lineNum,
    In d (lineDiscoveries lines lineNum fl sc) ->
    exists ln c,
      nth_error lines (line (d_location d) - lineNum - 1) = Some ln /\
      In c (lineCalls sc ln) /\ c_value c = d_value d.
Proof.
  induction lines as [|ln lines IH]; intros lineNum H; simpl in H; [contradiction|].
  apply in_app_or in H as [H | H].
  - apply in_map_iff in H as (c & <- & Hc). simpl.
    exists ln, c. replace (lineNum + 1 - lineNum - 1) with 0 by lia. auto.
  - pose proof (lineDiscoveries_place _ _ _ _ _ H) as [Hlt _].
    apply IH in H as (l & c & Hnth & Hc & Hv). exists l, c.
    replace (line (d_location d) - lineNum - 1)
      with (S (line (d_location d) - S lineNum - 1)) by lia.
    auto.
Qed.

Lemma extractValues_location (content fl sc v : jstring) (e : ExtractedValue)
    (loc : Location) :
  map_get (extractValues content fl sc) v = Some e ->
  In loc (locations e) ->
  exists ln c,
    nth_error (split LF content) (line loc - 1) = Some ln /\
    In c (lineCalls sc ln) /\ c_value c = v.
Proof.
  intros He Hloc. rewrite extractValues_summary in He. unfold summary in He.
  assert (Hd : exists d, In d (occurrences_of v (fileDiscoveries content fl sc)) /\
                         d_location d = loc).
  { destruct (occurrences_of v (fileDiscoveries content fl sc)) as [|d0 occ];
      [discriminate|].
    injection He as <-. cbn [locations] in Hloc.
    change (In loc (map d_location (d0 :: occ))) in Hloc.
    apply in_map_iff in Hloc as (d & Hd & Hin). eauto. }
  destruct Hd as (d & Hd & <-). apply filter_In in Hd as [Hd Hv].
  apply jeqb_true in Hv as <-.
  apply lineDiscoveries_line in Hd as (ln & c & Hnth & Hc & Hcv).
  exists ln, c. rewrite Nat.sub_0_r in Hnth. auto.
Qed.

(** C5, as the code has it.  Take a run whose prefix has no line feed and
    none of whose generated names contains a [$], and any text rewritten
    with the run's mapping and given the declaration block.  Every line of
    the result yields no extraction at all (it contains [var(], or belongs
    to the injected block, or had none before), or it is a line of the
    original text in which none of the replaced literals occurs as it is
    written in the mapping.  So wherever the classifier, run over the
    rewritten text, finds a replaced literal, it finds it on a line the
    rewriter left as it was, where the literal is spelled differently. *)
Theorem rewritten_lines (fs : FS) (sc : jstring) (cssFiles : list jstring)
    (allValues : Map ExtractedValue) (mn : jsnum) (pre content : jstring)
    (total : nat) (rw : Rewrite) :
  let names := generateNames pre (selectRepeated mn allValues) in
  let written := withRootBlock (generateRootBlock (rootVars names) pre)
                               (rw_content rw) in
  aggregate fs sc cssFiles [] = inr allValues ->
  ~ In LF pre ->
  (forall v n, In (v, n) (varMap names) -> ~ In "$"%char n) ->
  replaceValues (varMap names) (mkRewrite content total false) = Some rw ->
  (forall ln,
     In ln (split LF written) ->
     (forall sc', lineCalls sc' ln = []) \/
     (In ln (split LF content) /\
      forall v n, In (v, n) (varMap names) -> includes ln v = false)) /\
  (forall sc' filePath v n e loc,
     In (v, n) (varMap names) ->
     map_get (extractValues written filePath sc') v = Some e ->
     In loc (locations e) ->
     exists ln,
       nth_error (split LF written) (line loc - 1) = Some ln /\
       In ln (split LF content) /\ includes ln v = false).
Proof.
  intros names written Hagg Hpre Hdollar Hrw.
  assert (Hlines : forall ln,
     In ln (split LF written) ->
     (forall sc', lineCalls sc' ln = []) \/
     (In ln (split LF content) /\
      forall v n, In (v, n) (varMap names) -> includes ln v = false)).
  { intros ln. eapply written_line_cases; eassumption. }
  split; [exact Hlines|].
  intros sc' filePath v n e loc Hvn He Hloc.
  destruct (extractValues_location _ _ _ _ _ _ He Hloc) as (ln & c & Hnth & Hc & _).
  exists ln. split; [exact Hnth|].
  destruct (Hlines ln (nth_error_In _ _ Hnth)) as [Hnone | [Hin Hnot]].
  - rewrite Hnone in Hc. contradiction.
  - split; [exact Hin | eapply Hnot; eassumption].
Qed.

Lemma rewritten_lines_witness :
  aggregate case_fs (str "all") [str "case.css"] [] = inr case_all /\
  ~ In LF (str "cv") /\
  (forall v n, In (v, n) (varMap case_names) -> ~ In "$"%char n) /\
  replaceValues (varMap case_names) (mkRewrite case_css 0 false) = Some case_rewrite /\
  In (str "a { color: var(--cv-color-1); }")
     (split LF (withRootBlock (generateRootBlock (rootVars case_names) (str "cv"))
                              (rw_content case_rewrite))) /\
  ((forall sc', lineCalls sc' (str "a { color: var(--cv-color-1); }") = []) \/
   (In (str "a { color: var(--cv-color-1); }") (split LF case_css) /\
    forall v n, In (v, n) (varMap case_names) ->
                includes (str "a { color: var(--cv-color-1); }") v = false)).
Proof.
  assert (H1 : aggregate case_fs (str "all") [str "case.css"] [] = inr case_all)
    by (vm_compute; reflexivity).
  assert (H2 : ~ In LF (str "cv"))
    by (intros [H | [H | []]]; discriminate H).
  assert (H3 : forall v n, In (v, n) (varMap case_names) -> ~ In "$"%char n).
  { intros v n Hin. vm_compute in Hin. destruct Hin as [Hin | []].
    injection Hin as <- <-. vm_compute.
    intros H. repeat (destruct H as [H | H]; [discriminate H|]). exact H. }
  assert (H4 : replaceValues (varMap case_names) (mkRewrite case_css 0 false)
               = Some case_rewrite) by (vm_compute; reflexivity).
  assert (H5 : In (str "a { color: var(--cv-color-1); }")
     (split LF (withRootBlock (generateRootBlock (rootVars case_names) (str "cv"))
                              (rw_content case_rewrite))))
    by (vm_compute; do 5 right; left; reflexivity).
  split; [exact H1|]. split; [exact H2|]. split; [exact H3|].
  split; [exact H4|]. split; [exact H5|].
  exact (proj1 (rewritten_lines case_fs (str "all") [str "case.css"] case_all (Num 2)
                  (str "cv") case_css 0 case_rewrite H1 H2 H3 H4) _ H5).
Defined.

(** ** The examples of the specification *)

(** Example 1: [color: #FF0000;] is classified as a colour, with the
    value in lower case. *)
Example example_hex_lowercase :
  lineCalls (str "all") (str "color: #FF0000;")
  = [mkCall (str "#ff0000") color (str "color")].
Proof. vm_compute. reflexivity. Qed.

(** Example 2: [margin: 16px;] three times over two files, threshold 2,
    scope [spacing]. *)
Example example_spacing_run :
  let fs := [ (str "a.css", text [ "margin: 16px;"; "margin: 16px;" ]%string);
              (str "b.css", text [ "margin: 16px;" ]%string) ] in
  let opts := mkCliOptions true (Num 2) (str "spacing") (str "cv") false false in
  option_map (fun r => (map (fun e => (ex_value e, ex_variable e, ex_occurrences e))
                            (rp_extractions r),
                        rp_rootBlock r))
             (report_of (snd (main opts [str "a.css"; str "b.css"] fs)))
  = Some ([(str "16px", Some (str "--cv-spacing-16px"), 3)],
          text [ ":root {"; "  /* Spacing */"; "  --cv-spacing-16px: 16px;"; "}" ]%string).
Proof. vm_compute. reflexivity. Qed.

(** Example 4: a line that refers to a variable yields nothing. *)
Example example_var_reference :
  lineCalls (str "all") (str "background: var(--existing);") = [].
Proof. vm_compute. reflexivity. Qed.

(* ===================================================================== *)
(** * Further properties *)
(* ===================================================================== *)

(** ** The command line *)

Lemma option_word_dash (arg : jstring) :
  startsWith arg (str "-") = false ->
  jeqb arg (str "--help") || jeqb arg (str "-h") = false /\
  jeqb arg (str "--dry-run") = false /\ jeqb arg (str "--json") = false /\
  jeqb arg (str "--min") = false /\ jeqb arg (str "--scope") = false /\
  jeqb arg (str "--prefix") = false.
Proof.
  intros H.
  assert (Hne : forall w, startsWith w (str "-") = true -> jeqb arg w = false).
  { intros w Hw. apply jeqb_false. intros ->. congruence. }
  rewrite !Hne by reflexivity. auto 7.
Qed.

(** The paths the loop collects are the ones it had and the arguments
    that do not start with a hyphen. *)
Lemma parseLoop_paths (p : jstring) :
  forall n argv acc,
    length argv <= n ->
    In p (paths (parseLoop argv acc)) ->
    In p (paths acc) \/ (In p argv /\ startsWith p (str "-") = false).
Proof.
  induction n as [|n IH]; intros argv acc Hlen Hin.
  - destruct argv; [now left | simpl in Hlen; lia].
  - destruct argv as [|arg rest]; [now left|].
    simpl in Hlen. cbn [parseLoop] in Hin.
    assert (Hrest : forall acc',
              paths acc' = paths acc ->
              In p (paths (parseLoop rest acc')) ->
              In p (paths acc) \/
              (In p (arg :: rest) /\ startsWith p (str "-") = false)).
    { intros acc' Hacc H. apply IH in H; [|lia]. rewrite Hacc in H.
      destruct H as [H | [H1 H2]]; [now left | right; split; [now right | assumption]]. }
    assert (Hvalue : forall acc',
              paths acc' = paths acc ->
              In p (paths match rest with
                          | _ :: rest' => parseLoop rest' acc'
                          | [] => acc'
                          end) ->
              In p (paths acc) \/
              (In p (arg :: rest) /\ startsWith p (str "-") = false)).
    { intros acc' Hacc H. destruct rest as [|x rest'].
      - rewrite Hacc in H. now left.
      - apply IH in H; [|simpl in Hlen; lia]. rewrite Hacc in H.
        destruct H as [H | [H1 H2]]; [now left|].
        right. split; [right; now right | assumption]. }
    destruct (jeqb arg (str "--help") || jeqb arg (str "-h"));
      [refine (Hrest _ _ Hin); reflexivity|].
    destruct (jeqb arg (str "--dry-run")); [refine (Hrest _ _ Hin); reflexivity|].
    destruct (jeqb arg (str "--json")); [refine (Hrest _ _ Hin); reflexivity|].
    destruct (jeqb arg (str "--min")); [refine (Hvalue _ _ Hin); reflexivity|].
    destruct (jeqb arg (str "--scope")); [refine (Hvalue _ _ Hin); reflexivity|].
    destruct (jeqb arg (str "--prefix")); [refine (Hvalue _ _ Hin); reflexivity|].
    destruct (startsWith arg (str "-")) eqn:Hdash; [refine (Hrest _ _ Hin); reflexivity|].
    apply IH in Hin; [|lia]. simpl in Hin.
    destruct Hin as [Hin | [H1 H2]].
    + apply in_app_or in Hin as [Hin | [<- | []]]; [now left|].
      right. split; [now left | assumption].
    + right. split; [now right | assumption].
Qed.

(** X1.  [parseArgs] never returns an empty list of paths: each path is
    an argument that does not start with a hyphen, or it is the current
    directory, which is the only path when no argument was kept. *)
Theorem parseArgs_paths (argv : list jstring) :
  paths (parseArgs argv) <> [] /\
  (forall p, In p (paths (parseArgs argv)) ->
             (In p argv /\ startsWith p (str "-") = false) \/
             (p = str "." /\ paths (parseArgs argv) = [str "."])).
Proof.
  unfold parseArgs.
  destruct (paths (parseLoop argv (mkParsedArgs [] default_options)))
    as [|p0 ps] eqn:E.
  - simpl. split; [discriminate|]. intros p [<- | []]. now right.
  - split; [rewrite E; discriminate|]. intros p Hp.
    apply (parseLoop_paths p (length argv)) in Hp; [|lia].
    destruct Hp as [[] | Hp]. now left.
Qed.

Lemma parseLoop_plain :
  forall argv acc,
    (forall a, In a argv ->
       ~ In a (map str ["--help"; "-h"; "--dry-run"; "--json"; "--min";
                        "--scope"; "--prefix"]%string)) ->
    parseLoop argv acc =
    mkParsedArgs
      (paths acc ++ filter (fun a => negb (startsWith a (str "-"))) argv)
      (options acc).
Proof.
  induction argv as [|arg rest IH]; intros acc H.
  - simpl. rewrite app_nil_r. now destruct acc.
  - assert (Harg : forall w,
              In w (map str ["--help"; "-h"; "--dry-run"; "--json"; "--min";
                             "--scope"; "--prefix"]%string) ->
              jeqb arg w = false).
    { intros w Hw. apply jeqb_false. intros ->. apply (H w); [now left | assumption]. }
    cbn [parseLoop filter].
    rewrite !Harg by (simpl; auto 8). simpl orb. cbv iota.
    destruct (startsWith arg (str "-")); simpl negb; cbv iota.
    + apply IH. intros a Ha. apply H. now right.
    + rewrite IH by (intros a Ha; apply H; now right).
      simpl. now rewrite <- app_assoc.
Qed.

(** X2.  Arguments that are not one of the seven option words change no
    option: the options are the defaults, words that start with a hyphen
    are dropped without a message, and the other words are the paths, in
    their order. *)
Theorem parseArgs_no_option_words (argv : list jstring) :
  (forall a, In a argv ->
     ~ In a (map str ["--help"; "-h"; "--dry-run"; "--json"; "--min";
                      "--scope"; "--prefix"]%string)) ->
  options (parseArgs argv) = default_options /\
  paths (parseArgs argv) =
    match filter (fun a => negb (startsWith a (str "-"))) argv with
    | [] => [str "."]
    | kept => kept
    end.
Proof.
  intros H. unfold parseArgs. rewrite (parseLoop_plain argv _ H).
  cbn [paths options app].
  destruct (filter (fun a => negb (startsWith a (str "-"))) argv);
    split; reflexivity.
Qed.

Lemma parseArgs_no_option_words_witness :
  (forall a, In a [str "src"; str "-v"; str "styles/main.css"] ->
     ~ In a (map str ["--help"; "-h"; "--dry-run"; "--json"; "--min";
                      "--scope"; "--prefix"]%string)) /\
  options (parseArgs [str "src"; str "-v"; str "styles/main.css"]) = default_options /\
  paths (parseArgs [str "src"; str "-v"; str "styles/main.css"])
    = [str "src"; str "styles/main.css"].
Proof.
  assert (H : forall a, In a [str "src"; str "-v"; str "styles/main.css"] ->
     ~ In a (map str ["--help"; "-h"; "--dry-run"; "--json"; "--min";
                      "--scope"; "--prefix"]%string)).
  { intros a [<- | [<- | [<- | []]]] Hin; simpl in Hin;
      repeat (destruct Hin as [Hin | Hin]; [discriminate Hin|]); exact Hin. }
  split; [exact H|]. exact (parseArgs_no_option_words _ H).
Defined.

(** ** File discovery *)

Lemma Node_induction (P : Node -> Prop) :
  P FileNode -> P OtherNode ->
  (forall entries, Forall (fun e => P (snd e)) entries -> P (DirNode entries)) ->
  forall node, P node.
Proof.
  intros Hf Ho Hd. fix IH 1. intros [| |entries]; [assumption | assumption|].
  apply Hd. induction entries as [|[name child] es IHes]; constructor.
  - apply IH.
  - exact IHes.
Qed.

Lemma findCssFiles_entry (join : jstring -> jstring -> jstring)
    (dir entry : jstring) (child : Node) (es : list (jstring * Node)) :
  findCssFiles join dir (DirNode ((entry, child) :: es)) =
  if ignored entry then findCssFiles join dir (DirNode es)
  else if is_directory child
  then findCssFiles join (join dir entry) child ++ findCssFiles join dir (DirNode es)
  else if endsWith entry (str ".css")
  then join dir entry :: findCssFiles join dir (DirNode es)
  else findCssFiles join dir (DirNode es).
Proof.
  destruct child; reflexivity.
Qed.

Lemma leads_to_more (es es' : list (jstring * Node)) (names : list jstring)
    (target : Node) :
  leads_to (DirNode es) names target -> is_directory target = false ->
  incl es es' -> leads_to (DirNode es') names target.
Proof.
  intros H Ht Hincl. inversion H; subst.
  - discriminate Ht.
  - econstructor; [apply Hincl|]; eassumption.
Qed.

Lemma findCssFiles_sound (join : jstring -> jstring -> jstring) (node : Node) :
  forall dir p, In p (findCssFiles join dir node) -> found join dir node p.
Proof.
  induction node as [| |entries IH] using Node_induction; intros dir p Hin.
  - cbn [findCssFiles] in Hin.
    destruct (endsWith dir (str ".css")) eqn:E; [|contradiction].
    destruct Hin as [<- | []]. exists [], FileNode.
    repeat split; [constructor | constructor | assumption].
  - destruct Hin.
  - revert dir p Hin.
    induction IH as [|[entry child] es Hchild _ IHes]; intros dir p Hin;
      [destruct Hin|].
    rewrite findCssFiles_entry in Hin.
    assert (Hrest : In p (findCssFiles join dir (DirNode es)) ->
                    found join dir (DirNode ((entry, child) :: es)) p).
    { intros H. destruct (IHes _ _ H) as (names & target & Hl & Ht & Hf & Hp & Hlast).
      exists names, target. repeat split; auto.
      eapply leads_to_more; [eassumption | assumption|].
      intros x Hx. now right. }
    destruct (ignored entry) eqn:Hig; [auto|].
    destruct (is_directory child) eqn:Hdir.
    + apply in_app_or in Hin as [Hin | Hin]; [|auto].
      destruct (Hchild _ _ Hin) as (names & target & Hl & Ht & Hf & Hp & Hlast).
      exists (entry :: names), target. repeat split; auto.
      * econstructor; [now left | exact Hl].
      * simpl. destruct (rev names) as [|n l] eqn:E; [|exact Hlast].
        exfalso. assert (names = []) as ->
          by (rewrite <- (rev_involutive names), E; reflexivity).
        inversion Hl; subst. simpl in Ht. congruence.
    + destruct (endsWith entry (str ".css")) eqn:Hcss; [|auto].
      destruct Hin as [<- | Hin]; [|auto].
      exists [entry], child. repeat split; auto.
      econstructor; [now left | constructor].
Qed.

Lemma findCssFiles_entry_in (join : jstring -> jstring -> jstring)
    (dir entry q : jstring) (child : Node) :
  ignored entry = false ->
  (if is_directory child then In q (findCssFiles join (join dir entry) child)
   else endsWith entry (str ".css") = true /\ q = join dir entry) ->
  forall es, In (entry, child) es -> In q (findCssFiles join dir (DirNode es)).
Proof.
  intros Hig Hq. induction es as [|[e c] es IH]; intros Hin; [contradiction|].
  rewrite findCssFiles_entry. destruct Hin as [Heq | Hin].
  - injection Heq as -> ->. rewrite Hig.
    destruct (is_directory child).
    + apply in_or_app. now left.
    + destruct Hq as [-> ->]. now left.
  - specialize (IH Hin). destruct (ignored e); [assumption|].
    destruct (is_directory c); [apply in_or_app; now right|].
    destruct (endsWith e (str ".css")); [now right | assumption].
Qed.

Lemma findCssFiles_complete (join : jstring -> jstring -> jstring)
    (node : Node) (names : list jstring) (target : Node) :
  leads_to node names target ->
  forall dir,
    is_directory target = false ->
    Forall (fun name => ignored name = false) names ->
    match rev names with
    | [] => target = FileNode /\ endsWith dir (str ".css") = true
    | name :: _ => endsWith name (str ".css") = true
    end ->
    In (fold_left join names dir) (findCssFiles join dir node).
Proof.
  induction 1 as [node | entries name child names target Hin Hl IH];
    intros dir Ht Hf Hlast.
  - cbn [rev] in Hlast. destruct Hlast as [-> E]. cbn [findCssFiles fold_left].
    rewrite E. now left.
  - inversion Hf as [|? ? Hig Hf']; subst.
    apply (findCssFiles_entry_in join dir name _ child Hig); [|assumption].
    destruct (is_directory child) eqn:Hdir.
    + apply IH; [assumption | assumption|].
      cbn [rev] in Hlast. destruct (rev names) as [|n l] eqn:E; [|exact Hlast].
      exfalso. assert (names = []) as ->
        by (rewrite <- (rev_involutive names), E; reflexivity).
      inversion Hl; subst. congruence.
    + assert (names = []) as ->.
      { inversion Hl; subst; [reflexivity | discriminate Hdir]. }
      cbn [rev app] in Hlast. cbn [fold_left]. auto.
Qed.

(** X3.  [findCssFiles] returns exactly the paths of the entries that are
    not directories, have a name ending in [.css] and are reached through
    names none of which is [node_modules] or starts with a dot; a path
    given directly is returned when it is a regular file ending in
    [.css]. *)
Theorem findCssFiles_characterised (join : jstring -> jstring -> jstring)
    (dir : jstring) (node : Node) (p : jstring) :
  In p (findCssFiles join dir node) <->
  exists names target,
    leads_to node names target /\ is_directory target = false /\
    Forall (fun name => ignored name = false) names /\
    p = fold_left join names dir /\
    match rev names with
    | [] => target = FileNode /\ endsWith dir (str ".css") = true
    | name :: _ => endsWith name (str ".css") = true
    end.
Proof.
  split.
  - apply findCssFiles_sound.
  - intros (names & target & Hl & Ht & Hf & -> & Hlast).
    now apply findCssFiles_complete with (target := target).
Qed.

(** ** The run as a whole *)

Lemma replaceValue_progress (st st' : Rewrite) (entry : jstring * jstring) :
  replaceValue st entry = Some st' ->
  st' = st \/ (rw_modified st' = true /\ rw_total st < rw_total st').
Proof.
  unfold replaceValue. destruct entry as [v n].
  destruct (RegExp (escapeRegExp v)) as [re|]; [|discriminate].
  destruct (matchAll re (rw_content st)) as [|mr l]; intros [= <-].
  - now left.
  - right. cbn [rw_modified rw_total length]. split; [reflexivity | lia].
Qed.

Lemma replaceValues_progress :
  forall (vm : Map jstring) (st rw : Rewrite),
    replaceValues vm st = Some rw ->
    rw_total st <= rw_total rw /\
    (rw_modified st = true -> rw_modified rw = true) /\
    (rw_modified rw = true -> rw_modified st = true \/ rw_total st < rw_total rw) /\
    (rw_modified rw = false -> rw = st).
Proof.
  induction vm as [|entry vm IH]; intros st rw H; cbn [replaceValues] in H.
  - injection H as <-. repeat split; auto.
  - destruct (replaceValue st entry) as [st1|] eqn:E; [|discriminate].
    apply IH in H. destruct H as (Hle & Hkeep & Hmod & Hsame).
    apply replaceValue_progress in E. destruct E as [-> | [Hm Hlt]].
    + repeat split; auto.
    + repeat split.
      * lia.
      * auto.
      * intros _. right. lia.
      * intros Hf. rewrite (Hkeep Hm) in Hf. discriminate.
Qed.

Lemma generateRootBlock_head (vars : Map jstring) (pre : jstring) :
  exists t, generateRootBlock vars pre = str ":root {" ++ t.
Proof.
  unfold generateRootBlock, rootBlockLines. cbn [app].
  set (rest := section _ _ ++ _).
  assert (Hrest : rest <> []).
  { unfold rest. intros H. apply app_eq_nil in H. destruct H as [_ H].
    apply app_eq_nil in H. destruct H as [_ H].
    apply app_eq_nil in H. destruct H as [_ H]. discriminate. }
  destruct rest as [|x rest']; [contradiction|].
  cbn [join]. eauto.
Qed.

Lemma generateRootBlock_root (vars : Map jstring) (pre : jstring) :
  includes (generateRootBlock vars pre) (str ":root") = true.
Proof.
  destruct (generateRootBlock_head vars pre) as [t ->].
  apply includes_app. exists [], (str " {" ++ t). reflexivity.
Qed.

Lemma withRootBlock_root (rootBlock content : jstring) :
  includes rootBlock (str ":root") = true ->
  includes (withRootBlock rootBlock content) (str ":root") = true.
Proof.
  intros H. unfold withRootBlock.
  destruct (includes content (str ":root")) eqn:E; [exact E|].
  apply includes_app in H. destruct H as (a & b & ->).
  apply includes_app. exists a, (b ++ [LF; LF] ++ content).
  now rewrite <- !app_assoc.
Qed.

(** What the loop over the files does to the state it starts from. *)
Lemma applyChanges_effect (vm : Map jstring) (rootBlock : jstring) :
  includes rootBlock (str ":root") = true ->
  forall (cssFiles : list jstring) (st st' : Apply) (err : option ApplyError),
    applyChanges vm rootBlock cssFiles st = (st', err) ->
    exists l,
      ap_updated st' = ap_updated st ++ l /\ incl l cssFiles /\
      ap_total st + length l <= ap_total st' /\
      (l = [] -> ap_fs st' = ap_fs st /\ ap_total st' = ap_total st) /\
      keys (ap_fs st') = keys (ap_fs st) /\
      (forall path, ~ In path l ->
         readFileSync (ap_fs st') path = readFileSync (ap_fs st) path) /\
      (forall path, In path l ->
         exists content,
           readFileSync (ap_fs st') path = Some content /\
           includes content (str ":root") = true).
Proof.
  intros Hroot.
  induction cssFiles as [|f cssFiles IH]; intros st st' err H;
    cbn [applyChanges] in H.
  - injection H as <- <-. exists []. rewrite app_nil_r.
    repeat split; auto; try (cbn [length]; lia).
    + intros x [].
    + intros path [].
  - destruct (readFileSync (ap_fs st) f) as [content|] eqn:Hread.
    2:{ injection H as <- <-. exists []. rewrite app_nil_r.
        repeat split; auto; try (cbn [length]; lia).
        - intros x [].
        - intros path []. }
    destruct (replaceValues vm (mkRewrite content (ap_total st) false))
      as [rw|] eqn:Hrw.
    2:{ injection H as <- <-. exists []. rewrite app_nil_r.
        repeat split; auto; try (cbn [length]; lia).
        - intros x [].
        - intros path []. }
    apply replaceValues_progress in Hrw.
    cbn [rw_total rw_modified] in Hrw.
    destruct Hrw as (Hle & _ & Hmod & Hsame).
    destruct (rw_modified rw) eqn:Hm.
    + apply IH in H. cbn [ap_fs ap_updated ap_total] in H.
      destruct H as (l & Hupd & Hincl & Htot & _ & Hkeys & Hframe & Hnew).
      destruct (Hmod eq_refl) as [Hx | Hlt]; [discriminate|].
      exists (f :: l). repeat split.
      * rewrite Hupd, <- app_assoc. reflexivity.
      * intros x [<- | Hx]; [now left | right; now apply Hincl].
      * cbn [length]. lia.
      * discriminate.
      * discriminate.
      * rewrite Hkeys. unfold writeFileSync. rewrite keys_map_set.
        unfold readFileSync in Hread. now rewrite Hread.
      * intros path Hpath. rewrite Hframe by (intros Hin; apply Hpath; now right).
        unfold readFileSync, writeFileSync. apply map_get_set_ne.
        intros ->. apply Hpath. now left.
      * intros path Hpath.
        destruct (in_dec (list_eq_dec ascii_dec) path l) as [Hin | Hout];
          [now apply Hnew|].
        destruct Hpath as [<- | Hin]; [|contradiction].
        rewrite (Hframe f Hout). unfold readFileSync, writeFileSync.
        rewrite map_get_set_eq. eexists. split; [reflexivity|].
        now apply withRootBlock_root.
    + apply IH in H. cbn [ap_fs ap_updated ap_total] in H.
      rewrite (Hsame eq_refl) in H. cbn [rw_total] in H.
      destruct H as (l & Hupd & Hincl & Htot & Hnil & Hkeys & Hframe & Hnew).
      exists l. repeat split; auto.
      * intros x Hx. right. now apply Hincl.
      * now apply Hnil.
      * now apply Hnil.
Qed.

Lemma applied_outcome (opts : CliOptions) (cssFiles : list jstring) (fs : FS)
    (r : Report) (updated : list jstring) (n : nat) :
  snd (main opts cssFiles fs) = Done r updated n ->
  help opts = false /\ json opts = false /\ dryRun opts = false /\
  exists vm,
    applyChanges vm (rp_rootBlock r) cssFiles (mkApply fs [] 0) =
      (mkApply (fst (main opts cssFiles fs)) updated n, None) /\
    includes (rp_rootBlock r) (str ":root") = true.
Proof.
  unfold main. destruct (help opts); [discriminate|].
  destruct cssFiles as [|f cssFiles]; [discriminate|].
  destruct (aggregate fs (scope opts) (f :: cssFiles) []) as [bad|allValues];
    [discriminate|].
  destruct (selectRepeated (min opts) allValues) as [|e repeated]; [discriminate|].
  destruct (json opts); [discriminate|].
  destruct (dryRun opts); [discriminate|].
  set (names := generateNames (prefix opts) (e :: repeated)).
  set (rpt := report (f :: cssFiles) (e :: repeated) names (prefix opts)).
  destruct (applyChanges (varMap names) (rp_rootBlock rpt) (f :: cssFiles)
              (mkApply fs [] 0)) as [st [[bad|]|]] eqn:E;
    cbn [snd fst]; try discriminate.
  intros [= <- <- <-]. repeat split; try reflexivity.
  exists (varMap names). split.
  - rewrite E. destruct st; reflexivity.
  - apply generateRootBlock_root.
Qed.

(** A run either leaves the files as they are or ends in [Done]. *)
Lemma main_cases (opts : CliOptions) (cssFiles : list jstring) (fs : FS) :
  fst (main opts cssFiles fs) = fs \/
  exists r updated n, snd (main opts cssFiles fs) = Done r updated n.
Proof.
  unfold main. destruct (help opts); [now left|].
  destruct cssFiles as [|f cssFiles]; [now left|].
  destruct (aggregate fs (scope opts) (f :: cssFiles) []) as [bad|allValues] eqn:Hagg;
    [now left|].
  destruct (selectRepeated (min opts) allValues) as [|e repeated]; [now left|].
  destruct (json opts); [now left|].
  destruct (dryRun opts); [now left|].
  set (names := generateNames (prefix opts) (e :: repeated)).
  set (rpt := report (f :: cssFiles) (e :: repeated) names (prefix opts)).
  pose proof (applyChanges_succeeds (varMap names) (rp_rootBlock rpt)
                (f :: cssFiles) (mkApply fs [] 0)
                (aggregate_readable fs (scope opts) _ _ _ Hagg)) as Hok.
  destruct (applyChanges (varMap names) (rp_rootBlock rpt) (f :: cssFiles)
              (mkApply fs [] 0)) as [st err].
  cbn [snd] in Hok. subst err. right. cbn [snd]. eauto.
Qed.

(** X4.  The files only change in a run that applies the changes and
    updates at least one file: every other run, whether it shows the help,
    prints the results as data, previews, finds nothing or stops at a file
    it cannot read, leaves the file system as it was. *)
Theorem files_change_only_when_updated (opts : CliOptions)
    (cssFiles : list jstring) (fs : FS) :
  fst (main opts cssFiles fs) = fs \/
  exists r updated n,
    snd (main opts cssFiles fs) = Done r updated n /\ updated <> [] /\
    help opts = false /\ json opts = false /\ dryRun opts = false.
Proof.
  destruct (main_cases opts cssFiles fs) as [H | (r & updated & n & H)];
    [now left|].
  destruct (applied_outcome _ _ _ _ _ _ H) as (Hh & Hj & Hd & vm & Happ & Hroot).
  destruct (applyChanges_effect vm _ Hroot _ _ _ _ Happ)
    as (l & Hupd & _ & _ & Hnil & _).
  cbn [ap_updated ap_fs ap_total app] in Hupd, Hnil. subst l.
  destruct updated as [|f updated].
  - left. now apply Hnil.
  - right. exists r, (f :: updated), n. repeat split; auto. discriminate.
Qed.

(** X5.  After a run that ends in [Done] the file system holds the same
    paths as before, every updated file is one of the files given, a path
    that was not updated reads as before, and an updated file contains
    the text [:root]. *)
Theorem done_run_frame (opts : CliOptions) (cssFiles : list jstring) (fs : FS)
    (r : Report) (updated : list jstring) (n : nat) :
  snd (main opts cssFiles fs) = Done r updated n ->
  let fs' := fst (main opts cssFiles fs) in
  keys fs' = keys fs /\
  incl updated cssFiles /\
  (forall path, ~ In path updated -> readFileSync fs' path = readFileSync fs path) /\
  (forall path, In path updated ->
     exists content,
       readFileSync fs' path = Some content /\
       includes content (str ":root") = true).
Proof.
  intros H fs'.
  destruct (applied_outcome _ _ _ _ _ _ H) as (_ & _ & _ & vm & Happ & Hroot).
  destruct (applyChanges_effect vm _ Hroot _ _ _ _ Happ)
    as (l & Hupd & Hincl & _ & _ & Hkeys & Hframe & Hnew).
  cbn [ap_updated ap_fs ap_total app] in *. subst l. auto.
Qed.

Lemma done_run_frame_witness :
  snd (main default_options pair_files pair_fs) =
    Done pair_report [str "a.css"] 2 /\
  keys (fst (main default_options pair_files pair_fs)) = keys pair_fs /\
  readFileSync (fst (main default_options pair_files pair_fs)) (str "b.css") =
    readFileSync pair_fs (str "b.css") /\
  exists content,
    readFileSync (fst (main default_options pair_files pair_fs)) (str "a.css") =
      Some content /\
    includes content (str ":root") = true.
Proof.
  assert (H : snd (main default_options pair_files pair_fs) =
              Done pair_report [str "a.css"] 2) by (vm_compute; reflexivity).
  destruct (done_run_frame _ _ _ _ _ _ H) as (Hkeys & _ & Hframe & Hnew).
  split; [exact H|]. split; [exact Hkeys|]. split.
  - apply Hframe. intros [E | []]. discriminate E.
  - apply Hnew. now left.
Defined.

(** X6.  The number of replacements a run reports is at least the number
    of files it updated, and it is zero exactly when no file was
    updated. *)
Theorem done_run_count (opts : CliOptions) (cssFiles : list jstring) (fs : FS)
    (r : Report) (updated : list jstring) (n : nat) :
  snd (main opts cssFiles fs) = Done r updated n ->
  length updated <= n /\ (n = 0 <-> updated = []).
Proof.
  intros H.
  destruct (applied_outcome _ _ _ _ _ _ H) as (_ & _ & _ & vm & Happ & Hroot).
  destruct (applyChanges_effect vm _ Hroot _ _ _ _ Happ)
    as (l & Hupd & _ & Htot & Hnil & _).
  cbn [ap_updated ap_fs ap_total app] in *. subst l.
  split; [lia|]. split.
  - intros ->. destruct updated; [reflexivity | cbn [length] in Htot; lia].
  - intros E. now apply Hnil.
Qed.

Lemma done_run_count_witness :
  snd (main default_options pair_files pair_fs) =
    Done pair_report [str "a.css"] 2 /\
  length [str "a.css"] <= 2 /\ (2 = 0 <-> [str "a.css"] = []).
Proof.
  assert (H : snd (main default_options pair_files pair_fs) =
              Done pair_report [str "a.css"] 2) by (vm_compute; reflexivity).
  split; [exact H|]. exact (done_run_count _ _ _ _ _ _ H).
Defined.

Lemma aggregate_total (fs : FS) (sc : jstring) :
  forall (cssFiles : list jstring) (acc : Map ExtractedValue),
    (forall f, In f cssFiles -> readFileSync fs f <> None) ->
    exists allValues, aggregate fs sc cssFiles acc = inr allValues.
Proof.
  induction cssFiles as [|f cssFiles IH]; intros acc Hread; cbn [aggregate].
  - eauto.
  - destruct (readFileSync fs f) as [content|] eqn:E.
    + apply IH. intros g Hg. apply Hread. now right.
    + exfalso. apply (Hread f); [now left | exact E].
Qed.

Lemma selectRepeated_NaN (allValues : Map ExtractedValue) :
  selectRepeated NaN allValues = [].
Proof.
  unfold selectRepeated. induction allValues as [|e l IH]; [reflexivity|].
  cbn [filter length_ge]. exact IH.
Qed.

(** X7.  When the threshold is not a number, as after [--min] with a value
    that does not start with a digit, no value is selected: a run over
    readable files ends with the message that nothing is repeated, and
    writes nothing. *)
Theorem threshold_not_a_number (opts : CliOptions) (cssFiles : list jstring)
    (fs : FS) :
  min opts = NaN -> help opts = false -> cssFiles <> [] ->
  (forall f, In f cssFiles -> readFileSync fs f <> None) ->
  main opts cssFiles fs = (fs, NoRepeatedValues (length cssFiles)).
Proof.
  intros Hmin Hhelp Hne Hread. unfold main. rewrite Hhelp, Hmin.
  destruct cssFiles as [|f cssFiles]; [contradiction|].
  destruct (aggregate_total fs (scope opts) (f :: cssFiles) [] Hread)
    as [allValues ->].
  rewrite selectRepeated_NaN. reflexivity.
Qed.

Lemma threshold_not_a_number_witness :
  let parsed := parseArgs [str "--min"; str "many"; str "case.css"] in
  min (options parsed) = NaN /\
  main (options parsed) (paths parsed) case_fs =
    (case_fs, NoRepeatedValues (length (paths parsed))).
Proof.
  assert (Hmin : min (options (parseArgs [str "--min"; str "many"; str "case.css"]))
                 = NaN) by (vm_compute; reflexivity).
  assert (Hhelp : help (options (parseArgs [str "--min"; str "many"; str "case.css"]))
                  = false) by (vm_compute; reflexivity).
  assert (Hne : paths (parseArgs [str "--min"; str "many"; str "case.css"]) <> [])
    by (vm_compute; discriminate).
  assert (Hread : forall f,
            In f (paths (parseArgs [str "--min"; str "many"; str "case.css"])) ->
            readFileSync case_fs f <> None).
  { intros f [<- | []]. vm_compute. discriminate. }
  split; [exact Hmin|].
  exact (threshold_not_a_number _ _ _ Hmin Hhelp Hne Hread).
Defined.

(** ** Scopes *)

Lemma lineCalls_scope (sc ln : jstring) (c : Call) :
  In c (lineCalls sc ln) -> scope_allows sc (c_type c).
Proof.
  intros H. apply in_lineCalls in H.
  destruct H as (_ & _ & [(Hsc & -> & _) | [(Hsc & -> & _) | (Hsc & -> & _)]]);
    cbn [scope_allows].
  - apply orb_true_iff in Hsc. destruct Hsc as [H | H]; apply jeqb_true in H; auto.
  - apply orb_true_iff in Hsc. destruct Hsc as [H | H]; apply jeqb_true in H; auto.
  - now apply jeqb_true in Hsc.
Qed.

(** X8.  The scope decides the categories: a colour is only extracted
    under [colors] or [all], a length only under [spacing] or [all], a
    font only under [all].  This holds for every call of [addValue] and
    for every entry of the map [extractValues] returns. *)
Theorem scope_gates (sc : jstring) :
  (forall ln c, In c (lineCalls sc ln) -> scope_allows sc (c_type c)) /\
  (forall content filePath v e,
     map_get (extractValues content filePath sc) v = Some e ->
     scope_allows sc (type e)).
Proof.
  split; [intros ln c; apply lineCalls_scope|].
  intros content filePath v e H.
  apply map_get_Some_In in H.
  pose proof (extractLines_types (scope_allows sc) filePath sc
                (fun ln c => lineCalls_scope sc ln c)
                (split LF content) [] 0 (Forall_nil _)) as Hall.
  rewrite Forall_forall in Hall. exact (Hall _ H).
Qed.

Lemma lineCalls_unknown_scope (sc ln : jstring) :
  sc <> str "colors" -> sc <> str "spacing" -> sc <> str "all" ->
  lineCalls sc ln = [].
Proof.
  intros H1 H2 H3. unfold lineCalls.
  apply jeqb_false in H1, H2, H3. rewrite H1, H2, H3.
  now destruct (skipped ln).
Qed.

Lemma extractLines_nothing (fl sc : jstring) :
  (forall ln, lineCalls sc ln = []) ->
  forall lines mp lineNum, extractLines mp lines lineNum fl sc = mp.
Proof.
  intros Hnone. induction lines as [|ln lines IH]; intros mp lineNum;
    cbn [extractLines]; [reflexivity|].
  rewrite Hnone. cbn [fold_left]. apply IH.
Qed.

Lemma aggregate_nothing (fs : FS) (sc : jstring) :
  (forall content fl, extractValues content fl sc = []) ->
  forall (cssFiles : list jstring) (acc : Map ExtractedValue),
    (forall f, In f cssFiles -> readFileSync fs f <> None) ->
    aggregate fs sc cssFiles acc = inr acc.
Proof.
  intros Hnone. induction cssFiles as [|f cssFiles IH]; intros acc Hread;
    cbn [aggregate]; [reflexivity|].
  destruct (readFileSync fs f) as [content|] eqn:E.
  - rewrite Hnone. cbn [fold_left]. apply IH. intros g Hg. apply Hread. now right.
  - exfalso. apply (Hread f); [now left | exact E].
Qed.

(** X9.  A scope that is none of [colors], [spacing] and [all] extracts
    nothing: no line yields a call, every file gives the empty map, and a
    run over readable files ends with the message that nothing is
    repeated. *)
Theorem unknown_scope_extracts_nothing (sc : jstring) :
  sc <> str "colors" -> sc <> str "spacing" -> sc <> str "all" ->
  (forall ln, lineCalls sc ln = []) /\
  (forall content filePath, extractValues content filePath sc = []) /\
  (forall opts cssFiles fs,
     scope opts = sc -> help opts = false -> cssFiles <> [] ->
     (forall f, In f cssFiles -> readFileSync fs f <> None) ->
     main opts cssFiles fs = (fs, NoRepeatedValues (length cssFiles))).
Proof.
  intros H1 H2 H3.
  assert (Hcalls : forall ln, lineCalls sc ln = [])
    by (intros ln; now apply lineCalls_unknown_scope).
  assert (Hfile : forall content filePath, extractValues content filePath sc = []).
  { intros content filePath. unfold extractValues. now apply extractLines_nothing. }
  repeat split; try assumption.
  intros opts cssFiles fs Hsc Hhelp Hne Hread. unfold main. rewrite Hhelp, Hsc.
  destruct cssFiles as [|f cssFiles]; [contradiction|].
  rewrite (aggregate_nothing fs sc Hfile (f :: cssFiles) [] Hread).
  destruct (min opts); reflexivity.
Qed.

Lemma unknown_scope_extracts_nothing_witness :
  let parsed := parseArgs [str "--scope"; str "color"; str "case.css"] in
  scope (options parsed) = str "color" /\
  extractValues case_css (str "case.css") (str "color") = [] /\
  main (options parsed) (paths parsed) case_fs =
    (case_fs, NoRepeatedValues (length (paths parsed))).
Proof.
  assert (H1 : str "color" <> str "colors") by discriminate.
  assert (H2 : str "color" <> str "spacing") by discriminate.
  assert (H3 : str "color" <> str "all") by discriminate.
  destruct (unknown_scope_extracts_nothing (str "color") H1 H2 H3)
    as (_ & Hfile & Hmain).
  split; [vm_compute; reflexivity|]. split; [apply Hfile|].
  apply Hmain.
  - vm_compute; reflexivity.
  - vm_compute; reflexivity.
  - vm_compute; discriminate.
  - intros f [<- | []]. vm_compute. discriminate.
Defined.

(** ** The selection *)

Lemma map_get_of_In {V : Type} (mp : Map V) (k : jstring) (v : V) :
  NoDup (keys mp) -> In (k, v) mp -> map_get mp k = Some v.
Proof.
  induction mp as [|[k0 v0] mp IH]; intros Hnd Hin; [destruct Hin|].
  cbn [keys map fst] in Hnd. inversion Hnd as [|? ? Hnot Hnd']; subst.
  cbn [map_get]. destruct Hin as [[= -> ->] | Hin].
  - now rewrite jeqb_refl.
  - destruct (jeqb k0 k) eqn:E.
    + apply jeqb_true in E. subst k0. exfalso. apply Hnot.
      apply (in_map fst) in Hin. exact Hin.
    + now apply IH.
Qed.

Lemma summary_located (v : jstring) (ds : list Discovery) (e : ExtractedValue) :
  summary v ds = Some e -> value e = v /\ 1 <= length (locations e).
Proof.
  unfold summary. destruct (occurrences_of v ds) as [|d occ]; [discriminate|].
  intros [= <-]. cbn [value locations map length]. split; [reflexivity | lia].
Qed.

Lemma filter_all {A : Type} (f : A -> bool) (l : list A) :
  (forall x, In x l -> f x = true) -> filter f l = l.
Proof.
  induction l as [|x l IH]; intros H; [reflexivity|].
  cbn [filter]. rewrite (H x) by now left.
  f_equal. apply IH. intros y Hy. apply H. now right.
Qed.

(** X10.  Every value gathered from the files has at least one place, so
    a threshold of one or less selects all of them, in their order. *)
Theorem low_threshold_selects_all (fs : FS) (sc : jstring)
    (cssFiles : list jstring) (allValues : Map ExtractedValue) (z : Z) :
  aggregate fs sc cssFiles [] = inr allValues ->
  (z <= 1)%Z ->
  selectRepeated (Num z) allValues = allValues.
Proof.
  intros Hagg Hz. unfold selectRepeated. apply filter_all.
  intros [k e] Hin. cbn [snd length_ge].
  apply map_get_of_In in Hin;
    [|exact (aggregate_NoDup fs sc cssFiles [] allValues (NoDup_nil _) Hagg)].
  rewrite (aggregate_summary fs sc cssFiles [] allValues []
             (fun _ => eq_refl) Hagg k) in Hin.
  apply summary_located in Hin. destruct Hin as [_ Hlen].
  apply Z.leb_le. lia.
Qed.

Lemma low_threshold_selects_all_witness :
  aggregate case_fs (str "all") [str "case.css"] [] = inr case_all /\
  (1 <= 1)%Z /\
  selectRepeated (Num 1) case_all = case_all /\
  selectRepeated (Num (-3)) case_all = case_all.
Proof.
  assert (H : aggregate case_fs (str "all") [str "case.css"] [] = inr case_all)
    by (vm_compute; reflexivity).
  split; [exact H|]. split; [lia|]. split.
  - apply (low_threshold_selects_all _ _ _ _ 1 H). lia.
  - apply (low_threshold_selects_all _ _ _ _ (-3) H). lia.
Defined.

(** ** The map [extractValues] returns *)

Lemma lineDiscoveries_origin (fl sc : jstring) (d : Discovery) :
  forall lines lineNum,
    In d (lineDiscoveries lines lineNum fl sc) ->
    lineNum < line (d_location d) <= lineNum + length lines /\
    exists ln c,
      nth_error lines (line (d_location d) - lineNum - 1) = Some ln /\
      In c (lineCalls sc ln) /\
      d = discover fl (line (d_location d)) c.
Proof.
  induction lines as [|ln lines IH]; intros lineNum Hin; [destruct Hin|].
  cbn [lineDiscoveries] in Hin. apply in_app_or in Hin.
  destruct Hin as [Hin | Hin].
  - apply in_map_iff in Hin. destruct Hin as (c & <- & Hc).
    cbn [discover d_location line length]. split; [lia|].
    exists ln, c. replace (lineNum + 1 - lineNum - 1) with 0 by lia.
    repeat split; auto.
  - apply IH in Hin. destruct Hin as (Hrange & l & c & Hnth & Hc & Hd).
    cbn [length]. split; [lia|]. exists l, c.
    replace (line (d_location d) - lineNum - 1)
      with (S (line (d_location d) - S lineNum - 1)) by lia.
    cbn [nth_error]. auto.
Qed.

Lemma summary_locations (v : jstring) (ds : list Discovery) (e : ExtractedValue)
    (loc : Location) :
  summary v ds = Some e -> In loc (locations e) ->
  exists d, In d ds /\ d_value d = v /\ d_location d = loc.
Proof.
  unfold summary. destruct (occurrences_of v ds) as [|d0 occ] eqn:E; [discriminate|].
  intros [= <-] Hin. change (In loc (map d_location (d0 :: occ))) in Hin.
  rewrite <- E in Hin.
  apply in_map_iff in Hin. destruct Hin as (d & Hd & Hin).
  unfold occurrences_of in Hin. apply filter_In in Hin.
  destruct Hin as [Hin Hv]. apply jeqb_true in Hv. eauto.
Qed.

(** X11.  The keys of the map [extractValues] returns are distinct, and
    an entry holds its key as value and at least one place; every place
    names the file given, a line of the text counted from one that is not
    skipped, and the property read from that line, and the line yields
    the value. *)
Theorem extracted_entries (content filePath sc : jstring) :
  NoDup (keys (extractValues content filePath sc)) /\
  forall v e,
    In (v, e) (extractValues content filePath sc) ->
    value e = v /\ locations e <> [] /\
    forall loc,
      In loc (locations e) ->
      file loc = filePath /\
      1 <= line loc <= length (split LF content) /\
      exists ln,
        nth_error (split LF content) (line loc - 1) = Some ln /\
        skipped ln = false /\
        property loc = propertyOf ln /\
        exists c, In c (lineCalls sc ln) /\ c_value c = v.
Proof.
  split; [apply extractValues_NoDup|].
  intros v e Hin.
  apply map_get_of_In in Hin; [|apply extractValues_NoDup].
  rewrite extractValues_summary in Hin.
  destruct (summary_located _ _ _ Hin) as [Hv Hlen].
  split; [exact Hv|]. split.
  { intros E. rewrite E in Hlen. cbn [length] in Hlen. lia. }
  intros loc Hloc.
  destruct (summary_locations _ _ _ _ Hin Hloc) as (d & Hd & Hdv & <-).
  unfold fileDiscoveries in Hd.
  destruct (lineDiscoveries_origin _ _ _ _ _ Hd)
    as (Hrange & ln & c & Hnth & Hc & Heq).
  assert (Hfile : file (d_location d) = filePath)
    by (rewrite Heq; reflexivity).
  assert (Hprop : property (d_location d) = c_property c)
    by (rewrite Heq; reflexivity).
  assert (Hval : c_value c = v) by (rewrite <- Hdv, Heq; reflexivity).
  destruct (in_lineCalls _ _ _ Hc) as (Hskip & Hp & _).
  split; [exact Hfile|]. split; [lia|].
  exists ln. rewrite Nat.sub_0_r in Hnth.
  split; [exact Hnth|]. split; [exact Hskip|].
  split; [congruence|]. exists c. auto.
Qed.

(** X12.  [addValue] on a map: the value added reads back with its first
    category and one more place; every other key reads as before; a new
    key goes to the end of the order and a known key keeps its position;
    distinct keys stay distinct. *)
Theorem addValue_effect (mp : Map ExtractedValue) (v : jstring) (ty : vtype)
    (fl : jstring) (ln : nat) (prop : jstring) :
  let mp' := addValue mp v ty fl ln prop in
  map_get mp' v =
    Some match map_get mp v with
         | Some existing =>
             mkExtractedValue (value existing) (type existing)
               (locations existing ++ [mkLocation fl ln prop])
         | None => mkExtractedValue v ty [mkLocation fl ln prop]
         end /\
  (forall v', v' <> v -> map_get mp' v' = map_get mp v') /\
  keys mp' = match map_get mp v with
             | Some _ => keys mp
             | None => keys mp ++ [v]
             end /\
  (NoDup (keys mp) -> NoDup (keys mp')).
Proof.
  cbv zeta. split; [|split; [|split]].
  - destruct (map_get mp v) as [existing|] eqn:E.
    + now apply addValue_existing.
    + now apply addValue_fresh.
  - intros v' Hne. apply addValue_other. congruence.
  - unfold addValue. destruct (map_get mp v) as [existing|] eqn:E;
      rewrite keys_map_set, E; reflexivity.
  - apply addValue_NoDup.
Qed.

(** ** The values of the classifier *)

Lemma all_chars_complete (c : ascii) : In c all_chars.
Proof.
  unfold all_chars. rewrite <- (ascii_nat_embedding c).
  apply in_map. apply in_seq. pose proof (nat_ascii_bounded c). lia.
Qed.

Lemma forall_chars (f : ascii -> bool) :
  forallb f all_chars = true -> forall c, f c = true.
Proof.
  intros H c. rewrite forallb_forall in H. apply H. apply all_chars_complete.
Qed.

Lemma Matches_consumes (P : ascii -> Prop) (r : regex) (st st' : mstate) :
  Matches r st st' -> consumes_only P r ->
  exists t, ms_rest st = t ++ ms_rest st' /\ Forall P t.
Proof.
  induction 1; intros HP; cbn [consumes_only] in HP; cbn [ms_rest];
    try (exists []; split; [reflexivity | constructor]).
  - exists [c]. split; [exact Hrest | repeat constructor; exact HP].
  - exists [x]. split; [exact Hrest | repeat constructor; now apply HP].
  - exists [x]. split; [exact Hrest | repeat constructor; now apply HP].
  - destruct HP as [HP1 HP2].
    destruct (IHMatches1 HP1) as (t1 & E1 & F1).
    destruct (IHMatches2 HP2) as (t2 & E2 & F2).
    exists (t1 ++ t2). split.
    + rewrite E1, E2, app_assoc. reflexivity.
    + apply Forall_app. auto.
  - apply IHMatches. tauto.
  - apply IHMatches. tauto.
  - exists t. split; [exact Hrest|].
    apply Forall_forall. intros x Hx. apply HP.
    rewrite forallb_forall in Hall. now apply Hall.
  - now apply IHMatches.
  - now apply IHMatches.
Qed.

Lemma exec_at_consumes (P : ascii -> Prop) (r : regex) (bef s : jstring)
    (mr : rmatch) :
  consumes_only P r -> exec_at r bef s = Some mr -> Forall P (m_text mr).
Proof.
  intros HP H. apply exec_at_sound in H. destruct H as (st' & HM & ->).
  destruct (Matches_consumes P _ _ _ HM HP) as (t & E & F).
  cbn [m_text]. now rewrite (consumed_app t _ _ E).
Qed.

Lemma matchAll_consumes (P : ascii -> Prop) (r : regex) (s : jstring)
    (mr : rmatch) :
  consumes_only P r -> In mr (matchAll r s) -> Forall P (m_text mr).
Proof.
  intros HP H. unfold matchAll in H. apply scan_sound in H.
  destruct H as (s1 & s2 & _ & _ & H). exact (exec_at_consumes P _ _ _ _ HP H).
Qed.

Lemma class_lower (p : ascii -> bool) :
  forallb (fun x => implb (p x) (Ascii.eqb (lower_char x) x)) all_chars = true ->
  forall x, p x = true -> lower_char x = x.
Proof.
  intros H x Hp. pose proof (forall_chars _ H x) as E. cbv beta in E.
  rewrite Hp in E. now apply Ascii.eqb_eq in E.
Qed.

Lemma lower_fixed (s : jstring) :
  Forall (fun c => lower_char c = c) s -> toLowerCase s = s.
Proof.
  induction 1 as [|c s Hc _ IH]; [reflexivity|].
  unfold toLowerCase in *. cbn [map]. now rewrite Hc, IH.
Qed.

Lemma rgb_lower : consumes_only (fun c => lower_char c = c) COLOR_RGB.
Proof.
  unfold COLOR_RGB, alpha, ws, digits, digdots.
  cbn [seqs lit str list_ascii_of_string consumes_only].
  repeat split; try reflexivity; apply class_lower; vm_compute; reflexivity.
Qed.

Lemma hsl_lower : consumes_only (fun c => lower_char c = c) COLOR_HSL.
Proof.
  unfold COLOR_HSL, alpha, ws, digits, digdots.
  cbn [seqs lit str list_ascii_of_string consumes_only].
  repeat split; try reflexivity; apply class_lower; vm_compute; reflexivity.
Qed.

Lemma single_spaces_lower (s : jstring) :
  Forall (fun c => lower_char c = c) s ->
  toLowerCase (replaceAll SPACES (str " ") s) = replaceAll SPACES (str " ") s.
Proof.
  intros H. apply lower_fixed. apply Forall_forall. intros x Hx.
  unfold replaceAll in Hx. apply replace_scan_chars in Hx.
  - destruct Hx as [Hx | [<- | []]]; [|reflexivity].
    rewrite Forall_forall in H. now apply H.
  - intros [E | []]. discriminate E.
Qed.

Lemma color_value_lower (ln v : jstring) :
  In v (hexColors ln ++ rgbColors ln ++ hslColors ln ++
        namedColors ln (propertyOf ln)) ->
  toLowerCase v = v.
Proof.
  intros H.
  apply in_app_or in H. destruct H as [H | H].
  { unfold hexColors in H. apply in_map_iff in H. destruct H as (mr & <- & _).
    apply toLowerCase_idempotent. }
  apply in_app_or in H. destruct H as [H | H].
  { unfold rgbColors in H. apply in_map_iff in H. destruct H as (mr & <- & H).
    apply single_spaces_lower.
    exact (matchAll_consumes _ _ _ _ rgb_lower H). }
  apply in_app_or in H. destruct H as [H | H].
  { unfold hslColors in H. apply in_map_iff in H. destruct H as (mr & <- & H).
    apply single_spaces_lower.
    exact (matchAll_consumes _ _ _ _ hsl_lower H). }
  unfold namedColors in H. destruct (test COLOR_PROPERTY (propertyOf ln)); [|destruct H].
  apply in_map_iff in H. destruct H as (mr & <- & _).
  apply toLowerCase_idempotent.
Qed.

(** X13.  Every colour the classifier extracts is in lower case: the hex
    and the named colours are converted, and the patterns for [rgb] and
    [hsl] only match lower-case text. *)
Theorem color_values_lower_case (sc ln : jstring) (c : Call) :
  In c (lineCalls sc ln) -> c_type c = color ->
  toLowerCase (c_value c) = c_value c.
Proof.
  intros H Hty. apply in_lineCalls in H.
  destruct H as (_ & _ & [(_ & _ & H) | [(_ & E & _) | (_ & E & _)]]);
    [|congruence|congruence].
  exact (color_value_lower ln _ H).
Qed.

Lemma color_values_lower_case_witness :
  In (mkCall (str "rgb(10, 20,30)") color (str "color"))
     (lineCalls (str "colors") (str "color: rgb(10,  20,30);")) /\
  toLowerCase (str "rgb(10, 20,30)") = str "rgb(10, 20,30)" /\
  lineCalls (str "colors") (str "color: RGB(10, 20, 30);") = [].
Proof.
  assert (H : In (mkCall (str "rgb(10, 20,30)") color (str "color"))
                 (lineCalls (str "colors") (str "color: rgb(10,  20,30);")))
    by (vm_compute; auto).
  split; [exact H|]. split.
  - exact (color_values_lower_case _ _ _ H eq_refl).
  - vm_compute. reflexivity.
Defined.

Lemma canon_lower (x c : ascii) :
  canon_char x = canon_char c -> lower_char x = lower_char c.
Proof.
  intros H.
  assert (Hall : forallb (fun a =>
            forallb (fun b =>
              implb (Ascii.eqb (canon_char a) (canon_char b))
                    (Ascii.eqb (lower_char a) (lower_char b))) all_chars)
            all_chars = true) by (vm_compute; reflexivity).
  pose proof (forall_chars _ (forall_chars _ Hall x) c) as E. cbv beta in E.
  rewrite H, Ascii.eqb_refl in E. now apply Ascii.eqb_eq in E.
Qed.

Lemma Matches_ChrI_inv (c : ascii) (st st' : mstate) :
  Matches (ChrI c) st st' ->
  exists x, ms_rest st = x :: ms_rest st' /\ canon_char x = canon_char c.
Proof.
  intros H. inversion H; subst. cbn [ms_rest]. eauto.
Qed.

Lemma Matches_liti (v : jstring) :
  forall st st',
    Matches (liti v) st st' ->
    exists t, ms_rest st = t ++ ms_rest st' /\ toLowerCase t = toLowerCase v.
Proof.
  induction v as [|c v IH]; intros st st' H; cbn [liti] in H.
  - inversion H; subst. exists []. auto.
  - apply Matches_Seq_inv in H. destruct H as (st1 & H1 & H2).
    apply Matches_ChrI_inv in H1. destruct H1 as (x & Hr & Hx).
    apply IH in H2. destruct H2 as (t & Hr2 & Ht).
    exists (x :: t). split.
    + rewrite Hr, Hr2. reflexivity.
    + unfold toLowerCase in *. cbn [map]. now rewrite Ht, (canon_lower _ _ Hx).
Qed.

Lemma Matches_alts_liti (l : list jstring) :
  forall st st',
    l <> [] ->
    Matches (alts (map liti l)) st st' ->
    exists v t, In v l /\ ms_rest st = t ++ ms_rest st' /\
                toLowerCase t = toLowerCase v.
Proof.
  induction l as [|v l IH]; intros st st' Hne H; [congruence|].
  destruct l as [|v' l].
  - cbn [map alts] in H. apply Matches_liti in H. destruct H as (t & H).
    exists v, t. split; [now left | exact H].
  - change (alts (map liti (v :: v' :: l)))
      with (Alt (liti v) (alts (map liti (v' :: l)))) in H.
    apply Matches_Alt_inv in H. destruct H as [H | H].
    + apply Matches_liti in H. destruct H as (t & H).
      exists v, t. split; [now left | exact H].
    + apply IH in H; [|discriminate]. destruct H as (u & t & Hu & H).
      exists u, t. split; [now right | exact H].
Qed.

Lemma named_colors_lower (v : jstring) : In v named_colors -> toLowerCase v = v.
Proof.
  assert (H : Forall (fun v => toLowerCase v = v) named_colors).
  { unfold named_colors. cbn [map].
    repeat (constructor; [vm_compute; reflexivity|]). constructor. }
  rewrite Forall_forall in H. apply H.
Qed.

Lemma named_exec_sound (bef s : jstring) (mr : rmatch) :
  exec_at COLOR_NAMED bef s = Some mr ->
  exists name,
    In name named_colors /\ toLowerCase (m_text mr) = name /\
    xorb (head_is is_word bef) (head_is is_word s) = true.
Proof.
  intros H. apply exec_at_sound in H. destruct H as (st' & HM & ->).
  unfold COLOR_NAMED in HM. cbn [seqs] in HM.
  apply Matches_Seq_inv in HM. destruct HM as (st1 & H1 & HM).
  apply Matches_WordB_inv in H1. destruct H1 as [-> Hb].
  apply Matches_Seq_inv in HM. destruct HM as (st2 & H2 & H3).
  apply Matches_WordB_inv in H3. destruct H3 as [-> _].
  apply Matches_Grp_inv in H2. destruct H2 as (st3 & H2 & Hr & _ & _).
  apply Matches_alts_liti in H2; [|discriminate].
  destruct H2 as (name & t & Hname & Hrest & Hlow).
  exists name. split; [exact Hname|]. split; [|exact Hb].
  cbn [m_text]. rewrite <- Hr in Hrest.
  rewrite (consumed_app t _ _ Hrest), Hlow. now apply named_colors_lower.
Qed.

(** X14.  A value of the named-colour rule is one of the twenty-two names
    of the pattern, in lower case; it stands on the line as a substring
    that differs from the name at most in case, and the rule only applies
    when the property of the line mentions [color], [background],
    [border], [shadow] or [outline]. *)
Theorem named_colors_closed (ln prop v : jstring) :
  In v (namedColors ln prop) ->
  In v named_colors /\
  test COLOR_PROPERTY prop = true /\
  exists a w b, ln = a ++ w ++ b /\ toLowerCase w = v.
Proof.
  unfold namedColors. destruct (test COLOR_PROPERTY prop); [|intros []].
  intros H. apply in_map_iff in H. destruct H as (mr & <- & H).
  pose proof (matchAll_substring _ _ _ H) as (a & b & Hsub).
  unfold matchAll in H. apply scan_sound in H.
  destruct H as (s1 & s2 & _ & _ & H).
  apply named_exec_sound in H. destruct H as (name & Hname & Hlow & _).
  rewrite Hlow. split; [exact Hname|]. split; [reflexivity|].
  exists a, (m_text mr), b. auto.
Qed.

Lemma named_colors_closed_witness :
  In (str "navy") (namedColors (str "  border-color: Navy;") (str "border-color")) /\
  In (str "navy") named_colors /\
  test COLOR_PROPERTY (str "border-color") = true /\
  namedColors (str "  content: navy;") (str "content") = [].
Proof.
  assert (H : In (str "navy")
                 (namedColors (str "  border-color: Navy;") (str "border-color")))
    by (vm_compute; auto).
  destruct (named_colors_closed _ _ _ H) as (H1 & H2 & _).
  split; [exact H|]. split; [exact H1|]. split; [exact H2|].
  vm_compute. reflexivity.
Defined.

(** ** Fonts *)

Lemma trimStart_split (s : jstring) :
  exists a, s = a ++ trimStart s /\ forallb is_space a = true.
Proof.
  induction s as [|c s IH]; [exists []; auto|].
  cbn [trimStart]. destruct (is_space c) eqn:E.
  - destruct IH as (a & Hs & Ha). exists (c :: a). cbn [app forallb].
    rewrite E, Ha. split; [now rewrite <- Hs | reflexivity].
  - exists []. auto.
Qed.

Lemma trimStart_head (s : jstring) : head_is is_space (trimStart s) = false.
Proof.
  induction s as [|c s IH]; [reflexivity|].
  cbn [trimStart]. destruct (is_space c) eqn:E; [exact IH|].
  cbn [head_is]. exact E.
Qed.

Lemma trimEnd_prefix (s : jstring) :
  exists a, s = trimEnd s ++ a /\ forallb is_space a = true.
Proof.
  unfold trimEnd. destruct (trimStart_split (rev s)) as (a & Hs & Ha).
  exists (rev a). split.
  - rewrite <- rev_app_distr, <- Hs. symmetry. apply rev_involutive.
  - rewrite forallb_forall in *. intros x Hx. apply Ha. now apply in_rev.
Qed.

Lemma trim_trimmed (s : jstring) : trimmed (trim s).
Proof.
  unfold trimmed, trim. split.
  - destruct (trimEnd_prefix (trimStart s)) as (a & Hs & _).
    pose proof (trimStart_head s) as Hh. rewrite Hs in Hh.
    destruct (trimEnd (trimStart s)) as [|c t]; [reflexivity | exact Hh].
  - unfold trimEnd. rewrite rev_involutive. apply trimStart_head.
Qed.

Lemma trim_substring (s : jstring) :
  exists a b, s = a ++ trim s ++ b /\
              forallb is_space a = true /\ forallb is_space b = true.
Proof.
  unfold trim. destruct (trimStart_split s) as (a & Hs & Ha).
  destruct (trimEnd_prefix (trimStart s)) as (b & Ht & Hb).
  exists a, b. split; [|auto]. rewrite <- Ht. exact Hs.
Qed.

Lemma font_exec_sound (bef s : jstring) (mr : rmatch) :
  exec_at FONT_FAMILY bef s = Some mr ->
  exists gap,
    m_text mr = str "font-family" ++ gap ++ group 1 mr /\
    forallb not_semicolon (group 1 mr) = true /\ 1 <= length (group 1 mr).
Proof.
  intros H. apply exec_at_sound in H. destruct H as (st' & HM & ->).
  unfold FONT_FAMILY in HM. cbn [seqs] in HM.
  apply Matches_Seq_inv in HM. destruct HM as (st1 & H1 & HM).
  apply Matches_lit in H1. destruct H1 as (Hr1 & Hc1).
  apply Matches_Seq_inv in HM. destruct HM as (st2 & H2 & HM).
  apply Matches_Rep_inv in H2. destruct H2 as (t2 & Hr2 & _ & _ & _ & Hc2 & _).
  apply Matches_Seq_inv in HM. destruct HM as (st3 & H3 & HM).
  apply Matches_Chr_inv in H3. destruct H3 as (Hr3 & Hc3 & _).
  apply Matches_Seq_inv in HM. destruct HM as (st4 & H4 & HM).
  apply Matches_Rep_inv in H4. destruct H4 as (t4 & Hr4 & _ & _ & _ & Hc4 & _).
  apply Matches_Grp_inv in HM. destruct HM as (st5 & H5 & Hr5 & _ & Hc5).
  apply Matches_Rep_inv in H5. destruct H5 as (t5 & Hr & Hall & Hlen & _ & Hc & _).
  cbn [ms_rest ms_caps] in Hr1, Hc1.
  assert (E : consumed st4 st5 = t5) by (now apply consumed_app).
  assert (Hg : group 1 (RMatch (consumed (MState bef s []) st') (ms_caps st')) = t5).
  { unfold group. cbn [m_caps]. rewrite Hc5, Hc, Hc4, Hc3, Hc2, Hc1, E.
    reflexivity. }
  rewrite Hg. exists (t2 ++ ":"%char :: t4). repeat split; auto.
  cbn [m_text]. apply consumed_app. cbn [ms_rest].
  rewrite Hr1, Hr2, Hr3, Hr4, Hr, Hr5, <- !app_assoc. reflexivity.
Qed.

(** X15.  A font value is the text after [font-family], white space and a
    colon up to a semicolon, without the white space around it: it has
    more than two characters, holds no semicolon, neither starts nor ends
    with white space, and stands on the line after [font-family]. *)
Theorem font_values (ln v : jstring) :
  In v (fonts ln) ->
  2 < length v /\ ~ In ";"%char v /\ trimmed v /\
  exists a gap b, ln = a ++ str "font-family" ++ gap ++ v ++ b.
Proof.
  unfold fonts. intros H. apply in_flat_map in H. destruct H as (mr & Hmr & Hv).
  unfold fontOf in Hv.
  destruct (2 <? length (trim (group 1 mr))) eqn:Hlen; [|destruct Hv].
  destruct Hv as [<- | []]. apply Nat.ltb_lt in Hlen.
  pose proof (matchAll_substring _ _ _ Hmr) as (a & b & Hsub).
  unfold matchAll in Hmr. apply scan_sound in Hmr.
  destruct Hmr as (s1 & s2 & _ & _ & Hexec).
  apply font_exec_sound in Hexec. destruct Hexec as (gap & Htext & Hall & _).
  split; [exact Hlen|]. split; [|split; [apply trim_trimmed|]].
  - intros Hin. apply trim_incl in Hin.
    rewrite forallb_forall in Hall. apply Hall in Hin. discriminate Hin.
  - destruct (trim_substring (group 1 mr)) as (x & y & Hg & _).
    exists a, (gap ++ x), (y ++ b).
    rewrite Hsub, Htext. rewrite Hg at 1. rewrite <- !app_assoc. reflexivity.
Qed.

Lemma font_values_witness :
  In (str "Inter, sans-serif")
     (fonts (str "  font-family :  Inter, sans-serif ; color: red")) /\
  2 < length (str "Inter, sans-serif") /\
  trimmed (str "Inter, sans-serif") /\
  fonts (str "  font-family: ab;") = [].
Proof.
  assert (H : In (str "Inter, sans-serif")
                 (fonts (str "  font-family :  Inter, sans-serif ; color: red")))
    by (vm_compute; auto).
  destruct (font_values _ _ H) as (H1 & _ & H2 & _).
  split; [exact H|]. split; [exact H1|]. split; [exact H2|].
  vm_compute. reflexivity.
Defined.

(** ** The property of a line *)

Lemma search_Bol (r : regex) :
  forall s c bef, search (Seq Bol r) (c :: bef) s = None.
Proof.
  induction s as [|x s IH]; intros c bef; cbn [search]; unfold exec_at;
    cbn [matcher ms_before]; [reflexivity | apply IH].
Qed.

Lemma propertyOf_exec (ln : jstring) :
  propertyOf ln =
  match exec_at PROPERTY [] ln with
  | Some mr => group 1 mr
  | None => str "unknown"
  end.
Proof.
  unfold propertyOf. destruct ln as [|c ln]; cbn [search].
  - destruct (exec_at PROPERTY [] []); reflexivity.
  - destruct (exec_at PROPERTY [] (c :: ln)); [reflexivity|].
    unfold PROPERTY. cbn [seqs]. now rewrite search_Bol.
Qed.

Lemma property_exec_sound (bef s : jstring) (mr : rmatch) :
  exec_at PROPERTY bef s = Some mr ->
  exists indent name gap rest,
    s = indent ++ name ++ gap ++ ":"%char :: rest /\
    forallb is_space indent = true /\
    forallb is_word_or_hyphen name = true /\ 1 <= length name /\
    forallb is_space gap = true /\
    group 1 mr = name.
Proof.
  intros H. apply exec_at_sound in H. destruct H as (st' & HM & ->).
  unfold PROPERTY in HM. cbn [seqs] in HM.
  apply Matches_Seq_inv in HM. destruct HM as (st1 & H1 & HM).
  inversion H1; subst. clear H1.
  apply Matches_Seq_inv in HM. destruct HM as (st2 & H2 & HM).
  apply Matches_Rep_inv in H2. destruct H2 as (t2 & Hr2 & Ha2 & _ & _ & Hc2 & _).
  apply Matches_Seq_inv in HM. destruct HM as (st3 & H3 & HM).
  apply Matches_Grp_inv in H3. destruct H3 as (st3' & H3 & Hr3 & _ & Hc3).
  apply Matches_Rep_inv in H3. destruct H3 as (t3 & Hr & Ha3 & Hlen & _ & Hc & _).
  apply Matches_Seq_inv in HM. destruct HM as (st4 & H4 & HM).
  apply Matches_Rep_inv in H4. destruct H4 as (t4 & Hr4 & Ha4 & _ & _ & Hc4 & _).
  apply Matches_Chr_inv in HM. destruct HM as (Hr5 & Hc5 & _).
  cbn [ms_rest ms_caps] in Hr2, Hc2.
  assert (E : consumed st2 st3' = t3) by (now apply consumed_app).
  exists t2, t3, t4, (ms_rest st'). repeat split; auto.
  - rewrite Hr2, Hr, <- Hr3, Hr4, Hr5. reflexivity.
  - unfold group. cbn [m_caps]. rewrite Hc5, Hc4, Hc3, Hc, Hc2, E. reflexivity.
Qed.

Lemma property_exec_complete (indent name gap rest : jstring) :
  forallb is_space indent = true ->
  forallb is_word_or_hyphen name = true -> 1 <= length name ->
  forallb is_space gap = true ->
  exists mr, exec_at PROPERTY [] (indent ++ name ++ gap ++ ":"%char :: rest) = Some mr.
Proof.
  intros Hi Hn Hlen Hg.
  set (st0 := MState [] (indent ++ name ++ gap ++ ":"%char :: rest) []).
  set (st1 := MState (rev indent ++ []) (name ++ gap ++ ":"%char :: rest) []).
  set (st2 := MState (rev name ++ ms_before st1) (gap ++ ":"%char :: rest) []).
  set (st2' := MState (ms_before st2) (ms_rest st2) ((1, consumed st1 st2) :: ms_caps st2)).
  set (st3 := MState (rev gap ++ ms_before st2') (":"%char :: rest) (ms_caps st2')).
  set (st4 := MState (":"%char :: ms_before st3) rest (ms_caps st3)).
  apply (exec_at_complete PROPERTY [] _ st4).
  unfold PROPERTY. cbn [seqs].
  apply M_Seq with (st1 := st0); [now apply M_Bol|].
  apply M_Seq with (st1 := st1).
  { apply (M_Rep 0 None is_space st0 indent); auto; [lia | discriminate]. }
  apply M_Seq with (st1 := st2').
  { apply (M_Grp 1 _ st1 st2).
    apply (M_Rep 1 None is_word_or_hyphen st1 name); auto. discriminate. }
  apply M_Seq with (st1 := st3).
  { apply (M_Rep 0 None is_space st2' gap); auto; [lia | discriminate]. }
  apply (M_Chr ":" st3 rest). reflexivity.
Qed.

Lemma word_not_space (c : ascii) : is_word_or_hyphen c = true -> is_space c = false.
Proof.
  intros H.
  assert (Hall : forallb (fun x => implb (is_word_or_hyphen x) (negb (is_space x)))
                         all_chars = true) by (vm_compute; reflexivity).
  pose proof (forall_chars _ Hall c) as E. cbv beta in E. rewrite H in E.
  now apply negb_true_iff in E.
Qed.

Lemma space_not_word (c : ascii) : is_space c = true -> is_word_or_hyphen c = false.
Proof.
  intros H. destruct (is_word_or_hyphen c) eqn:E; [|reflexivity].
  apply word_not_space in E. congruence.
Qed.

Lemma head_name (name post : jstring) :
  forallb is_word_or_hyphen name = true -> 1 <= length name ->
  head_is is_space (name ++ post) = false.
Proof.
  destruct name as [|c name]; cbn [length]; [lia|].
  cbn [forallb app head_is]. intros H _. apply andb_true_iff in H.
  apply word_not_space. tauto.
Qed.

Lemma head_gap (gap rest : jstring) :
  forallb is_space gap = true ->
  head_is is_word_or_hyphen (gap ++ ":"%char :: rest) = false.
Proof.
  destruct gap as [|c gap]; cbn [forallb app head_is]; [reflexivity|].
  intros H. apply andb_true_iff in H. apply space_not_word. tauto.
Qed.

(** X16.  The property recorded for a line is the name before the first
    colon when the line starts with white space, a name of word
    characters and hyphens, white space and a colon; every other line has
    the property [unknown]. *)
Theorem property_of_line :
  (forall indent name gap rest : jstring,
     forallb is_space indent = true ->
     forallb is_word_or_hyphen name = true -> name <> [] ->
     forallb is_space gap = true ->
     propertyOf (indent ++ name ++ gap ++ ":"%char :: rest) = name) /\
  (forall ln : jstring,
     (exists indent gap rest,
        ln = indent ++ propertyOf ln ++ gap ++ ":"%char :: rest /\
        forallb is_space indent = true /\
        forallb is_word_or_hyphen (propertyOf ln) = true /\
        propertyOf ln <> [] /\
        forallb is_space gap = true) \/
     (propertyOf ln = str "unknown" /\
      forall indent name gap rest,
        forallb is_space indent = true ->
        forallb is_word_or_hyphen name = true -> name <> [] ->
        forallb is_space gap = true ->
        ln <> indent ++ name ++ gap ++ ":"%char :: rest)).
Proof.
  split.
  - intros indent name gap rest Hi Hn Hne Hg.
    assert (Hlen : 1 <= length name) by (destruct name; [congruence | cbn; lia]).
    rewrite propertyOf_exec.
    destruct (property_exec_complete indent name gap rest Hi Hn Hlen Hg) as [mr E].
    rewrite E. apply property_exec_sound in E.
    destruct E as (i' & n' & g' & r' & Heq & Hi' & Hn' & Hlen' & Hg' & ->).
    destruct (maximal_run_unique is_space _ _ _ _ Heq Hi Hi'
                (head_name _ _ Hn Hlen) (head_name _ _ Hn' Hlen')) as [_ Heq2].
    destruct (maximal_run_unique is_word_or_hyphen _ _ _ _ Heq2 Hn Hn'
                (head_gap _ _ Hg) (head_gap _ _ Hg')) as [E _].
    now symmetry.
  - intros ln. rewrite propertyOf_exec.
    destruct (exec_at PROPERTY [] ln) as [mr|] eqn:E.
    + left. apply property_exec_sound in E.
      destruct E as (i' & n' & g' & r' & Heq & Hi' & Hn' & Hlen' & Hg' & ->).
      exists i', g', r'. repeat split; auto.
      intros ->. cbn [length] in Hlen'. lia.
    + right. split; [reflexivity|].
      intros indent name gap rest Hi Hn Hne Hg ->.
      assert (Hlen : 1 <= length name) by (destruct name; [congruence | cbn; lia]).
      destruct (property_exec_complete indent name gap rest Hi Hn Hlen Hg) as [mr E'].
      congruence.
Qed.

Lemma property_of_line_witness :
  propertyOf (str "  border-radius : 4px;") = str "border-radius" /\
  propertyOf (str "a:hover { color: red; }") = str "a" /\
  propertyOf (str ".card { margin: 4px; }") = str "unknown".
Proof.
  split; [|split; vm_compute; reflexivity].
  apply (proj1 property_of_line (str "  ") (str "border-radius") (str " ")
           (str " 4px;")); try reflexivity. discriminate.
Defined.

(** ** The rewriter *)

(** X17.  Escaping a literal and compiling the result gives a pattern
    that matches the literal and nothing else: the escaped text is the
    literal with a backslash before each of the fourteen syntax
    characters, it always compiles, and the pattern matches at a position
    exactly when the text there starts with the literal. *)
Theorem escaped_pattern_is_literal (v : jstring) :
  escapeRegExp v = flat_map escaped_char v /\
  exists re,
    RegExp (escapeRegExp v) = Some re /\
    (forall bef s,
       exec_at re bef s = if startsWith s v then Some (RMatch v []) else None) /\
    (forall s, test re s = includes s v).
Proof.
  split; [apply escapeRegExp_flat_map|].
  exists (lit v). split; [apply RegExp_escapeRegExp|]. split.
  - intros bef s. apply exec_at_lit.
  - intros s. apply test_lit.
Qed.

Lemma scan_lit_count (v : jstring) :
  forall s skip bef, length (scan (lit v) skip bef s) = count_lit v skip s.
Proof.
  induction s as [|c s IH]; intros skip bef.
  - destruct skip as [|n]; cbn [scan count_lit]; [|reflexivity].
    rewrite exec_at_lit. destruct (startsWith [] v); reflexivity.
  - destruct skip as [|n]; cbn [scan count_lit]; [|apply IH].
    rewrite exec_at_lit. destruct (startsWith (c :: s) v).
    + cbn [length m_text]. now rewrite IH.
    + apply IH.
Qed.

Lemma count_lit_includes (v : jstring) :
  forall s, count_lit v 0 s = 0 <-> includes s v = false.
Proof.
  induction s as [|c s IH]; cbn [count_lit includes].
  - destruct (startsWith [] v); cbn [orb]; split; intros H;
      try reflexivity; discriminate.
  - destruct (startsWith (c :: s) v); cbn [orb].
    + split; intros H; discriminate.
    + exact IH.
Qed.

Lemma not_in_check (c : ascii) (s : jstring) :
  forallb (fun x => negb (Ascii.eqb x c)) s = true -> ~ In c s.
Proof.
  intros H Hin. rewrite forallb_forall in H. apply H in Hin.
  now rewrite Ascii.eqb_refl in Hin.
Qed.

(** X18.  When the variable name holds no dollar sign, one step of the
    replacement loop replaces the occurrences of the value, found from
    left to right without overlap, by the reference [var(name)] and adds
    their number to the total; a text without the value is left as it is
    and does not count as modified. *)
Theorem plain_name_replacement (st : Rewrite) (v n : jstring) :
  ~ In "$"%char n ->
  exists st',
    replaceValue st (v, n) = Some st' /\
    rw_content st' = replace_lit v (wrapper n) 0 (rw_content st) /\
    rw_total st' = rw_total st + count_lit v 0 (rw_content st) /\
    (includes (rw_content st) v = false -> st' = st) /\
    (includes (rw_content st) v = true -> rw_modified st' = true).
Proof.
  intros Hn. destruct (replaceValue_total st (v, n)) as [st' H].
  exists st'. split; [exact H|]. split; [now apply replaceValue_content|].
  unfold replaceValue in H. rewrite RegExp_escapeRegExp in H.
  pose proof (scan_lit_count v (rw_content st) 0 []) as Hcount.
  fold (matchAll (lit v) (rw_content st)) in Hcount.
  pose proof (count_lit_includes v (rw_content st)) as Hinc.
  destruct (matchAll (lit v) (rw_content st)) as [|mr l]; injection H as <-.
  - cbn [length] in Hcount. rewrite <- Hcount. repeat split; auto.
    intros E. rewrite <- Hcount in Hinc. rewrite (proj1 Hinc eq_refl) in E.
    discriminate E.
  - cbn [rw_total rw_modified]. cbn [length] in Hcount. rewrite Hcount.
    repeat split; auto.
    intros E. apply Hinc in E. rewrite <- Hcount in E. discriminate E.
Qed.

Lemma plain_name_replacement_witness :
  ~ In "$"%char (str "--cv-color-1") /\
  replaceValue (mkRewrite (str "a{color:#abc;border-color:#abc}") 0 false)
               (str "#abc", str "--cv-color-1") =
    Some (mkRewrite (str "a{color:var(--cv-color-1);border-color:var(--cv-color-1)}")
                    2 true).
Proof.
  assert (Hn : ~ In "$"%char (str "--cv-color-1"))
    by (apply not_in_check; vm_compute; reflexivity).
  split; [exact Hn|].
  destruct (plain_name_replacement
              (mkRewrite (str "a{color:#abc;border-color:#abc}") 0 false)
              (str "#abc") (str "--cv-color-1") Hn)
    as (st' & -> & Hc & Ht & _ & Hm).
  destruct st' as [content total modified].
  cbn [rw_content rw_total rw_modified] in Hc, Ht, Hm.
  rewrite Hc, Ht, Hm by (vm_compute; reflexivity).
  vm_compute. reflexivity.
Defined.

(** ** The namer *)

Lemma map_get_set {V : Type} (mp : Map V) (k k' : jstring) (v : V) :
  map_get (map_set mp k v) k' = if jeqb k k' then Some v else map_get mp k'.
Proof.
  destruct (jeqb k k') eqn:E.
  - apply jeqb_true in E. subst k'. apply map_get_set_eq.
  - apply jeqb_false in E. now apply map_get_set_ne.
Qed.

Lemma nameLoop_agree (pre : jstring) :
  forall (repeated : Map ExtractedValue) (cs : Counters) (acc : Names),
    NoDup (keys repeated) ->
    (forall v, In v (keys repeated) -> map_get (varMap acc) v = None) ->
    names_agree acc ->
    names_agree (nameLoop pre repeated cs acc) /\
    keys (varMap (nameLoop pre repeated cs acc)) = keys (varMap acc) ++ keys repeated.
Proof.
  induction repeated as [|[val info] repeated IH]; intros cs acc Hnd Hnew Hacc.
  - cbn [nameLoop keys map]. rewrite app_nil_r. auto.
  - cbn [keys map fst] in Hnd, Hnew. inversion Hnd as [|? ? Hval Hnd']; subst.
    cbn [nameLoop]. destruct (post_increment cs (type info)) as [idx cs'].
    set (name := generateVarName pre (type info) val idx).
    set (acc' := mkNames (map_set (varMap acc) val name)
                         (map_set (rootVars acc) name val)).
    assert (Hfresh : map_get (varMap acc) val = None) by (apply Hnew; now left).
    destruct (IH cs' acc' Hnd') as [Hagree Hkeys].
    + intros v Hv. unfold acc'. cbn [varMap]. rewrite map_get_set.
      destruct (jeqb val v) eqn:E.
      * apply jeqb_true in E. subst v. contradiction.
      * apply Hnew. now right.
    + destruct Hacc as [Hroot Hvar]. unfold acc'. split; cbn [varMap rootVars].
      * intros n v. rewrite !map_get_set.
        destruct (jeqb name n) eqn:En.
        -- intros [= <-]. rewrite jeqb_refl. apply jeqb_true in En. now subst n.
        -- intros H. apply Hroot in H. destruct (jeqb val v) eqn:Ev; [|exact H].
           apply jeqb_true in Ev. subst v. congruence.
      * intros v n. rewrite map_get_set.
        destruct (jeqb val v) eqn:Ev.
        -- intros [= <-]. exists val. now rewrite map_get_set, jeqb_refl.
        -- intros H. apply Hvar in H. destruct H as [v' H].
           rewrite map_get_set. destruct (jeqb name n); eauto.
    + split; [exact Hagree|]. rewrite Hkeys. unfold acc'. cbn [varMap].
      rewrite keys_map_set, Hfresh, <- app_assoc. reflexivity.
Qed.

(** X19.  The naming loop gives every selected value one name, in the
    order of the selection, and its two maps agree: the value recorded for
    a name is a selected value that has this name, and every name given
    to a value is recorded. *)
Theorem names_follow_selection (pre : jstring) (repeated : Map ExtractedValue) :
  NoDup (keys repeated) ->
  keys (varMap (generateNames pre repeated)) = keys repeated /\
  names_agree (generateNames pre repeated) /\
  length (rootVars (generateNames pre repeated)) <= length repeated.
Proof.
  intros Hnd. unfold generateNames.
  destruct (nameLoop_agree pre repeated (mkCounters 0 0 0) (mkNames [] []) Hnd)
    as [Hagree Hkeys].
  { reflexivity. }
  { split; cbn [varMap rootVars map_get]; intros ? ? H; discriminate H. }
  split; [exact Hkeys|]. split; [exact Hagree|].
  clear Hagree Hkeys Hnd.
  assert (H : forall sel cs acc,
            length (rootVars (nameLoop pre sel cs acc))
              <= length (rootVars acc) + length sel).
  { induction sel as [|[val info] sel IH]; intros cs acc; cbn [nameLoop length].
    - lia.
    - destruct (post_increment cs (type info)) as [idx cs'].
      etransitivity; [apply IH|]. cbn [rootVars].
      assert (Hset : forall (mp : Map jstring) k v,
                length (map_set mp k v) <= S (length mp)).
      { induction mp as [|[k0 v0] mp IHmp]; intros k v; cbn [map_set length]; [lia|].
        destruct (jeqb k0 k); cbn [length]; [lia|]. specialize (IHmp k v). lia. }
      specialize (Hset (rootVars acc) (generateVarName pre (type info) val idx) val).
      lia. }
  exact (H repeated (mkCounters 0 0 0) (mkNames [] [])).
Qed.

Lemma names_follow_selection_witness :
  NoDup (keys (selectRepeated (Num 2) theme_all)) /\
  keys (varMap (generateNames (str "cv") (selectRepeated (Num 2) theme_all))) =
    keys (selectRepeated (Num 2) theme_all) /\
  keys (selectRepeated (Num 2) theme_all) =
    [str "#ffffff"; str "#1a2b3c"; str "16px"].
Proof.
  assert (Hnd : NoDup (keys (selectRepeated (Num 2) theme_all))).
  { assert (E : keys (selectRepeated (Num 2) theme_all) =
                [str "#ffffff"; str "#1a2b3c"; str "16px"])
      by (vm_compute; reflexivity).
    rewrite E. repeat constructor; cbn [In]; intros H;
      repeat (destruct H as [H | H]; [discriminate H|]); exact H. }
  destruct (names_follow_selection (str "cv") _ Hnd) as (Hkeys & _ & _).
  split; [exact Hnd|]. split; [exact Hkeys|]. vm_compute. reflexivity.
Defined.

Lemma str_inj (a b : string) : str a = str b -> a = b.
Proof.
  unfold str. intros H. apply (f_equal string_of_list_ascii) in H.
  now rewrite !string_of_list_ascii_of_string in H.
Qed.

Lemma to_uint_nonnil (n : nat) : Nat.to_uint n <> Decimal.Nil.
Proof.
  rewrite <- (DecimalNat.Unsigned.of_to n) at 1.
  rewrite DecimalNat.Unsigned.to_of. apply DecimalFacts.unorm_nonnil.
Qed.

Lemma decimal_inj (a b : nat) : decimal a = decimal b -> a = b.
Proof.
  unfold decimal. intros H. apply str_inj in H.
  apply (f_equal NilZero.uint_of_string) in H.
  rewrite !NilZero.usu in H by apply to_uint_nonnil.
  injection H as H. now apply DecimalNat.Unsigned.to_uint_inj.
Qed.

Lemma earlier_of_type_lt (ty : vtype) :
  forall (repeated : Map ExtractedValue) (i j : nat) (v : jstring)
         (info : ExtractedValue),
    nth_error repeated i = Some (v, info) -> type info = ty -> i < j ->
    earlier_of_type ty repeated i < earlier_of_type ty repeated j.
Proof.
  unfold earlier_of_type.
  induction repeated as [|[k e] repeated IH]; intros i j v info Hnth Hty Hlt.
  - destruct i; discriminate.
  - destruct j as [|j]; [lia|]. destruct i as [|i]; cbn [nth_error] in Hnth.
    + injection Hnth as -> ->. cbn [firstn filter snd length].
      rewrite Hty. destruct ty; cbn [vtype_eqb length]; lia.
    + cbn [firstn filter snd].
      assert (H := IH i j v info Hnth Hty ltac:(lia)).
      destruct (vtype_eqb (type e) ty); cbn [length]; lia.
Qed.

Lemma not_in_list_check (v : jstring) (l : list jstring) :
  forallb (fun x => negb (jeqb x v)) l = true -> ~ In v l.
Proof.
  intros H Hin. rewrite forallb_forall in H. apply H in Hin.
  now rewrite jeqb_refl in Hin.
Qed.

(** X20.  Two selected colours that are neither white nor black never get
    the same name: their ordinals differ. *)
Theorem ordinal_color_names_distinct (pre : jstring)
    (repeated : Map ExtractedValue) (i j : nat) (v1 v2 : jstring)
    (e1 e2 : ExtractedValue) :
  NoDup (keys repeated) ->
  nth_error repeated i = Some (v1, e1) -> nth_error repeated j = Some (v2, e2) ->
  i < j -> type e1 = color -> type e2 = color ->
  ~ In (toLowerCase v1) white_or_black -> ~ In (toLowerCase v2) white_or_black ->
  map_get (varMap (generateNames pre repeated)) v1 <>
  map_get (varMap (generateNames pre repeated)) v2.
Proof.
  intros Hnd H1 H2 Hlt Ht1 Ht2 Hw1 Hw2. unfold generateNames.
  rewrite (nameLoop_get pre repeated _ _ i v1 e1 Hnd H1).
  rewrite (nameLoop_get pre repeated _ _ j v2 e2 Hnd H2).
  rewrite Ht1, Ht2. cbn [counter cnt_color Nat.add].
  pose proof (earlier_of_type_lt color repeated i j v1 e1 H1 Ht1 Hlt) as Hord.
  assert (Hname : forall v k,
            ~ In (toLowerCase v) white_or_black ->
            generateVarName pre color v k =
            (str "--" ++ pre ++ str "-" ++ type_name color) ++ str "-" ++ decimal (k + 1)).
  { intros v k Hw. unfold generateVarName.
    destruct (jeqb (toLowerCase v) (str "#fff")) eqn:E1;
      [apply jeqb_true in E1; exfalso; apply Hw; rewrite E1; cbn; tauto|].
    destruct (jeqb (toLowerCase v) (str "#ffffff")) eqn:E2;
      [apply jeqb_true in E2; exfalso; apply Hw; rewrite E2; cbn; tauto|].
    destruct (jeqb (toLowerCase v) (str "#000")) eqn:E3;
      [apply jeqb_true in E3; exfalso; apply Hw; rewrite E3; cbn; tauto|].
    destruct (jeqb (toLowerCase v) (str "#000000")) eqn:E4;
      [apply jeqb_true in E4; exfalso; apply Hw; rewrite E4; cbn; tauto|].
    reflexivity. }
  rewrite (Hname v1 _ Hw1), (Hname v2 _ Hw2). intros [= E].
  apply app_inv_head in E. injection E as E.
  apply decimal_inj in E. lia.
Qed.

Lemma ordinal_color_names_distinct_witness :
  keys palette_selected = [str "#112233"; str "#445566"] /\
  map_get (varMap (generateNames (str "cv") palette_selected)) (str "#112233") <>
  map_get (varMap (generateNames (str "cv") palette_selected)) (str "#445566").
Proof.
  split; [vm_compute; reflexivity|].
  eapply (ordinal_color_names_distinct (str "cv") palette_selected 0 1).
  - apply NoDup_keys_filter. apply extractValues_NoDup.
  - vm_compute. reflexivity.
  - vm_compute. reflexivity.
  - lia.
  - reflexivity.
  - reflexivity.
  - apply not_in_list_check. vm_compute. reflexivity.
  - apply not_in_list_check. vm_compute. reflexivity.
Defined.

(** ** The block *)

Lemma group_fold (pre : jstring) :
  forall (vars : Map jstring) (g : Grouped),
    fold_left (group_entry pre) vars g =
    mkGrouped (g_color g ++ filter (in_colors pre) vars)
              (g_spacing g ++ filter (in_spacing pre) vars)
              (g_font g ++ filter (in_fonts pre) vars).
Proof.
  induction vars as [|e vars IH]; intros g.
  - cbn [fold_left filter]. rewrite !app_nil_r. now destruct g.
  - cbn [fold_left filter]. rewrite IH.
    unfold group_entry, in_spacing, in_fonts, in_colors.
    destruct (includes (fst e) (str "-" ++ pre ++ str "-color"));
      cbn [negb andb g_color g_spacing g_font];
      [now rewrite <- app_assoc|].
    destruct (includes (fst e) (str "-" ++ pre ++ str "-spacing"));
      cbn [negb andb g_color g_spacing g_font];
      [now rewrite <- app_assoc|].
    destruct (includes (fst e) (str "-" ++ pre ++ str "-font"));
      cbn [negb andb g_color g_spacing g_font];
      [now rewrite <- app_assoc | reflexivity].
Qed.

(** X21.  The block is the line [:root {], then the colours, the lengths
    and the fonts, each group under its heading and left out when it is
    empty, then the closing brace.  A group lists the variables in the
    order of the map; a variable belongs to the first of the three groups
    whose marker its name includes, and to none when it includes none. *)
Theorem root_block_shape (variables : Map jstring) (pre : jstring) :
  generateRootBlock variables pre =
  join [LF]
    ([str ":root {"] ++
     section (str "  /* Colors */") (filter (in_colors pre) variables) ++
     section (str "  /* Spacing */") (filter (in_spacing pre) variables) ++
     section (str "  /* Fonts */") (filter (in_fonts pre) variables) ++
     [str "}"]) /\
  (forall e, in_colors pre e && in_spacing pre e = false /\
             in_colors pre e && in_fonts pre e = false /\
             in_spacing pre e && in_fonts pre e = false).
Proof.
  split.
  - unfold generateRootBlock, rootBlockLines. rewrite group_fold. reflexivity.
  - intros e. unfold in_spacing, in_fonts.
    destruct (in_colors pre e);
      destruct (includes (fst e) (str "-" ++ pre ++ str "-spacing"));
      destruct (includes (fst e) (str "-" ++ pre ++ str "-font")); auto.
Qed.

Lemma generateVarName_marker (pre : jstring) (ty : vtype) (v : jstring) (i : nat) :
  exists t,
    generateVarName pre ty v i =
    str "-" ++ (str "-" ++ pre ++ str "-" ++ type_name ty) ++ t.
Proof.
  unfold generateVarName. destruct ty; cbn [type_name].
  - destruct (jeqb (toLowerCase v) (str "#fff") || jeqb (toLowerCase v) (str "#ffffff")).
    { exists (str "-white"). cbn [str list_ascii_of_string app].
      rewrite <- !app_assoc. reflexivity. }
    destruct (jeqb (toLowerCase v) (str "#000") || jeqb (toLowerCase v) (str "#000000")).
    { exists (str "-black"). cbn [str list_ascii_of_string app].
      rewrite <- !app_assoc. reflexivity. }
    eexists. cbn [str list_ascii_of_string app]. rewrite <- !app_assoc. reflexivity.
  - eexists. cbn [str list_ascii_of_string app]. rewrite <- !app_assoc. reflexivity.
  - eexists. cbn [str list_ascii_of_string app]. rewrite <- !app_assoc. reflexivity.
Qed.

Lemma generateVarName_grouped (pre : jstring) (ty : vtype) (v v' : jstring) (i : nat) :
  let e := (generateVarName pre ty v i, v') in
  in_colors pre e || in_spacing pre e || in_fonts pre e = true.
Proof.
  cbv zeta. unfold in_spacing, in_fonts, in_colors. cbn [fst].
  destruct (generateVarName_marker pre ty v i) as [t E].
  assert (H : includes (generateVarName pre ty v i)
                (str "-" ++ pre ++ str "-" ++ type_name ty) = true).
  { apply includes_app. exists (str "-"), t. exact E. }
  destruct ty; cbn [type_name] in H.
  - change (str "-" ++ pre ++ str "-color") with (str "-" ++ pre ++ str "-" ++ str "color").
    now rewrite H.
  - change (str "-" ++ pre ++ str "-spacing")
      with (str "-" ++ pre ++ str "-" ++ str "spacing").
    rewrite H. now destruct (includes _ (str "-" ++ pre ++ str "-color")).
  - change (str "-" ++ pre ++ str "-font") with (str "-" ++ pre ++ str "-" ++ str "font").
    rewrite H. destruct (includes _ (str "-" ++ pre ++ str "-color"));
      [reflexivity|].
    now destruct (includes _ (str "-" ++ pre ++ str "-spacing")).
Qed.

Lemma section_declares (title : jstring) (entries : list (jstring * jstring))
    (e : jstring * jstring) :
  In e entries -> In (declaration e) (section title entries).
Proof.
  intros H. destruct entries as [|x l]; [destruct H|].
  unfold section. right. now apply in_map.
Qed.

(** X22.  Every variable the naming loop records is declared in the
    block: the line [  name: value;] is one of its lines. *)
Theorem every_variable_declared (pre : jstring) (repeated : Map ExtractedValue)
    (n v : jstring) :
  In (n, v) (rootVars (generateNames pre repeated)) ->
  In (declaration (n, v))
     (rootBlockLines (rootVars (generateNames pre repeated)) pre).
Proof.
  intros Hin. unfold rootBlockLines. rewrite group_fold.
  cbn [g_color g_spacing g_font app].
  assert (Hname : exists ty i, n = generateVarName pre ty v i).
  { unfold generateNames in Hin.
    destruct (nameLoop_entries pre repeated _ _ v n (or_intror Hin))
      as [[] | [[] | (_ & H)]]. exact H. }
  destruct Hname as (ty & i & ->).
  pose proof (generateVarName_grouped pre ty v v i) as Hg. cbv zeta in Hg.
  right.
  destruct (in_colors pre (generateVarName pre ty v i, v)) eqn:Ec.
  { apply in_or_app. left. apply section_declares. apply filter_In. auto. }
  destruct (in_spacing pre (generateVarName pre ty v i, v)) eqn:Es.
  { apply in_or_app. right. apply in_or_app. left.
    apply section_declares. apply filter_In. auto. }
  cbn [orb] in Hg.
  apply in_or_app. right. apply in_or_app. right. apply in_or_app. left.
  apply section_declares. apply filter_In. auto.
Qed.

Lemma every_variable_declared_witness :
  In (str "--cv-color-2", str "#445566")
     (rootVars (generateNames (str "cv") palette_selected)) /\
  In (str "  --cv-color-2: #445566;")
     (rootBlockLines (rootVars (generateNames (str "cv") palette_selected)) (str "cv")).
Proof.
  assert (H : In (str "--cv-color-2", str "#445566")
                 (rootVars (generateNames (str "cv") palette_selected)))
    by (vm_compute; auto).
  split; [exact H|].
  exact (every_variable_declared (str "cv") palette_selected _ _ H).
Defined.

(** ** Names of lengths *)

Lemma replaceAll_Cls (p : ascii -> bool) (d : ascii) (s : jstring) :
  d <> "$"%char ->
  replaceAll (Cls p) [d] s = map (fun c => if p c then d else c) s.
Proof.
  intros Hd. unfold replaceAll.
  assert (Hsub : forall m b a, substitution [d] m b a = [d]).
  { intros m b a. cbn [substitution].
    destruct (Ascii.eqb d "$"%char) eqn:E; [|reflexivity].
    apply Ascii.eqb_eq in E. contradiction. }
  assert (H : forall bef,
            replace_scan (Cls p) [d] 0 bef s =
            map (fun c => if p c then d else c) s); [|apply H].
  induction s as [|c s IH]; intros bef; [reflexivity|].
  cbn [replace_scan map]. rewrite exec_at_Cls.
  destruct (p c).
  - cbn [m_text length pred]. rewrite Hsub, IH. reflexivity.
  - rewrite IH. reflexivity.
Qed.

Lemma spacing_name (pre v : jstring) (i : nat) :
  generateVarName pre spacing v i =
  str "--" ++ pre ++ str "-spacing-" ++ map hyphenate v.
Proof.
  unfold generateVarName.
  change (replaceAll NON_ALNUM (str "-") v)
    with (replaceAll (Cls (fun c => negb (is_alnum c))) ["-"%char] v).
  rewrite replaceAll_Cls by discriminate.
  cbn [type_name]. rewrite <- !app_assoc.
  assert (E : map (fun c => if negb (is_alnum c) then "-"%char else c) v =
              map hyphenate v).
  { apply map_ext. intros c. unfold hyphenate. now destruct (is_alnum c). }
  rewrite E. reflexivity.
Qed.

Lemma unhyphenate_char (c : ascii) :
  is_digit_or_dot c = true ->
  (if Ascii.eqb (hyphenate c) "-"%char then "."%char else hyphenate c) = c.
Proof.
  intros H.
  assert (Hall : forallb (fun x =>
            implb (is_digit_or_dot x)
                  (Ascii.eqb (if Ascii.eqb (hyphenate x) "-"%char
                              then "."%char else hyphenate x) x))
            all_chars = true) by (vm_compute; reflexivity).
  pose proof (forall_chars _ Hall c) as E. cbv beta in E. rewrite H in E.
  now apply Ascii.eqb_eq in E.
Qed.

Lemma unhyphenate_app (num rest : jstring) :
  forallb is_digit_or_dot num = true -> rest <> [] ->
  unhyphenate (map hyphenate (num ++ rest)) = num ++ unhyphenate (map hyphenate rest).
Proof.
  intros Hnum Hrest. induction num as [|c num IH]; [reflexivity|].
  cbn [forallb] in Hnum. apply andb_true_iff in Hnum. destruct Hnum as [Hc Hnum].
  cbn [app map]. 
  destruct (map hyphenate (num ++ rest)) as [|x l] eqn:E.
  - exfalso. apply map_eq_nil in E. apply app_eq_nil in E. tauto.
  - change (unhyphenate (hyphenate c :: x :: l))
      with ((if Ascii.eqb (hyphenate c) "-"%char then "."%char else hyphenate c)
            :: unhyphenate (x :: l)).
    rewrite (IH Hnum), (unhyphenate_char c Hc). reflexivity.
Qed.

Lemma unhyphenate_unit (unit : jstring) :
  In unit units -> unit <> [] /\ unhyphenate (map hyphenate unit) = unit.
Proof.
  unfold units. cbn [map In].
  intros [<- | [<- | [<- | [<- | [<- | [<- | []]]]]]];
    split; try discriminate; vm_compute; reflexivity.
Qed.

(** X23.  The name of a length is [--{prefix}-spacing-] followed by the
    value in which every character that is not a letter or digit has
    become a hyphen.  For a value of the shape the classifier extracts, a
    decimal followed by a unit, the value can be read back from the name,
    so two different lengths never get the same name. *)
Theorem spacing_name_round_trip (pre num unit : jstring) (i : nat) :
  is_decimal num = true -> In unit units ->
  generateVarName pre spacing (num ++ unit) i =
    str "--" ++ pre ++ str "-spacing-" ++ map hyphenate (num ++ unit) /\
  unhyphenate (map hyphenate (num ++ unit)) = num ++ unit /\
  (forall num' unit' j,
     is_decimal num' = true -> In unit' units ->
     generateVarName pre spacing (num ++ unit) i =
     generateVarName pre spacing (num' ++ unit') j ->
     num ++ unit = num' ++ unit').
Proof.
  assert (Hback : forall n u,
            is_decimal n = true -> In u units ->
            unhyphenate (map hyphenate (n ++ u)) = n ++ u).
  { intros n u Hn Hu. unfold is_decimal in Hn. apply andb_true_iff in Hn.
    destruct Hn as [_ Hn]. apply is_decimal_chars in Hn.
    destruct (unhyphenate_unit u Hu) as [Hne Hunit].
    now rewrite unhyphenate_app, Hunit. }
  intros Hnum Hunit. split; [apply spacing_name|]. split; [now apply Hback|].
  intros num' unit' j Hnum' Hunit' E.
  rewrite !spacing_name in E.
  apply app_inv_head in E. apply app_inv_head in E. apply app_inv_head in E.
  rewrite <- (Hback num unit Hnum Hunit), <- (Hback num' unit' Hnum' Hunit').
  now rewrite E.
Qed.

Lemma spacing_name_round_trip_witness :
  is_decimal (str "1.5") = true /\ In (str "rem") units /\
  generateVarName (str "cv") spacing (str "1.5rem") 0 = str "--cv-spacing-1-5rem" /\
  unhyphenate (str "1-5rem") = str "1.5rem" /\
  unhyphenate (map hyphenate (str "12.5%")) = str "12.5%".
Proof.
  assert (Hnum : is_decimal (str "1.5") = true) by (vm_compute; reflexivity).
  assert (Hunit : In (str "rem") units) by (vm_compute; auto).
  destruct (spacing_name_round_trip (str "cv") (str "1.5") (str "rem") 0 Hnum Hunit)
    as (Hname & Hback & _).
  split; [exact Hnum|]. split; [exact Hunit|]. split; [exact Hname|].
  split; [exact Hback|]. vm_compute. reflexivity.
Defined.

(** ** White space in values and names *)

Lemma run_of_split (p : ascii -> bool) (s : jstring) :
  firstn (length (run_of p s)) s = run_of p s /\
  forallb p (run_of p s) = true /\
  head_is p (skipn (length (run_of p s)) s) = false /\
  length (run_of p s) <= length s.
Proof.
  induction s as [|c s IH]; cbn [run_of].
  - repeat split; auto.
  - destruct (p c) eqn:E.
    + cbn [length firstn skipn forallb]. rewrite E.
      destruct IH as (H1 & H2 & H3 & H4). rewrite H1.
      repeat split; auto. lia.
    + cbn [length firstn skipn forallb head_is]. repeat split; auto. lia.
Qed.

(** A greedy repetition without upper bound takes the longest run. *)
Lemma rep_greedy (p : ascii -> bool) (caps : list (nat * jstring)) :
  forall rest lo bef,
    rep p lo None bef rest caps Some =
    if lo <=? length (run_of p rest)
    then Some (MState (rev (run_of p rest) ++ bef)
                      (skipn (length (run_of p rest)) rest) caps)
    else None.
Proof.
  induction rest as [|c rest IH]; intros lo bef.
  - cbn [rep run_of length rev app skipn]. destruct lo; reflexivity.
  - cbn [rep run_of]. destruct (p c) eqn:E; cbn [andb hi_allows].
    + rewrite IH. cbn [option_map length rev skipn].
      destruct lo as [|lo]; cbn [pred Nat.leb].
      * cbn [Nat.leb]. now rewrite <- app_assoc.
      * destruct (lo <=? length (run_of p rest)); [|reflexivity].
        now rewrite <- app_assoc.
    + cbn [length rev app skipn]. destruct lo; reflexivity.
Qed.

Lemma exec_at_SPACES (bef s : jstring) :
  exec_at SPACES bef s =
  if head_is is_space s then Some (RMatch (run_of is_space s) []) else None.
Proof.
  unfold exec_at, SPACES. cbn [matcher ms_before ms_rest ms_caps].
  rewrite rep_greedy.
  destruct (run_of_split is_space s) as (Hfirst & _ & _ & Hlen).
  destruct s as [|c s]; [reflexivity|].
  cbn [head_is run_of] in *. destruct (is_space c); [|reflexivity].
  cbn [length Nat.leb]. f_equal. f_equal.
  unfold consumed. cbn [ms_rest].
  rewrite length_skipn.
  match goal with
  | |- firstn ?n _ = _ =>
      replace n with (length (c :: run_of is_space s))
        by (cbn [length] in *; lia)
  end.
  exact Hfirst.
Qed.

Lemma replace_scan_collapse (w : jstring) :
  ~ In "$"%char w ->
  forall s,
    (forall bef, replace_scan SPACES w 0 bef s = collapse w false s) /\
    (forall skip bef,
       forallb is_space (firstn skip s) = true -> skip <= length s ->
       head_is is_space (skipn skip s) = false ->
       replace_scan SPACES w skip bef s = collapse w true s).
Proof.
  intros Hw. induction s as [|c s [IHA IHB]].
  - split.
    + intros bef. cbn [replace_scan]. rewrite exec_at_SPACES. reflexivity.
    + intros [|skip] bef _ Hlen _; [|cbn [length] in Hlen; lia].
      cbn [replace_scan]. rewrite exec_at_SPACES. reflexivity.
  - split.
    + intros bef. cbn [replace_scan collapse]. rewrite exec_at_SPACES.
      cbn [head_is run_of]. destruct (is_space c) eqn:E.
      * cbn [m_text length pred app]. rewrite substitution_plain by exact Hw.
        f_equal. destruct (run_of_split is_space s) as (H1 & H2 & H3 & H4).
        apply IHB; [now rewrite H1 | exact H4 | exact H3].
      * now rewrite IHA.
    + intros [|skip] bef Hall Hlen Hhead.
      * cbn [skipn head_is] in Hhead. cbn [replace_scan collapse].
        rewrite exec_at_SPACES. cbn [head_is]. rewrite Hhead.
        now rewrite IHA.
      * cbn [firstn forallb] in Hall. apply andb_true_iff in Hall.
        destruct Hall as [Hc Hall]. cbn [length] in Hlen.
        cbn [replace_scan collapse]. rewrite Hc. cbn [app].
        apply IHB; [exact Hall | lia | exact Hhead].
Qed.

Lemma replaceAll_SPACES (w s : jstring) :
  ~ In "$"%char w -> replaceAll SPACES w s = collapse w false s.
Proof.
  intros Hw. unfold replaceAll. apply (replace_scan_collapse w Hw s).
Qed.

Lemma collapse_single_spaced :
  forall s b, single_spaced b (collapse (str " ") b s) = true.
Proof.
  induction s as [|c s IH]; intros b; [reflexivity|].
  cbn [collapse]. destruct (is_space c) eqn:E.
  - destruct b; cbn [app]; [apply IH|].
    cbn [str list_ascii_of_string app single_spaced].
    change (is_space " ") with true. cbn [Ascii.eqb Bool.eqb negb andb].
    apply IH.
  - cbn [single_spaced]. rewrite E. apply IH.
Qed.

(** X24.  An [rgb] or [hsl] value is the matched text with every run of
    white space replaced by one space: the only white space it holds is
    the space character, never twice in a row. *)
Theorem functional_colors_single_spaced (ln v : jstring) :
  In v (rgbColors ln ++ hslColors ln) ->
  (exists a t b, ln = a ++ t ++ b /\ v = collapse (str " ") false t) /\
  single_spaced false v = true.
Proof.
  assert (Hsp : ~ In "$"%char (str " ")) by (intros [E | []]; discriminate E).
  assert (H : forall r,
            In v (map (fun mr => replaceAll SPACES (str " ") (m_text mr))
                      (matchAll r ln)) ->
            exists a t b, ln = a ++ t ++ b /\ v = collapse (str " ") false t).
  { intros r Hin. apply in_map_iff in Hin. destruct Hin as (mr & <- & Hmr).
    destruct (matchAll_substring _ _ _ Hmr) as (a & b & Hsub).
    exists a, (m_text mr), b. split; [exact Hsub|].
    now apply replaceAll_SPACES. }
  intros Hin.
  assert (Hshape : exists a t b, ln = a ++ t ++ b /\ v = collapse (str " ") false t).
  { apply in_app_or in Hin. destruct Hin as [Hin | Hin]; exact (H _ Hin). }
  split; [exact Hshape|].
  destruct Hshape as (a & t & b & _ & ->). apply collapse_single_spaced.
Qed.

Lemma functional_colors_single_spaced_witness :
  In (str "hsl(210, 50%, 40%)")
     (rgbColors (str "color: hsl(210,   50%,  40%);") ++
      hslColors (str "color: hsl(210,   50%,  40%);")) /\
  single_spaced false (str "hsl(210, 50%, 40%)") = true.
Proof.
  assert (H : In (str "hsl(210, 50%, 40%)")
                 (rgbColors (str "color: hsl(210,   50%,  40%);") ++
                  hslColors (str "color: hsl(210,   50%,  40%);")))
    by (vm_compute; auto).
  split; [exact H|].
  exact (proj2 (functional_colors_single_spaced _ _ H)).
Defined.

Lemma replaceAll_Cls_remove (p : ascii -> bool) (s : jstring) :
  replaceAll (Cls p) [] s = filter (fun c => negb (p c)) s.
Proof.
  unfold replaceAll.
  assert (H : forall bef,
            replace_scan (Cls p) [] 0 bef s = filter (fun c => negb (p c)) s);
    [|apply H].
  induction s as [|c s IH]; intros bef; [reflexivity|].
  cbn [replace_scan filter]. rewrite exec_at_Cls.
  destruct (p c); cbn [negb].
  - cbn [m_text length pred substitution app]. apply IH.
  - now rewrite IH.
Qed.

Lemma collapse_chars (w : jstring) (x : ascii) :
  forall s b, In x (collapse w b s) -> (In x s /\ is_space x = false) \/ In x w.
Proof.
  induction s as [|c s IH]; intros b H; [destruct H|].
  cbn [collapse] in H. destruct (is_space c) eqn:E.
  - apply in_app_or in H. destruct H as [H | H].
    + destruct b; [destruct H | now right].
    + apply IH in H. destruct H as [[H1 H2] | H]; [left | now right].
      split; [now right | exact H2].
  - destruct H as [<- | H].
    + left. split; [now left | exact E].
    + apply IH in H. destruct H as [[H1 H2] | H]; [left | now right].
      split; [now right | exact H2].
Qed.

Lemma lower_char_reflects (c : ascii) :
  (is_quote (lower_char c) = true -> is_quote c = true) /\
  (lower_char c = ","%char -> c = ","%char).
Proof.
  assert (Hall : forallb (fun x =>
            implb (is_quote (lower_char x)) (is_quote x) &&
            implb (Ascii.eqb (lower_char x) ","%char) (Ascii.eqb x ","%char))
            all_chars = true) by (vm_compute; reflexivity).
  pose proof (forall_chars _ Hall c) as E. cbv beta in E.
  apply andb_true_iff in E. destruct E as [E1 E2]. split.
  - intros H. now rewrite H in E1.
  - intros H. rewrite H in E2. now apply Ascii.eqb_eq in E2.
Qed.

(** X25.  The name of a font is [--{prefix}-font-] followed by the first
    family of the value, without quotes and surrounding white space, in
    lower case and with every run of white space turned into one hyphen.
    It does not depend on the ordinal, and the part after the marker
    holds no white space, quote, comma or capital letter. *)
Theorem font_names (pre v : jstring) (i : nat) :
  generateVarName pre font v i =
    str "--" ++ pre ++ str "-font-" ++ collapse (str "-") false (first_family v) /\
  forall c,
    In c (collapse (str "-") false (first_family v)) ->
    is_space c = false /\ is_quote c = false /\ c <> ","%char /\ lower_char c = c.
Proof.
  split.
  - unfold generateVarName, first_family.
    rewrite replaceAll_SPACES by (intros [E | []]; discriminate E).
    change (replaceAll QUOTES [] v) with (replaceAll (Cls is_quote) [] v).
    rewrite replaceAll_Cls_remove. cbn [type_name]. rewrite <- !app_assoc.
    reflexivity.
  - intros c Hc. apply collapse_chars in Hc.
    destruct Hc as [[Hc Hsp] | [<- | []]]; [|repeat split; discriminate].
    unfold first_family, toLowerCase in Hc. apply in_map_iff in Hc.
    destruct Hc as (x & <- & Hx).
    assert (Hseg : In x (first_segment (filter (fun c => negb (is_quote c)) v)))
      by (now apply trim_incl).
    split; [exact Hsp|]. split; [|split].
    + destruct (is_quote (lower_char x)) eqn:E; [|reflexivity].
      apply (proj1 (lower_char_reflects x)) in E.
      apply first_segment_incl in Hseg. apply filter_In in Hseg.
      destruct Hseg as [_ Hq]. now rewrite E in Hq.
    + intros E. apply (proj2 (lower_char_reflects x)) in E. subst x.
      unfold first_segment in Hseg.
      pose proof (split_nonempty ","%char (filter (fun c => negb (is_quote c)) v)).
      destruct (split ","%char (filter (fun c => negb (is_quote c)) v))
        as [|seg l] eqn:Es; [contradiction|].
      apply (in_split_no_sep ","%char (filter (fun c => negb (is_quote c)) v) seg);
        [rewrite Es; now left | exact Hseg].
    + apply lower_char_idempotent.
Qed.

(** ** The threshold on the command line *)










(** ** What a run reports *)






Lemma list_sum_cons (x : nat) (l : list nat) :
  list_sum (x :: l) = x + list_sum l.
Proof.
  reflexivity.
Qed.

Lemma indicator_sum (v : jstring) :
  forall ks,
    NoDup ks -> In v ks ->
    list_sum (map (fun k => if jeqb v k then 1 else 0) ks) = 1.
Proof.
  induction ks as [|k ks IH]; intros Hnd Hin; [destruct Hin|].
  inversion Hnd as [|? ? Hk Hnd']; subst. cbn [map]. rewrite !list_sum_cons.
  destruct (jeqb v k) eqn:E.
  - apply jeqb_true in E. subst k.
    assert (Hzero : forall l, ~ In v l ->
              list_sum (map (fun k => if jeqb v k then 1 else 0) l) = 0).
    { induction l as [|x l IHl]; intros Hx; [reflexivity|].
      cbn [map]. rewrite !list_sum_cons. destruct (jeqb v x) eqn:Ex.
      - apply jeqb_true in Ex. subst x. exfalso. apply Hx. now left.
      - rewrite IHl; [reflexivity|]. intros H. apply Hx. now right. }
    rewrite (Hzero ks Hk). reflexivity.
  - apply jeqb_false in E. destruct Hin as [-> | Hin]; [congruence|].
    now rewrite IH.
Qed.

Lemma occurrences_sum (ks : list jstring) :
  NoDup ks ->
  forall ds,
    (forall d, In d ds -> In (d_value d) ks) ->
    list_sum (map (fun k => length (occurrences_of k ds)) ks) = length ds.
Proof.
  intros Hnd. induction ds as [|d ds IH]; intros Hall.
  - cbn [occurrences_of filter length]. clear Hnd Hall.
    induction ks as [|k ks IHks]; [reflexivity|].
    cbn [map]. rewrite list_sum_cons, IHks. reflexivity.
  - assert (E : map (fun k => length (occurrences_of k (d :: ds))) ks =
                map (fun k => (if jeqb (d_value d) k then 1 else 0) +
                              length (occurrences_of k ds)) ks).
    { apply map_ext. intros k. unfold occurrences_of. cbn [filter].
      destruct (jeqb (d_value d) k); reflexivity. }
    rewrite E.
    assert (Hsplit : forall (f g : jstring -> nat) l,
              list_sum (map (fun k => f k + g k) l) =
              list_sum (map f l) + list_sum (map g l)).
    { intros f g l. induction l as [|x l IHl]; [reflexivity|].
      cbn [map]. rewrite !list_sum_cons. rewrite IHl. lia. }
    rewrite Hsplit, IH by (intros x Hx; apply Hall; now right).
    rewrite indicator_sum; [reflexivity | exact Hnd | apply Hall; now left].
Qed.

(** X28.  No occurrence is lost or counted twice: the numbers of places
    of the gathered values add up to the number of [addValue] calls made
    over all files. *)
Theorem every_discovery_counted (fs : FS) (sc : jstring)
    (cssFiles : list jstring) (allValues : Map ExtractedValue) :
  aggregate fs sc cssFiles [] = inr allValues ->
  list_sum (map (fun e => length (locations (snd e))) allValues) =
  length (discoveries fs sc cssFiles).
Proof.
  intros Hagg.
  pose proof (aggregate_NoDup fs sc cssFiles [] allValues (NoDup_nil _) Hagg) as Hnd.
  pose proof (aggregate_summary fs sc cssFiles [] allValues []
                (fun _ => eq_refl) Hagg) as Hsum.
  cbn [app] in Hsum.
  set (ds := discoveries fs sc cssFiles) in *.
  rewrite <- (occurrences_sum (keys allValues) Hnd ds).
  - unfold keys. rewrite map_map. f_equal. apply map_ext_in. intros [k e] Hin.
    cbn [fst snd]. apply map_get_of_In in Hin; [|exact Hnd].
    rewrite Hsum in Hin. unfold summary in Hin.
    destruct (occurrences_of k ds) as [|d occ]; [discriminate|].
    injection Hin as <-. exact (length_map d_location (d :: occ)).
  - intros d Hd.
    destruct (map_get allValues (d_value d)) as [e|] eqn:E.
    + apply map_get_Some_In in E. apply (in_map fst) in E. exact E.
    + rewrite Hsum in E. unfold summary in E.
      assert (Hocc : In d (occurrences_of (d_value d) ds)).
      { unfold occurrences_of. apply filter_In. split; [exact Hd | apply jeqb_refl]. }
      destruct (occurrences_of (d_value d) ds); [destruct Hocc | discriminate].
Qed.

Lemma every_discovery_counted_witness :
  aggregate mixed_fs (str "all") [str "a.css"; str "b.css"] [] = inr mixed_values /\
  list_sum (map (fun e => length (locations (snd e))) mixed_values) =
    length (discoveries mixed_fs (str "all") [str "a.css"; str "b.css"]).
Proof.
  assert (H : aggregate mixed_fs (str "all") [str "a.css"; str "b.css"] [] =
              inr mixed_values) by (vm_compute; reflexivity).
  split; [exact H|]. exact (every_discovery_counted _ _ _ _ H).
Defined.

(** ** Word boundaries of lengths *)

Lemma spacing_exec_boundary (bef s : jstring) (mr : rmatch) :
  exec_at SPACING bef s = Some mr ->
  head_is is_word bef = false /\
  In (group 2 mr) units /\
  exists post,
    s = (group 1 mr ++ group 2 mr) ++ post /\
    head_is is_word post = negb (head_is is_word (rev (group 2 mr))).
Proof.
  intros H. apply exec_at_sound in H. destruct H as (st' & HM & ->).
  unfold SPACING in HM. cbn [seqs] in HM.
  apply Matches_Seq_inv in HM. destruct HM as (st1 & H1 & HM).
  apply Matches_NotAfterWord_inv in H1. destruct H1 as [-> Hbef].
  apply Matches_Seq_inv in HM. destruct HM as (st2 & H2 & HM).
  apply Matches_Grp_inv in H2. destruct H2 as (st2' & H2 & Hr2 & Hb2 & Hc2).
  apply Matches_number in H2.
  destruct H2 as (num & Hnum & Hdec & Hcn & (c & l & _ & _ & Hbn)).
  apply Matches_Seq_inv in HM. destruct HM as (st3 & H3 & HM).
  apply Matches_Grp_inv in H3. destruct H3 as (st3' & H3 & Hr3 & Hb3 & Hc3).
  destruct (Matches_rest _ _ _ H3) as (t & Hrt & Hbt).
  apply Matches_alts_lit in H3; [|discriminate].
  destruct H3 as (u & Hu & Hru & Hcu).
  assert (t = u) as -> by (rewrite Hrt in Hru; now apply app_inv_tail in Hru).
  apply Matches_WordB_inv in HM. destruct HM as [-> Hword].
  cbn [ms_rest ms_before ms_caps] in Hnum, Hcn, Hbn, Hbef.
  assert (E1 : consumed (MState bef s []) st2' = num) by (now apply consumed_app).
  assert (E2 : consumed st2 st3' = u) by (apply consumed_app; exact Hru).
  assert (G1 : group 1 (RMatch (consumed (MState bef s []) st3) (ms_caps st3)) = num).
  { unfold group. cbn [m_caps]. rewrite Hc3, Hcu, Hc2, Hcn, E1. reflexivity. }
  assert (G2 : group 2 (RMatch (consumed (MState bef s []) st3) (ms_caps st3)) = u).
  { unfold group. cbn [m_caps]. rewrite Hc3, E2. reflexivity. }
  rewrite G1, G2. split; [exact Hbef|]. split; [exact Hu|].
  exists (ms_rest st3). split.
  - rewrite Hnum, <- Hr2, Hru, <- Hr3, app_assoc. reflexivity.
  - rewrite Hb3, Hbt, Hb2, Hbn in Hword.
    assert (Hhead : head_is is_word (rev u ++ rev num ++ bef) =
                    head_is is_word (rev u)).
    { revert Hu. unfold units. cbn [map In].
      intros [<- | [<- | [<- | [<- | [<- | [<- | []]]]]]]; reflexivity. }
    rewrite Hhead in Hword.
    destruct (head_is is_word (rev u)), (head_is is_word (ms_rest st3));
      cbn [xorb negb] in *; congruence.
Qed.

Lemma unit_percent (num unit : jstring) :
  In unit units ->
  negb (head_is is_word (rev unit)) = endsWith (num ++ unit) (str "%").
Proof.
  unfold units, endsWith. cbn [map In]. rewrite rev_app_distr.
  intros [<- | [<- | [<- | [<- | [<- | [<- | []]]]]]]; reflexivity.
Qed.

(** X29.  A length is only extracted where it stands between word
    boundaries as the pattern has them: the character before it is not a
    word character, and the character after it is not a word character
    when the unit is made of letters, whereas a percentage is only
    extracted when a word character follows the percent sign. *)
Theorem spacing_boundaries (ln prop v : jstring) :
  In v (spacings ln prop) ->
  exists a b,
    ln = a ++ v ++ b /\
    head_is is_word (rev a) = false /\
    head_is is_word b = endsWith v (str "%").
Proof.
  unfold spacings. intros H. apply in_flat_map in H. destruct H as (mr & Hmr & Hv).
  apply in_spacingOf in Hv. destruct Hv as (-> & _).
  unfold matchAll in Hmr. apply scan_sound in Hmr.
  destruct Hmr as (s1 & s2 & -> & _ & Hex).
  apply spacing_exec_boundary in Hex.
  destruct Hex as (Hbef & Hu & post & -> & Hpost).
  rewrite app_nil_r in Hbef.
  exists s1, post. split; [now rewrite <- app_assoc|]. split; [exact Hbef|].
  rewrite Hpost. now apply unit_percent.
Qed.

Lemma spacing_boundaries_witness :
  In (str "16px") (spacings (str "margin: 16px auto;") (str "margin")) /\
  (exists a b,
     str "margin: 16px auto;" = a ++ str "16px" ++ b /\
     head_is is_word (rev a) = false /\ head_is is_word b = false) /\
  spacings (str "width: 25%;") (str "width") = [] /\
  spacings (str "width: 25%auto;") (str "width") = [str "25%"].
Proof.
  assert (H : In (str "16px") (spacings (str "margin: 16px auto;") (str "margin")))
    by (vm_compute; auto).
  split; [exact H|]. split; [|split; vm_compute; reflexivity].
  destruct (spacing_boundaries _ _ _ H) as (a & b & E & Ha & Hb).
  exists a, b. auto.
Defined.

(** ** Files that cannot be read *)

Lemma aggregate_fails (fs : FS) (sc : jstring) (f : jstring) (rest : list jstring) :
  readFileSync fs f = None ->
  forall (good : list jstring) (acc : Map ExtractedValue),
    (forall g, In g good -> readFileSync fs g <> None) ->
    aggregate fs sc (good ++ f :: rest) acc = inl f.
Proof.
  intros Hf. induction good as [|g good IH]; intros acc Hgood; cbn [app aggregate].
  - now rewrite Hf.
  - destruct (readFileSync fs g) eqn:E.
    + apply IH. intros x Hx. apply Hgood. now right.
    + exfalso. apply (Hgood g); [now left | exact E].
Qed.

(** X30.  A file that cannot be read ends the run before anything is
    written: the run stops at the first such file in the order of the
    list, whatever follows it, and the file system is as before. *)
Theorem unreadable_file_stops_run (opts : CliOptions) (fs : FS)
    (good rest : list jstring) (f : jstring) :
  help opts = false ->
  (forall g, In g good -> readFileSync fs g <> None) ->
  readFileSync fs f = None ->
  main opts (good ++ f :: rest) fs = (fs, ReadFailed f).
Proof.
  intros Hhelp Hgood Hf. unfold main. rewrite Hhelp.
  destruct (good ++ f :: rest) as [|x l] eqn:E.
  - destruct good; discriminate E.
  - rewrite <- E, (aggregate_fails fs (scope opts) f rest Hf good [] Hgood).
    reflexivity.
Qed.

Lemma unreadable_file_stops_run_witness :
  readFileSync pair_fs (str "c.css") = None /\
  main default_options ([str "a.css"] ++ str "c.css" :: [str "b.css"]) pair_fs =
    (pair_fs, ReadFailed (str "c.css")).
Proof.
  assert (Hf : readFileSync pair_fs (str "c.css") = None) by (vm_compute; reflexivity).
  assert (Hgood : forall g, In g [str "a.css"] -> readFileSync pair_fs g <> None).
  { intros g [<- | []]. vm_compute. discriminate. }
  split; [exact Hf|].
  exact (unreadable_file_stops_run default_options pair_fs [str "a.css"]
           [str "b.css"] (str "c.css") eq_refl Hgood Hf).
Defined.
